(** * RenderPool (splash/pool.py): a bounded pool of render slots

    A shallow embedding of [splash.pool.RenderPool] together with the part
    of Twisted it runs on ([Deferred] and [DeferredQueue]), and the
    properties of the pool stated over that embedding.

    Layout:
    - the object model: exceptions, values, deferreds, renders, the pool;
    - a state-and-exception monad with fuel at the recursive entry points;
    - [Deferred] / [DeferredQueue] as Twisted defines them;
    - the methods of [RenderPool], one definition per method;
    - the driver: what the outside world can do to a pool;
    - the theorems. *)

From stdpp Require Import gmap strings list fin_maps.
From Stdlib Require Import ZArith Lia.

Open Scope Z_scope.
Open Scope nat_scope.

(* ===================================================================== *)
(** ** Object model *)
(* ===================================================================== *)

(** Python exceptions that occur in the pool or are raised into it. *)
Inductive exn :=
| AlreadyCalledError            (* twisted.internet.defer *)
| CancelledError                (* twisted.internet.defer *)
| AssertionError
| KeyError                      (* set.remove of a missing element *)
| ValueError                    (* list.remove of a missing element, int() *)
| TypeError                     (* json.dumps of a non-serialisable value,
                                   unpacking a non-tuple *)
| ConnectionError               (* redis: store unreachable / timed out *)
| AttributeError                (* use of an object that does not exist *)
| UnitError (tag : nat).        (* whatever a collaborator raises *)

(** What a call into a collaborator does: return or raise. *)
Inductive may_raise (A : Type) :=
| Returns (a : A)
| Raises (e : exn).
Arguments Returns {A} a.
Arguments Raises {A} e.

(** The value of [render_options.get_url()]: a string, or some object that
    [json.dumps] cannot serialise. *)
Inductive url_value :=
| UrlStr (s : string)
| UrlObject.

Record render_options := RenderOptions {
  get_uid : string;
  get_url : may_raise url_value;
}.

(** How an execution unit's future settles. *)
Inductive outcome :=
| Succeeds (payload : string)
| Fails (e : exn).

(** What [render.start] does: return and leave the future to be
    fired later from the event loop, fire the future before returning, or
    raise. *)
Inductive start_behaviour :=
| StartAsync
| StartSync (o : outcome)
| StartRaises (e : exn).

(** A render class, as far as the pool can tell classes apart: what
    [start] and [close] of its instances do. *)
Record rendercls := RenderCls {
  on_start : start_behaviour;
  on_close : may_raise unit;
}.

Definition kwargs := list (string * string).
Definition proxy_factory := string.

(** References to [Deferred] objects, named after the place that creates
    them: the [k]-th [queue.get()], the future of render [r], the
    [pool_d] of the [j]-th [render()] call. *)
Inductive dref :=
| DGet (k : nat)
| DRender (r : nat)
| DPool (j : nat).

#[global] Instance dref_eq_dec : EqDecision dref.
Proof. solve_decision. Defined.

#[global] Instance dref_countable : Countable dref.
Proof.
  refine (inj_countable'
    (fun d => match d with
              | DGet k => inl k
              | DRender r => inr (inl r)
              | DPool j => inr (inr j)
              end)
    (fun x => match x with
              | inl k => DGet k
              | inr (inl r) => DRender r
              | inr (inr j) => DPool j
              end) _).
  by intros [].
Defined.

(** The tuple [render()] puts on the queue. *)
Record slot_args := SlotArgs {
  sa_rendercls : rendercls;
  sa_render_options : render_options;
  sa_splash_proxy_factory : option proxy_factory;
  sa_kwargs : kwargs;
  sa_pool_d : dref;
}.

(** Results travelling along callback chains. *)
Inductive value :=
| VNone
| VArgs (a : slot_args)
| VPayload (s : string)
| VFailure (e : exn)              (* twisted.python.failure.Failure *)
| VDeferred (d : dref).

Definition is_failure (v : value) : bool :=
  match v with VFailure _ => true | _ => false end.

Definition is_deferred (v : value) : bool :=
  match v with VDeferred _ => true | _ => false end.

Definition value_of_outcome (o : outcome) : value :=
  match o with
  | Succeeds s => VPayload s
  | Fails e => VFailure e
  end.

(** The callables that end up in callback chains. *)
Inductive callable :=
| Passthru                               (* defer.passthru *)
| StartRender (slot : nat)               (* self._start_render, slot *)
| WaitForRender (slot : nat)             (* self._wait_for_render, slot *)
| Error (render slot : nat)              (* self._error, render, slot *)
| CloseRender (render slot : nat)        (* self._close_render, render, slot *)
| DCallback (d : dref)                   (* d.callback *)
| DErrback (d : dref).                   (* d.errback *)

(** An entry of [Deferred.callbacks]: a (callback, errback) pair, or
    Twisted's [_CONTINUE] marker left by a deferred waiting on this one. *)
Inductive cb_entry :=
| Pair (cb eb : callable)
| CONTINUE (chainee : dref).

(** [Deferred]. [canceller] is true for the deferreds of
    [DeferredQueue.get], whose canceller is [_cancelGet]. *)
Record deferred := Deferred {
  called : bool;
  result : value;
  callbacks : list cb_entry;
  paused : nat;
  running : bool;                  (* _runningCallbacks *)
  suppress : bool;                 (* _suppressAlreadyCalled *)
  canceller : bool;
}.

Definition new_deferred (canc : bool) : deferred :=
  {| called := false; result := VNone; callbacks := [];
     paused := 0; running := false; suppress := false; canceller := canc |}.

Definition d_fire (v : value) (df : deferred) : deferred :=
  {| called := true; result := v; callbacks := callbacks df;
     paused := paused df; running := running df; suppress := suppress df;
     canceller := canceller df |}.

Definition d_with_result (v : value) (df : deferred) : deferred :=
  {| called := called df; result := v; callbacks := callbacks df;
     paused := paused df; running := running df; suppress := suppress df;
     canceller := canceller df |}.

Definition d_with_callbacks (l : list cb_entry) (df : deferred) : deferred :=
  {| called := called df; result := result df; callbacks := l;
     paused := paused df; running := running df; suppress := suppress df;
     canceller := canceller df |}.

Definition d_with_paused (n : nat) (df : deferred) : deferred :=
  {| called := called df; result := result df; callbacks := callbacks df;
     paused := n; running := running df; suppress := suppress df;
     canceller := canceller df |}.

Definition d_with_running (b : bool) (df : deferred) : deferred :=
  {| called := called df; result := result df; callbacks := callbacks df;
     paused := paused df; running := b; suppress := suppress df;
     canceller := canceller df |}.

Definition d_with_suppress (b : bool) (df : deferred) : deferred :=
  {| called := called df; result := result df; callbacks := callbacks df;
     paused := paused df; running := running df; suppress := b;
     canceller := canceller df |}.

(** A render object: what the constructor was given, and its future. *)
Record render_object := RenderObject {
  r_cls : rendercls;
  r_network_manager : nat;
  r_splash_proxy_factory : option proxy_factory;
  r_render_options : render_options;
  r_verbosity : Z;
  r_deferred : dref;
}.

(** The JSON document [debug_update] builds. *)
Record debug_data := DebugData {
  dd_ts : Z;
  dd_urls : list url_value;
}.

(** Texts handed to [log.msg]. *)
Inductive log_text :=
| LogRedis (host : string) (port : Z)       (* 'redis host %s, redis port %s' *)
| LogQueued (uid : string)                  (* '[%s] queued' *)
| LogAvailable (slot : nat)                 (* 'SLOT %d is available' *)
| LogInitializing (slot : nat)              (* 'initializing SLOT %d' *)
| LogStarting (uid : string) (slot : nat)   (* '[%s] SLOT %d is starting' *)
| LogWorking (uid : string) (slot : nat)    (* '[%s] SLOT %d is working' *)
| LogError (uid : string) (slot render : nat) (failure : value)
                                            (* '[%s] SLOT %d finished with an error %s: %s' *)
| LogClosing (uid : string) (slot render : nat)
                                            (* '[%s] SLOT %d is closing %s' *)
| LogDone (uid : string) (slot render : nat)
                                            (* '[%s] SLOT %d done with %s' *)
| LogDebugUpdateFailed (e : exn).           (* 'debug_update failed: %s' *)

(** What the pool does to the world, in order.  [EDequeue], [EActiveAdd]
    and [EActiveRemove] mark lines 54, 62 and 86 of pool.py; the others
    are calls into collaborators. *)
Inductive event :=
| ELog (system : string) (text : log_text)
| EDequeue (slot : nat) (pool_d : dref)
| ENetworkManager (nm : nat)
| EConstruct (r nm : nat) (spf : option proxy_factory)
             (ro : render_options) (verbosity : Z)
| EActiveAdd (slot r : nat)
| EActiveRemove (slot r : nat)
| ERedisSet (key : string) (data : debug_data) (ok : bool)
| EStart (r : nat) (kw : kwargs)
| ECancel (r : nat)
| EClose (slot r : nat).

(** The pool object, the objects it refers to, and the world around it. *)
Record state := State {
  (* self *)
  splash_proxy_factory_cls : option string -> option proxy_factory;
  js_profiles_path : option string;
  active : gset nat;
  queue_waiting : list dref;        (* self.queue.waiting *)
  queue_pending : list slot_args;   (* self.queue.pending *)
  verbosity : Z;
  debug_key : string;
  redis_host : string;
  redis_port : Z;
  (* objects *)
  deferreds : gmap dref deferred;
  renders : gmap nat render_object;
  next_get : nat;
  next_pool_d : nat;
  next_render : nat;
  next_network_manager : nat;
  (* world *)
  redis_up : bool;
  clock : Z;
  trace : list event;
}.

Definition with_active (f : gset nat -> gset nat) (st : state) : state :=
  {| splash_proxy_factory_cls := splash_proxy_factory_cls st;
     js_profiles_path := js_profiles_path st;
     active := f (active st);
     queue_waiting := queue_waiting st; queue_pending := queue_pending st;
     verbosity := verbosity st; debug_key := debug_key st;
     redis_host := redis_host st; redis_port := redis_port st;
     deferreds := deferreds st; renders := renders st;
     next_get := next_get st; next_pool_d := next_pool_d st;
     next_render := next_render st;
     next_network_manager := next_network_manager st;
     redis_up := redis_up st; clock := clock st; trace := trace st |}.

Definition with_waiting (l : list dref) (st : state) : state :=
  {| splash_proxy_factory_cls := splash_proxy_factory_cls st;
     js_profiles_path := js_profiles_path st;
     active := active st;
     queue_waiting := l; queue_pending := queue_pending st;
     verbosity := verbosity st; debug_key := debug_key st;
     redis_host := redis_host st; redis_port := redis_port st;
     deferreds := deferreds st; renders := renders st;
     next_get := next_get st; next_pool_d := next_pool_d st;
     next_render := next_render st;
     next_network_manager := next_network_manager st;
     redis_up := redis_up st; clock := clock st; trace := trace st |}.

Definition with_pending (l : list slot_args) (st : state) : state :=
  {| splash_proxy_factory_cls := splash_proxy_factory_cls st;
     js_profiles_path := js_profiles_path st;
     active := active st;
     queue_waiting := queue_waiting st; queue_pending := l;
     verbosity := verbosity st; debug_key := debug_key st;
     redis_host := redis_host st; redis_port := redis_port st;
     deferreds := deferreds st; renders := renders st;
     next_get := next_get st; next_pool_d := next_pool_d st;
     next_render := next_render st;
     next_network_manager := next_network_manager st;
     redis_up := redis_up st; clock := clock st; trace := trace st |}.

Definition with_deferreds (f : gmap dref deferred -> gmap dref deferred)
    (st : state) : state :=
  {| splash_proxy_factory_cls := splash_proxy_factory_cls st;
     js_profiles_path := js_profiles_path st;
     active := active st;
     queue_waiting := queue_waiting st; queue_pending := queue_pending st;
     verbosity := verbosity st; debug_key := debug_key st;
     redis_host := redis_host st; redis_port := redis_port st;
     deferreds := f (deferreds st); renders := renders st;
     next_get := next_get st; next_pool_d := next_pool_d st;
     next_render := next_render st;
     next_network_manager := next_network_manager st;
     redis_up := redis_up st; clock := clock st; trace := trace st |}.

Definition with_renders
    (f : gmap nat render_object -> gmap nat render_object)
    (st : state) : state :=
  {| splash_proxy_factory_cls := splash_proxy_factory_cls st;
     js_profiles_path := js_profiles_path st;
     active := active st;
     queue_waiting := queue_waiting st; queue_pending := queue_pending st;
     verbosity := verbosity st; debug_key := debug_key st;
     redis_host := redis_host st; redis_port := redis_port st;
     deferreds := deferreds st; renders := f (renders st);
     next_get := next_get st; next_pool_d := next_pool_d st;
     next_render := next_render st;
     next_network_manager := next_network_manager st;
     redis_up := redis_up st; clock := clock st; trace := trace st |}.

(** Bump one of the allocation counters. *)
Inductive counter := CGet | CPoolD | CRender | CNetworkManager.

Definition bump (c : counter) (st : state) : state :=
  {| splash_proxy_factory_cls := splash_proxy_factory_cls st;
     js_profiles_path := js_profiles_path st;
     active := active st;
     queue_waiting := queue_waiting st; queue_pending := queue_pending st;
     verbosity := verbosity st; debug_key := debug_key st;
     redis_host := redis_host st; redis_port := redis_port st;
     deferreds := deferreds st; renders := renders st;
     next_get := match c with CGet => S (next_get st) | _ => next_get st end;
     next_pool_d :=
       match c with CPoolD => S (next_pool_d st) | _ => next_pool_d st end;
     next_render :=
       match c with CRender => S (next_render st) | _ => next_render st end;
     next_network_manager :=
       match c with
       | CNetworkManager => S (next_network_manager st)
       | _ => next_network_manager st
       end;
     redis_up := redis_up st; clock := clock st; trace := trace st |}.

Definition emit (e : event) (st : state) : state :=
  {| splash_proxy_factory_cls := splash_proxy_factory_cls st;
     js_profiles_path := js_profiles_path st;
     active := active st;
     queue_waiting := queue_waiting st; queue_pending := queue_pending st;
     verbosity := verbosity st; debug_key := debug_key st;
     redis_host := redis_host st; redis_port := redis_port st;
     deferreds := deferreds st; renders := renders st;
     next_get := next_get st; next_pool_d := next_pool_d st;
     next_render := next_render st;
     next_network_manager := next_network_manager st;
     redis_up := redis_up st; clock := clock st;
     trace := trace st ++ [e] |}.

(** The attributes [__init__] assigns from its arguments. *)
Definition with_config (cls : option string -> option proxy_factory)
    (js : option string) (v : Z) (st : state) : state :=
  {| splash_proxy_factory_cls := cls;
     js_profiles_path := js;
     active := ∅;
     queue_waiting := []; queue_pending := [];
     verbosity := v; debug_key := debug_key st;
     redis_host := redis_host st; redis_port := redis_port st;
     deferreds := deferreds st; renders := renders st;
     next_get := next_get st; next_pool_d := next_pool_d st;
     next_render := next_render st;
     next_network_manager := next_network_manager st;
     redis_up := redis_up st; clock := clock st; trace := trace st |}.

(** The attributes [__init__] derives from the process environment. *)
Definition with_debug (key host : string) (port : Z) (st : state) : state :=
  {| splash_proxy_factory_cls := splash_proxy_factory_cls st;
     js_profiles_path := js_profiles_path st;
     active := active st;
     queue_waiting := queue_waiting st; queue_pending := queue_pending st;
     verbosity := verbosity st; debug_key := key;
     redis_host := host; redis_port := port;
     deferreds := deferreds st; renders := renders st;
     next_get := next_get st; next_pool_d := next_pool_d st;
     next_render := next_render st;
     next_network_manager := next_network_manager st;
     redis_up := redis_up st; clock := clock st; trace := trace st |}.

(** The world changes on its own: the store goes down or comes back, time
    passes. *)
Definition with_world (up : bool) (now : Z) (st : state) : state :=
  {| splash_proxy_factory_cls := splash_proxy_factory_cls st;
     js_profiles_path := js_profiles_path st;
     active := active st;
     queue_waiting := queue_waiting st; queue_pending := queue_pending st;
     verbosity := verbosity st; debug_key := debug_key st;
     redis_host := redis_host st; redis_port := redis_port st;
     deferreds := deferreds st; renders := renders st;
     next_get := next_get st; next_pool_d := next_pool_d st;
     next_render := next_render st;
     next_network_manager := next_network_manager st;
     redis_up := up; clock := now; trace := trace st |}.

(* ===================================================================== *)
(** ** The monad: state, exceptions, fuel *)
(* ===================================================================== *)

Inductive res (A : Type) :=
| Ok (a : A)
| Raise (e : exn)
| OutOfFuel.
Arguments Ok {A} a.
Arguments Raise {A} e.
Arguments OutOfFuel {A}.

Definition M (A : Type) : Type := state -> res A * state.

Definition ret {A} (a : A) : M A := fun st => (Ok a, st).

Definition bind {A B} (m : M A) (k : A -> M B) : M B :=
  fun st =>
    match m st with
    | (Ok a, st') => k a st'
    | (Raise e, st') => (Raise e, st')
    | (OutOfFuel, st') => (OutOfFuel, st')
    end.

Definition raise {A} (e : exn) : M A := fun st => (Raise e, st).

Definition out_of_fuel {A} : M A := fun st => (OutOfFuel, st).

(** [try: m except: h] *)
Definition try_except {A} (m : M A) (h : exn -> M A) : M A :=
  fun st =>
    match m st with
    | (Raise e, st') => h e st'
    | r => r
    end.

(** Run [m] and hand its result, normal or exceptional, to [k]. *)
Definition attempt {A} (m : M A) : M (may_raise A) :=
  fun st =>
    match m st with
    | (Ok a, st') => (Ok (Returns a), st')
    | (Raise e, st') => (Ok (Raises e), st')
    | (OutOfFuel, st') => (OutOfFuel, st')
    end.

Definition gets {A} (f : state -> A) : M A := fun st => (Ok (f st), st).

Definition modify (f : state -> state) : M unit := fun st => (Ok tt, f st).

Declare Scope pool_scope.
Delimit Scope pool_scope with pool.
Notation "x <- m ;; k" := (bind m (fun x => k))
  (at level 20, m at level 99, k at level 200, only parsing) : pool_scope.
Notation "m ;; k" := (bind m (fun _ => k))
  (at level 100, k at level 200, only parsing, right associativity)
  : pool_scope.
Open Scope pool_scope.

Definition when (b : bool) (m : M unit) : M unit :=
  if b then m else ret tt.

(* ===================================================================== *)
(** ** Primitive accesses to the object store and the world *)
(* ===================================================================== *)

Definition get_d (d : dref) : M deferred :=
  fun st =>
    match deferreds st !! d with
    | Some df => (Ok df, st)
    | None => (Raise AttributeError, st)
    end.

Definition set_d (d : dref) (df : deferred) : M unit :=
  modify (with_deferreds (<[d := df]>)).

Definition update_d (d : dref) (f : deferred -> deferred) : M unit :=
  df <- get_d d ;; set_d d (f df).

Definition get_render (r : nat) : M render_object :=
  fun st =>
    match renders st !! r with
    | Some obj => (Ok obj, st)
    | None => (Raise AttributeError, st)
    end.

(** [log.msg(text, system=...)] *)
Definition log_msg (system : string) (text : log_text) : M unit :=
  modify (emit (ELog system text)).

(** [json.dumps(debug_data).encode()] *)
Definition json_dumps (data : debug_data) : M debug_data :=
  if forallb (fun u => match u with UrlStr _ => true | UrlObject => false end)
             (dd_urls data)
  then ret data
  else raise TypeError.

(** [self.debug_dbc.set(key, payload)] *)
Definition redis_set (key : string) (payload : debug_data) : M unit :=
  up <- gets redis_up ;;
  modify (emit (ERedisSet key payload up)) ;;
  if up then ret tt else raise ConnectionError.

(** [self.network_manager_factory()] *)
Definition network_manager_factory : M nat :=
  nm <- gets next_network_manager ;;
  modify (bump CNetworkManager) ;;
  modify (emit (ENetworkManager nm)) ;;
  ret nm.

(** [rendercls(network_manager=..., splash_proxy_factory=...,
    render_options=..., verbosity=...)]: a new render with a fresh,
    unfired future. *)
Definition construct (cls : rendercls) (nm : nat)
    (spf : option proxy_factory) (ro : render_options) (v : Z) : M nat :=
  r <- gets next_render ;;
  modify (bump CRender) ;;
  set_d (DRender r) (new_deferred false) ;;
  modify (with_renders
            (<[r := {| r_cls := cls; r_network_manager := nm;
                       r_splash_proxy_factory := spf;
                       r_render_options := ro; r_verbosity := v;
                       r_deferred := DRender r |}]>)) ;;
  modify (emit (EConstruct r nm spf ro v)) ;;
  ret r.

(** [render.close()] *)
Definition render_close (slot render : nat) : M unit :=
  obj <- get_render render ;;
  modify (emit (EClose slot render)) ;;
  match on_close (r_cls obj) with
  | Returns _ => ret tt
  | Raises e => raise e
  end.

(** [[render.render_options.get_url() for render in ...]] *)
Fixpoint render_urls (rs : list nat) : M (list url_value) :=
  match rs with
  | [] => ret []
  | r :: rest =>
      obj <- get_render r ;;
      match get_url (r_render_options obj) with
      | Raises e => raise e
      | Returns u => us <- render_urls rest ;; ret (u :: us)
      end
  end.

(* ===================================================================== *)
(** ** Twisted: Deferred and DeferredQueue; the methods of RenderPool *)
(* ===================================================================== *)

(** The two methods of [Deferred] through which everything recurses. *)
Inductive rec_call :=
| RunCallbacks (d : dref)        (* d._runCallbacks() *)
| Cancel (d : dref).             (* d.cancel() *)

Section Methods.

Variable rec : rec_call -> M unit.

(** *** twisted.internet.defer.Deferred *)

Definition _startRunCallbacks (d : dref) (v : value) : M unit :=
  df <- get_d d ;;
  if called df then
    if suppress df then set_d d (d_with_suppress false df)
    else raise AlreadyCalledError
  else
    set_d d (d_fire v df) ;;
    rec (RunCallbacks d).

Definition callback (d : dref) (v : value) : M unit :=
  if is_deferred v then raise AssertionError else _startRunCallbacks d v.

Definition errback (d : dref) (e : exn) : M unit :=
  _startRunCallbacks d (VFailure e).

Definition addCallbacks (d : dref) (cb eb : callable) : M unit :=
  df <- get_d d ;;
  set_d d (d_with_callbacks (callbacks df ++ [Pair cb eb]) df) ;;
  if called df then rec (RunCallbacks d) else ret tt.

Definition addCallback (d : dref) (f : callable) : M unit :=
  addCallbacks d f Passthru.

Definition addErrback (d : dref) (f : callable) : M unit :=
  addCallbacks d Passthru f.

Definition addBoth (d : dref) (f : callable) : M unit :=
  addCallbacks d f f.

Definition chainDeferred (d target : dref) : M unit :=
  addCallbacks d (DCallback target) (DErrback target).

(** *** twisted.internet.defer.DeferredQueue (size=None, backlog=None) *)

Fixpoint remove_first (d : dref) (l : list dref) : list dref :=
  match l with
  | [] => []
  | x :: rest => if decide (x = d) then rest else x :: remove_first d rest
  end.

Definition _cancelGet (d : dref) : M unit :=
  w <- gets queue_waiting ;;
  if bool_decide (d ∈ w)
  then modify (with_waiting (remove_first d w))
  else raise ValueError.

Definition put (obj : slot_args) : M unit :=
  w <- gets queue_waiting ;;
  match w with
  | d :: rest =>
      modify (with_waiting rest) ;;
      callback d (VArgs obj)
  | [] =>
      p <- gets queue_pending ;;
      modify (with_pending (p ++ [obj]))
  end.

(** [get]: [succeed(self.pending.pop(0))] is a deferred that already has
    its result; otherwise a fresh deferred joins [waiting]. *)
Definition get : M dref :=
  p <- gets queue_pending ;;
  k <- gets next_get ;;
  modify (bump CGet) ;;
  match p with
  | obj :: rest =>
      modify (with_pending rest) ;;
      set_d (DGet k) (d_fire (VArgs obj) (new_deferred false)) ;;
      ret (DGet k)
  | [] =>
      set_d (DGet k) (new_deferred true) ;;
      w <- gets queue_waiting ;;
      modify (with_waiting (w ++ [DGet k])) ;;
      ret (DGet k)
  end.

(** [Deferred.cancel] *)
Definition cancel (d : dref) : M unit :=
  df <- get_d d ;;
  if called df then
    match result df with
    | VDeferred inner => rec (Cancel inner)
    | _ => ret tt
    end
  else
    (if canceller df then _cancelGet d
     else set_d d (d_with_suppress true df)) ;;
    df' <- get_d d ;;
    if called df' then ret tt else errback d CancelledError.

(** *** splash.pool.RenderPool *)

Definition log (text : log_text) : M unit :=
  v <- gets verbosity ;;
  if (2 <=? v)%Z then log_msg "pool" text else ret tt.

Definition debug_update : M unit :=
  act <- gets active ;;
  urls <- render_urls (elements act) ;;
  now <- gets clock ;;
  let debug_data := {| dd_ts := now; dd_urls := urls |} in
  try_except
    (key <- gets debug_key ;;
     payload <- json_dumps debug_data ;;
     redis_set key payload)
    (fun e => log_msg "debug-urls" (LogDebugUpdateFailed e)).

Definition render (cls : rendercls) (render_options : render_options)
    (proxy : option string) (kw : kwargs) : M dref :=
  cls_ <- gets splash_proxy_factory_cls ;;
  let splash_proxy_factory := cls_ proxy in
  j <- gets next_pool_d ;;
  modify (bump CPoolD) ;;
  let pool_d := DPool j in
  set_d pool_d (new_deferred false) ;;
  put {| sa_rendercls := cls; sa_render_options := render_options;
         sa_splash_proxy_factory := splash_proxy_factory;
         sa_kwargs := kw; sa_pool_d := pool_d |} ;;
  log (LogQueued (get_uid render_options)) ;;
  ret pool_d.

Definition _wait_for_render (v : value) (slot : nat) (log_ : bool)
    : M value :=
  when log_ (log (LogAvailable slot)) ;;
  d <- get ;;
  addCallback d (StartRender slot) ;;
  addBoth d (WaitForRender slot) ;;
  ret v.

(** [render.start( **kwargs )] *)
Definition render_start (render : nat) (kw : kwargs) : M unit :=
  obj <- get_render render ;;
  modify (emit (EStart render kw)) ;;
  match on_start (r_cls obj) with
  | StartAsync => ret tt
  | StartSync (Succeeds s) => callback (r_deferred obj) (VPayload s)
  | StartSync (Fails e) => errback (r_deferred obj) e
  | StartRaises e => raise e
  end.

Definition _start_render (slot_args : value) (slot : nat) : M value :=
  log (LogInitializing slot) ;;
  match slot_args with
  | VArgs a =>
      let pool_d := sa_pool_d a in
      let render_options := sa_render_options a in
      modify (emit (EDequeue slot pool_d)) ;;
      nm <- network_manager_factory ;;
      v <- gets verbosity ;;
      render <- construct (sa_rendercls a) nm (sa_splash_proxy_factory a)
                          render_options v ;;
      modify (with_active (fun s => s ∪ {[render]})) ;;
      modify (emit (EActiveAdd slot render)) ;;
      debug_update ;;
      obj <- get_render render ;;
      chainDeferred (r_deferred obj) pool_d ;;
      addErrback pool_d (Error render slot) ;;
      addBoth pool_d (CloseRender render slot) ;;
      log (LogStarting (get_uid render_options) slot) ;;
      try_except (render_start render (sa_kwargs a))
        (fun e => errback (r_deferred obj) e ;; raise e) ;;
      log (LogWorking (get_uid render_options) slot) ;;
      ret (VDeferred (r_deferred obj))
  | _ => raise TypeError
  end.

Definition _error (failure : value) (render slot : nat) : M value :=
  obj <- get_render render ;;
  let uid := get_uid (r_render_options obj) in
  log (LogError uid slot render failure) ;;
  ret failure.

Definition _close_render (v : value) (render slot : nat) : M value :=
  obj <- get_render render ;;
  let uid := get_uid (r_render_options obj) in
  log (LogClosing uid slot render) ;;
  act <- gets active ;;
  (if bool_decide (render ∈ act)
   then modify (with_active (fun s => s ∖ {[render]})) ;;
        modify (emit (EActiveRemove slot render))
   else raise KeyError) ;;
  debug_update ;;
  modify (emit (ECancel render)) ;;
  cancel (r_deferred obj) ;;
  render_close slot render ;;
  log (LogDone uid slot render) ;;
  ret v.

(** [os.environ] as [__init__] reads it, and the [uuid.uuid4()] it may
    draw.  [REDIS_PORT] holds what [int(...)] makes of the variable when it
    is set and not empty. *)
Record environ := Environ {
  MESOS_TASK_ID : option string;
  REDIS_HOST : option string;
  REDIS_PORT : option (may_raise Z);
  uuid4 : string;
}.

Fixpoint for_range (ns : list nat) (body : nat -> M unit) : M unit :=
  match ns with
  | [] => ret tt
  | n :: rest => body n ;; for_range rest body
  end.

(** The constructor.  [network_manager_factory] is the opaque collaborator
    of [network_manager_factory] above and takes no argument here. *)
Definition __init__ (slots : Z)
    (splash_proxy_factory_cls_ : option (option string -> option proxy_factory))
    (js_profiles_path_ : option string) (verbosity_ : Z) (env : environ)
    : M unit :=
  modify (with_config
            (match splash_proxy_factory_cls_ with
             | Some cls => cls
             | None => fun profile_name => None
             end)
            js_profiles_path_ verbosity_) ;;
  for_range (seq 0 (Z.to_nat slots))
    (fun n => _wait_for_render VNone n false ;; ret tt) ;;
  let key := "splash-urls-" +:+
             match MESOS_TASK_ID env with Some t => t | None => uuid4 env end in
  let host := match REDIS_HOST env with Some h => h | None => "127.0.0.1" end in
  port <- match REDIS_PORT env with
          | Some (Returns p) => ret p
          | Some (Raises e) => raise e
          | None => ret 6379%Z
          end ;;
  log_msg "debug-urls" (LogRedis host port) ;;
  modify (with_debug key host port).

(** *** Deferred._runCallbacks *)

(** Calling what a chain entry holds. *)
Definition call (f : callable) (v : value) : M value :=
  match f with
  | Passthru => ret v
  | StartRender slot => _start_render v slot
  | WaitForRender slot => _wait_for_render v slot true
  | Error render slot => _error v render slot
  | CloseRender render slot => _close_render v render slot
  | DCallback d => callback d v ;; ret VNone
  | DErrback d =>
      match v with
      | VFailure e => errback d e
      | _ => raise TypeError
      end ;;
      ret VNone
  end.

(** One turn of the loop of [_runCallbacks]: take the next entry, call
    it on the current result, store what it returns (a raised exception
    becomes a [Failure]; a returned deferred is waited for, or its result
    taken if it has one), and go round again. *)
Definition _runCallbacks (d : dref) : M unit :=
  df <- get_d d ;;
  if running df then ret tt
  else if 0 <? paused df then ret tt
  else
    match callbacks df with
    | [] => ret tt
    | CONTINUE chainee :: rest =>
        set_d d (d_with_result VNone (d_with_callbacks rest df)) ;;
        cf <- get_d chainee ;;
        set_d chainee
          (d_with_paused (paused cf - 1) (d_with_result (result df) cf)) ;;
        rec (RunCallbacks chainee) ;;
        rec (RunCallbacks d)
    | Pair cb eb :: rest =>
        set_d d (d_with_running true (d_with_callbacks rest df)) ;;
        r <- attempt (call (if is_failure (result df) then eb else cb)
                           (result df)) ;;
        update_d d (d_with_running false) ;;
        match r with
        | Raises e =>
            update_d d (d_with_result (VFailure e)) ;;
            rec (RunCallbacks d)
        | Returns (VDeferred inner) =>
            idf <- get_d inner ;;
            if negb (called idf) || is_deferred (result idf)
               || (0 <? paused idf)
            then
              update_d d (fun x => d_with_paused (S (paused x))
                                     (d_with_result (VDeferred inner) x)) ;;
              update_d inner
                (fun x => d_with_callbacks (callbacks x ++ [CONTINUE d]) x)
            else
              set_d inner (d_with_result VNone idf) ;;
              update_d d (d_with_result (result idf)) ;;
              rec (RunCallbacks d)
        | Returns v =>
            update_d d (d_with_result v) ;;
            rec (RunCallbacks d)
        end
    end.

End Methods.

(** Tying the knot: each nested [_runCallbacks] or [cancel] takes one unit
    of fuel. *)
Fixpoint exec (fuel : nat) (c : rec_call) : M unit :=
  match fuel with
  | 0 => out_of_fuel
  | S fuel' =>
      match c with
      | RunCallbacks d => _runCallbacks (exec fuel') d
      | Cancel d => cancel (exec fuel') d
      end
  end.

(* ===================================================================== *)
(** ** The driver *)
(* ===================================================================== *)

(** The process before the pool exists: no objects, the store reachable. *)
Definition blank : state :=
  {| splash_proxy_factory_cls := fun _ => None;
     js_profiles_path := None;
     active := ∅;
     queue_waiting := []; queue_pending := [];
     verbosity := 0%Z; debug_key := "";
     redis_host := ""; redis_port := 0%Z;
     deferreds := ∅; renders := ∅;
     next_get := 0; next_pool_d := 0; next_render := 0;
     next_network_manager := 0;
     redis_up := true; clock := 0%Z; trace := [] |}.

Definition new_pool (fuel : nat) (slots : Z)
    (cls : option (option string -> option proxy_factory))
    (js : option string) (v : Z) (env : environ) : res unit * state :=
  __init__ (exec fuel) slots cls js v env blank.

(** What the outside world does to a pool: a caller submits a job, the
    event loop settles the future of a render, the store goes down or
    comes back and time passes. *)
Inductive input :=
| Submit (cls : rendercls) (ro : render_options) (proxy : option string)
         (kw : kwargs)
| Complete (r : nat) (o : outcome)
| World (up : bool) (now : Z).

Definition step (fuel : nat) (i : input) : M unit :=
  match i with
  | Submit cls ro proxy kw =>
      render (exec fuel) cls ro proxy kw ;; ret tt
  | Complete r o =>
      rs <- gets renders ;;
      match rs !! r with
      | None => ret tt
      | Some obj =>
          match o with
          | Succeeds s => callback (exec fuel) (r_deferred obj) (VPayload s)
          | Fails e => errback (exec fuel) (r_deferred obj) e
          end
      end
  | World up now => modify (with_world up now)
  end.

(** A run: the inputs one after the other.  An exception that reaches the
    world (a call on a future that is already settled) is the world's to
    deal with; the pool goes on. *)
Fixpoint run (fuel : nat) (inputs : list input) (st : state) : option state :=
  match inputs with
  | [] => Some st
  | i :: rest =>
      match step fuel i st with
      | (OutOfFuel, _) => None
      | (_, st') => run fuel rest st'
      end
  end.

(* ---------- summaries ---------- *)
Definition emits (l : list event) (st : state) : state :=
  {| splash_proxy_factory_cls := splash_proxy_factory_cls st;
     js_profiles_path := js_profiles_path st;
     active := active st;
     queue_waiting := queue_waiting st; queue_pending := queue_pending st;
     verbosity := verbosity st; debug_key := debug_key st;
     redis_host := redis_host st; redis_port := redis_port st;
     deferreds := deferreds st; renders := renders st;
     next_get := next_get st; next_pool_d := next_pool_d st;
     next_render := next_render st;
     next_network_manager := next_network_manager st;
     redis_up := redis_up st; clock := clock st;
     trace := trace st ++ l |}.

Lemma state_ext (a b : state) :
  splash_proxy_factory_cls a = splash_proxy_factory_cls b ->
  js_profiles_path a = js_profiles_path b ->
  active a = active b ->
  queue_waiting a = queue_waiting b ->
  queue_pending a = queue_pending b ->
  verbosity a = verbosity b ->
  debug_key a = debug_key b ->
  redis_host a = redis_host b ->
  redis_port a = redis_port b ->
  deferreds a = deferreds b ->
  renders a = renders b ->
  next_get a = next_get b ->
  next_pool_d a = next_pool_d b ->
  next_render a = next_render b ->
  next_network_manager a = next_network_manager b ->
  redis_up a = redis_up b ->
  clock a = clock b ->
  trace a = trace b ->
  a = b.
Proof. destruct a, b; simpl; intros; subst; reflexivity. Qed.

Ltac state_eq :=
  apply state_ext; simpl; rewrite <- ?app_assoc; simpl; try reflexivity.

Fixpoint urls_of (rs : gmap nat render_object) (l : list nat)
    : may_raise (list url_value) :=
  match l with
  | [] => Returns []
  | r :: rest =>
      match rs !! r with
      | None => Raises AttributeError
      | Some obj =>
          match get_url (r_render_options obj) with
          | Raises e => Raises e
          | Returns u =>
              match urls_of rs rest with
              | Returns us => Returns (u :: us)
              | Raises e => Raises e
              end
          end
      end
  end.

Lemma render_urls_eq l st :
  render_urls l st =
    (match urls_of (renders st) l with
     | Returns us => Ok us
     | Raises e => Raise e
     end, st).
Proof.
  induction l as [|r l IH]; simpl; [reflexivity|].
  unfold bind, get_render. destruct (renders st !! r) as [obj|]; [|reflexivity].
  destruct (get_url (r_render_options obj)); [|reflexivity].
  rewrite IH. destruct (urls_of (renders st) l); reflexivity.
Qed.

Definition log_events (v : Z) (t : log_text) : list event :=
  if (2 <=? v)%Z then [ELog "pool" t] else [].

Lemma log_eq t st : log t st = (Ok tt, emits (log_events (verbosity st) t) st).
Proof.
  unfold log, bind, gets, log_events. destruct (2 <=? verbosity st)%Z.
  - reflexivity.
  - unfold ret. f_equal. state_eq. by rewrite app_nil_r.
Qed.

Definition all_str (us : list url_value) : bool :=
  forallb (fun u => match u with UrlStr _ => true | UrlObject => false end) us.

Definition debug_events (key : string) (up : bool) (now : Z) (us : list url_value) : list event :=
  if all_str us then
    ERedisSet key {| dd_ts := now; dd_urls := us |} up ::
    (if up then [] else [ELog "debug-urls" (LogDebugUpdateFailed ConnectionError)])
  else [ELog "debug-urls" (LogDebugUpdateFailed TypeError)].

Lemma debug_update_eq st :
  debug_update st =
    match urls_of (renders st) (elements (active st)) with
    | Returns us =>
        (Ok tt, emits (debug_events (debug_key st) (redis_up st) (clock st) us) st)
    | Raises e => (Raise e, st)
    end.
Proof.
  unfold debug_update, bind, gets. rewrite render_urls_eq.
  destruct (urls_of _ _) as [us|e]; [|reflexivity].
  unfold try_except, bind, gets, json_dumps, debug_events, all_str. simpl.
  destruct (forallb _ us).
  - unfold ret, redis_set, bind, gets, modify. simpl.
    destruct (redis_up st); simpl.
    + reflexivity.
    + unfold log_msg, modify. f_equal. state_eq.
  - reflexivity.
Qed.

Lemma emits_nil st : emits [] st = st.
Proof. state_eq. by rewrite app_nil_r. Qed.

Lemma emits_emits l1 l2 st : emits l2 (emits l1 st) = emits (l1 ++ l2) st.
Proof. state_eq. Qed.

Definition settled_with (w : value) (rest : list cb_entry) (df : deferred)
    : deferred :=
  {| called := true; result := w; callbacks := rest; paused := paused df;
     running := false; suppress := suppress df; canceller := canceller df |}.

Definition settled (w : value) (df : deferred) : deferred :=
  settled_with w [] df.

Definition close_core (v : Z) (key : string) (up : bool) (now : Z)
    (rs : gmap nat render_object) (act : gset nat)
    (obj : render_object) (r s : nat) : list event * option exn :=
  let uid := get_uid (r_render_options obj) in
  let pre := log_events v (LogClosing uid s r) ++ [EActiveRemove s r] in
  match urls_of rs (elements (act ∖ {[r]})) with
  | Raises e => (pre, Some e)
  | Returns us =>
      let mid := pre ++ debug_events key up now us
                 ++ [ECancel r; EClose s r] in
      match on_close (r_cls obj) with
      | Returns _ => (mid ++ log_events v (LogDone uid s r), None)
      | Raises e => (mid, Some e)
      end
  end.
Arguments close_core : simpl never.

(** What [_close_render] appends to the trace, and what it raises. *)
Definition close_summary (st : state) (obj : render_object) (r s : nat)
    : list event * option exn :=
  close_core (verbosity st) (debug_key st) (redis_up st) (clock st)
    (renders st) (active st) obj r s.

Definition res_of {A} (a : A) (o : option exn) : res A :=
  match o with None => Ok a | Some e => Raise e end.

Lemma cancel_settled rec d st df :
  deferreds st !! d = Some df -> called df = true ->
  is_deferred (result df) = false ->
  cancel rec d st = (Ok tt, st).
Proof.
  intros Hd Hc Hr. unfold cancel, bind, get_d. rewrite Hd, Hc.
  destruct (result df); try reflexivity. discriminate.
Qed.

Ltac mred :=
  unfold bind, gets, modify, ret, raise, when, try_except, attempt,
         get_d, set_d, update_d, get_render, log_msg, out_of_fuel;
  simpl.

Lemma close_render_eq rec v r s st obj df :
  renders st !! r = Some obj ->
  deferreds st !! r_deferred obj = Some df ->
  called df = true -> is_deferred (result df) = false ->
  r ∈ active st ->
  _close_render rec v r s st =
    (res_of v (close_summary st obj r s).2,
     with_active (fun a => a ∖ {[r]}) (emits (close_summary st obj r s).1 st)).
Proof.
  intros Hr Hd Hc Hnd Hact.
  unfold _close_render. mred. rewrite Hr, log_eq. simpl.
  rewrite bool_decide_true by done.
  rewrite debug_update_eq. simpl.
  unfold close_summary, close_core.
  destruct (urls_of (renders st) (elements (active st ∖ {[r]}))) as [us|e]; simpl.
  - erewrite cancel_settled; [|simpl; exact Hd|done|done].
    unfold render_close. mred. rewrite Hr.
    destruct (on_close (r_cls obj)) as [[]|e]; simpl.
    + rewrite log_eq. simpl. f_equal. state_eq.
    + f_equal. state_eq.
  - f_equal. state_eq.
Qed.

Ltac mlook :=
  repeat first
    [ rewrite lookup_insert_eq
    | rewrite lookup_insert_ne by (done || congruence) ].

Definition handle_cbs (r s : nat) : list cb_entry :=
  [Pair Passthru (Error r s); Pair (CloseRender r s) (CloseRender r s)].

Definition error_core (vb : Z) (obj : render_object) (v : value)
    (r s : nat) : list event :=
  if is_failure v
  then log_events vb (LogError (get_uid (r_render_options obj)) s r v)
  else [].
Arguments error_core : simpl never.

Definition error_events (st : state) (obj : render_object) (v : value)
    (r s : nat) : list event :=
  error_core (verbosity st) obj v r s.

Definition handle_result (v : value) (o : option exn) : value :=
  match o with None => v | Some e => VFailure e end.

Arguments exec : simpl never.

Lemma exec_run fuel d :
  exec (S fuel) (RunCallbacks d) = _runCallbacks (exec fuel) d.
Proof. reflexivity. Qed.

Lemma exec_cancel fuel d :
  exec (S fuel) (Cancel d) = cancel (exec fuel) d.
Proof. reflexivity. Qed.

(** The part of [_runCallbacks] after the call of an entry. *)
Definition after_call (rec : rec_call -> M unit) (d : dref)
    (r : may_raise value) : M unit :=
  update_d d (d_with_running false) ;;
  match r with
  | Raises e =>
      update_d d (d_with_result (VFailure e)) ;;
      rec (RunCallbacks d)
  | Returns (VDeferred inner) =>
      idf <- get_d inner ;;
      if negb (called idf) || is_deferred (result idf) || (0 <? paused idf)
      then
        update_d d (fun x => d_with_paused (S (paused x))
                               (d_with_result (VDeferred inner) x)) ;;
        update_d inner
          (fun x => d_with_callbacks (callbacks x ++ [CONTINUE d]) x)
      else
        set_d inner (d_with_result VNone idf) ;;
        update_d d (d_with_result (result idf)) ;;
        rec (RunCallbacks d)
  | Returns v =>
      update_d d (d_with_result v) ;;
      rec (RunCallbacks d)
  end.

Lemma runCallbacks_pair rec d st df cb eb rest :
  deferreds st !! d = Some df ->
  running df = false -> paused df = 0 ->
  callbacks df = Pair cb eb :: rest ->
  _runCallbacks rec d st =
    (r <- attempt (call rec (if is_failure (result df) then eb else cb)
                        (result df)) ;;
     after_call rec d r)
      (with_deferreds
         (<[d := d_with_running true (d_with_callbacks rest df)]>) st).
Proof.
  intros Hd Hr Hp Hc. unfold _runCallbacks.
  unfold bind at 1. unfold get_d at 1. rewrite Hd, Hr, Hp, Hc. simpl.
  unfold bind at 1. unfold set_d at 1, modify at 1.
  cbv beta iota. reflexivity.
Qed.

Lemma runCallbacks_nil rec d st df :
  deferreds st !! d = Some df ->
  running df = false -> callbacks df = [] ->
  _runCallbacks rec d st = (Ok tt, st).
Proof.
  intros Hd Hr Hc. unfold _runCallbacks. mred. rewrite Hd, Hr, Hc.
  by destruct (0 <? paused df).
Qed.

Lemma runCallbacks_paused rec d st df :
  deferreds st !! d = Some df ->
  0 < paused df ->
  _runCallbacks rec d st = (Ok tt, st).
Proof.
  intros Hd Hp. unfold _runCallbacks. mred. rewrite Hd.
  destruct (running df); [done|].
  destruct (Nat.ltb_spec 0 (paused df)); [done|lia].
Qed.

Lemma runCallbacks_continue rec d st df chainee cf rest :
  deferreds st !! d = Some df ->
  running df = false -> paused df = 0 ->
  callbacks df = CONTINUE chainee :: rest ->
  chainee <> d ->
  deferreds st !! chainee = Some cf ->
  _runCallbacks rec d st =
    (rec (RunCallbacks chainee) ;; rec (RunCallbacks d))
      (with_deferreds
         (<[chainee := d_with_paused (paused cf - 1)
                         (d_with_result (result df) cf)]>)
         (with_deferreds
            (<[d := d_with_result VNone (d_with_callbacks rest df)]>) st)).
Proof.
  intros Hd Hr Hp Hc Hne Hcf. unfold _runCallbacks.
  unfold bind at 1. unfold get_d at 1. rewrite Hd, Hr, Hp, Hc. simpl.
  unfold bind at 1. unfold set_d at 1, modify at 1. cbv beta iota.
  unfold bind at 1. unfold get_d at 1. simpl.
  rewrite lookup_insert_ne by done. rewrite Hcf.
  unfold bind at 1. unfold set_d at 1, modify at 1. cbv beta iota.
  reflexivity.
Qed.

Lemma after_call_plain rec d v st df :
  deferreds st !! d = Some df ->
  is_deferred v = false ->
  after_call rec d (Returns v) st =
    rec (RunCallbacks d)
      (with_deferreds
         (<[d := d_with_result v (d_with_running false df)]>) st).
Proof.
  intros Hd Hv. unfold after_call, update_d. mred. rewrite Hd.
  destruct v; try discriminate; mred; mlook; simpl; f_equal; state_eq;
    by rewrite insert_insert_eq.
Qed.

Lemma after_call_raises rec d e st df :
  deferreds st !! d = Some df ->
  after_call rec d (Raises e) st =
    rec (RunCallbacks d)
      (with_deferreds
         (<[d := d_with_result (VFailure e) (d_with_running false df)]>) st).
Proof.
  intros Hd. unfold after_call, update_d. mred. rewrite Hd.
  mred; mlook; simpl; f_equal; state_eq; by rewrite insert_insert_eq.
Qed.

Lemma bind_ok {A B} (m : M A) (k : A -> M B) st a st' :
  m st = (Ok a, st') -> bind m k st = k a st'.
Proof. unfold bind. by intros ->. Qed.

Lemma bind_raise {A B} (m : M A) (k : A -> M B) st e st' :
  m st = (Raise e, st') -> bind m k st = (Raise e, st').
Proof. unfold bind. by intros ->. Qed.

Lemma bind_attempt_ok {A B} (m : M A) (k : may_raise A -> M B) st a st' :
  m st = (Ok a, st') -> bind (attempt m) k st = k (Returns a) st'.
Proof. unfold bind, attempt. by intros ->. Qed.

Lemma bind_attempt_raise {A B} (m : M A) (k : may_raise A -> M B) st e st' :
  m st = (Raise e, st') -> bind (attempt m) k st = k (Raises e) st'.
Proof. unfold bind, attempt. by intros ->. Qed.

Lemma startRun_uncalled rec d v st df :
  deferreds st !! d = Some df -> called df = false ->
  _startRunCallbacks rec d v st =
    rec (RunCallbacks d) (with_deferreds (<[d := d_fire v df]>) st).
Proof.
  intros Hd Hc. unfold _startRunCallbacks. mred. by rewrite Hd, Hc.
Qed.

Lemma startRun_called rec d v st df :
  deferreds st !! d = Some df -> called df = true -> suppress df = false ->
  _startRunCallbacks rec d v st = (Raise AlreadyCalledError, st).
Proof.
  intros Hd Hc Hs. unfold _startRunCallbacks. mred. by rewrite Hd, Hc, Hs.
Qed.

Ltac heap_eq :=
  apply map_eq; intros ?; rewrite !lookup_insert;
  repeat case_decide; subst; try congruence; try reflexivity.

Ltac look := simpl; mlook; first [reflexivity | eassumption].

Lemma error_call_eq rec v r s st obj :
  renders st !! r = Some obj ->
  call rec (if is_failure v then Error r s else Passthru) v st =
    (Ok v, emits (error_events st obj v r s) st).
Proof.
  intros Hr. unfold error_events, error_core. destruct (is_failure v); simpl.
  - unfold _error. mred. by rewrite Hr, log_eq.
  - unfold ret. by rewrite emits_nil.
Qed.

Definition raised_or {A} (a : A) (o : option exn) : may_raise A :=
  match o with None => Returns a | Some e => Raises e end.

Lemma bind_attempt_res {A B} (m : M A) (k : may_raise A -> M B) st a o st' :
  m st = (res_of a o, st') -> bind (attempt m) k st = k (raised_or a o) st'.
Proof. unfold bind, attempt. intros ->. by destruct o. Qed.

Lemma after_call_res rec d v o st df :
  deferreds st !! d = Some df ->
  is_deferred v = false ->
  after_call rec d (raised_or v o) st =
    rec (RunCallbacks d)
      (with_deferreds
         (<[d := d_with_result (handle_result v o) (d_with_running false df)]>)
         st).
Proof.
  intros. destruct o; simpl.
  - by apply after_call_raises.
  - by apply after_call_plain.
Qed.

Lemma fire_pool_d fuel j v r s st obj hd rdf :
  deferreds st !! DPool j = Some hd ->
  called hd = false -> callbacks hd = handle_cbs r s ->
  running hd = false -> paused hd = 0 ->
  renders st !! r = Some obj -> r_deferred obj = DRender r ->
  deferreds st !! DRender r = Some rdf ->
  called rdf = true -> is_deferred (result rdf) = false ->
  r ∈ active st ->
  is_deferred v = false ->
  _startRunCallbacks (exec (S (S (S fuel)))) (DPool j) v st =
    (Ok tt,
     with_deferreds
       (<[DPool j := settled (handle_result v (close_summary st obj r s).2) hd]>)
       (with_active (fun a => a ∖ {[r]})
          (emits (error_events st obj v r s ++ (close_summary st obj r s).1) st))).
Proof.
  intros Hpd Hc Hcb Hrun Hp Hr Hrd Hd Hdc Hdr Hact Hv.
  erewrite startRun_uncalled by eassumption.
  rewrite exec_run.
  erewrite runCallbacks_pair; [|look|done|done|simpl; rewrite Hcb; reflexivity].
  simpl result.
  erewrite bind_attempt_ok by (apply error_call_eq with (obj := obj); exact Hr).
  erewrite after_call_plain; [|look|done].
  rewrite exec_run.
  erewrite runCallbacks_pair; [|look|done|done|simpl; reflexivity].
  simpl result.
  replace (if is_failure v then CloseRender r s else CloseRender r s)
    with (CloseRender r s) by (by destruct (is_failure v)).
  simpl call.
  erewrite bind_attempt_res;
    [|eapply (close_render_eq _ v r s _ obj rdf);
      [exact Hr|rewrite Hrd; look|done|done|done]].
  erewrite after_call_res; [|look|done].
  rewrite exec_run.
  erewrite runCallbacks_nil; [|look|done|done].
  f_equal. state_eq. rewrite !insert_insert_eq. reflexivity.
Qed.

Lemma close_summary_with_deferreds f st obj r s :
  close_summary (with_deferreds f st) obj r s = close_summary st obj r s.
Proof. reflexivity. Qed.

Lemma close_summary_emits l st obj r s :
  close_summary (emits l st) obj r s = close_summary st obj r s.
Proof. reflexivity. Qed.

Lemma error_events_with_deferreds f st obj v r s :
  error_events (with_deferreds f st) obj v r s = error_events st obj v r s.
Proof. reflexivity. Qed.

Lemma error_events_emits l st obj v r s :
  error_events (emits l st) obj v r s = error_events st obj v r s.
Proof. reflexivity. Qed.

Ltac summ :=
  rewrite ?close_summary_with_deferreds, ?close_summary_emits,
    ?error_events_with_deferreds, ?error_events_emits.

Lemma chain_call_eq rec d v :
  is_deferred v = false ->
  call rec (if is_failure v then DErrback d else DCallback d) v =
    (_startRunCallbacks rec d v ;; ret VNone).
Proof. intros Hv. destruct v; try discriminate; reflexivity. Qed.

Definition chain_pair_of (d : dref) : cb_entry :=
  Pair (DCallback d) (DErrback d).

Definition chain_pair (j : nat) : cb_entry := chain_pair_of (DPool j).

(** The state after the future of render [r] has fired with [v] and the
    handle [DPool j] has run [_error] and [_close_render]. *)
Definition job_done (j r s : nat) (obj : render_object) (v : value)
    (hd rdf : deferred) (rest : list cb_entry) (st : state) : state :=
  with_deferreds
    (<[DRender r := settled_with VNone rest rdf]>)
    (with_deferreds
       (<[DPool j := settled (handle_result v (close_summary st obj r s).2) hd]>)
       (with_active (fun a => a ∖ {[r]})
          (emits (error_events st obj v r s ++ (close_summary st obj r s).1)
             st))).

Lemma fire_render fuel j v r s st obj hd rdf rest :
  deferreds st !! DPool j = Some hd ->
  called hd = false -> callbacks hd = handle_cbs r s ->
  running hd = false -> paused hd = 0 ->
  renders st !! r = Some obj -> r_deferred obj = DRender r ->
  deferreds st !! DRender r = Some rdf ->
  called rdf = false -> callbacks rdf = chain_pair j :: rest ->
  running rdf = false -> paused rdf = 0 ->
  r ∈ active st ->
  is_deferred v = false ->
  _startRunCallbacks (exec (S (S (S (S fuel))))) (DRender r) v st =
    exec (S (S (S fuel))) (RunCallbacks (DRender r))
      (job_done j r s obj v hd rdf rest st).
Proof.
  intros Hpd Hc Hcb Hrun Hp Hr Hrd Hd Hdc Hdcb Hdrun Hdp Hact Hv.
  erewrite startRun_uncalled by eassumption.
  rewrite exec_run.
  erewrite runCallbacks_pair; [|look|done|done|simpl; rewrite Hdcb; reflexivity].
  simpl result. rewrite chain_call_eq by done.
  erewrite bind_attempt_ok.
  2:{ erewrite bind_ok; [reflexivity|].
      eapply (fire_pool_d fuel j v r s _ obj hd). all: try done. all: try look. }
  erewrite after_call_plain; [|look|done].
  summ.
  f_equal. unfold job_done. state_eq. heap_eq.
Qed.

(** *** [_start_render] *)

Definition new_render_obj (a : slot_args) (st : state) : render_object :=
  {| r_cls := sa_rendercls a;
     r_network_manager := next_network_manager st;
     r_splash_proxy_factory := sa_splash_proxy_factory a;
     r_render_options := sa_render_options a;
     r_verbosity := verbosity st;
     r_deferred := DRender (next_render st) |}.

(** Up to and including [self.active.add(render)]. *)
Definition start_pre (s : nat) (a : slot_args) (st : state) : state :=
  let r := next_render st in
  let nm := next_network_manager st in
  with_active (fun act => act ∪ {[r]})
    (with_renders (<[r := new_render_obj a st]>)
       (with_deferreds (<[DRender r := new_deferred false]>)
          (bump CRender
             (bump CNetworkManager
                (emits (log_events (verbosity st) (LogInitializing s)
                        ++ [EDequeue s (sa_pool_d a); ENetworkManager nm;
                            EConstruct r nm (sa_splash_proxy_factory a)
                              (sa_render_options a) (verbosity st);
                            EActiveAdd s r]) st))))).

Definition start_urls (a : slot_args) (st : state)
    : may_raise (list url_value) :=
  urls_of (<[next_render st := new_render_obj a st]> (renders st))
    (elements (active st ∪ {[next_render st]})).

(** The rest of [_start_render], from [debug_update] on. *)
Definition start_body (rec : rec_call -> M unit) (a : slot_args)
    (s render : nat) : M value :=
  debug_update ;;
  obj <- get_render render ;;
  chainDeferred rec (r_deferred obj) (sa_pool_d a) ;;
  addErrback rec (sa_pool_d a) (Error render s) ;;
  addBoth rec (sa_pool_d a) (CloseRender render s) ;;
  log (LogStarting (get_uid (sa_render_options a)) s) ;;
  try_except (render_start rec render (sa_kwargs a))
    (fun e => errback rec (r_deferred obj) e ;; raise e) ;;
  log (LogWorking (get_uid (sa_render_options a)) s) ;;
  ret (VDeferred (r_deferred obj)).

Lemma start_render_eq rec a s st :
  _start_render rec (VArgs a) s st =
    start_body rec a s (next_render st) (start_pre s a st).
Proof.
  unfold _start_render.
  erewrite bind_ok by apply log_eq.
  unfold network_manager_factory, construct. mred.
  unfold start_body. unfold bind at 1.
  match goal with |- context [debug_update ?x] =>
    replace x with (start_pre s a st) by (unfold start_pre, new_render_obj; state_eq)
  end.
  reflexivity.
Qed.

Lemma start_render_bad_url rec a s st e :
  start_urls a st = Raises e ->
  _start_render rec (VArgs a) s st = (Raise e, start_pre s a st).
Proof.
  intros Hu. rewrite start_render_eq. unfold start_body.
  erewrite bind_raise; [reflexivity|].
  rewrite debug_update_eq. simpl. unfold start_urls in Hu. by rewrite Hu.
Qed.

(** After the three callbacks are chained and [start] has been called. *)
Definition started (s : nat) (a : slot_args) (us : list url_value)
    (hd : deferred) (st : state) : state :=
  let r := next_render st in
  with_deferreds
    (fun h => <[sa_pool_d a := d_with_callbacks (handle_cbs r s) hd]>
                (<[DRender r := d_with_callbacks [chain_pair_of (sa_pool_d a)]
                                  (new_deferred false)]> h))
    (emits (debug_events (debug_key st) (redis_up st) (clock st) us
            ++ log_events (verbosity st)
                 (LogStarting (get_uid (sa_render_options a)) s)
            ++ [EStart r (sa_kwargs a)])
       (start_pre s a st)).

Lemma addCallbacks_uncalled rec d cb eb st df :
  deferreds st !! d = Some df -> called df = false ->
  addCallbacks rec d cb eb st =
    (Ok tt,
     with_deferreds
       (<[d := d_with_callbacks (callbacks df ++ [Pair cb eb]) df]>) st).
Proof.
  intros Hd Hc. unfold addCallbacks. mred. by rewrite Hd, Hc.
Qed.

Lemma addCallbacks_called rec d cb eb st df :
  deferreds st !! d = Some df -> called df = true ->
  addCallbacks rec d cb eb st =
    rec (RunCallbacks d)
      (with_deferreds
         (<[d := d_with_callbacks (callbacks df ++ [Pair cb eb]) df]>) st).
Proof.
  intros Hd Hc. unfold addCallbacks. mred. by rewrite Hd, Hc.
Qed.

(** What [start] does after it has been entered. *)
Definition start_action (rec : rec_call -> M unit) (b : start_behaviour)
    (rd : dref) : M unit :=
  match b with
  | StartAsync => ret tt
  | StartSync (Succeeds p) => callback rec rd (VPayload p)
  | StartSync (Fails e) => errback rec rd e
  | StartRaises e => raise e
  end.

Definition start_tail (rec : rec_call -> M unit) (a : slot_args)
    (s r : nat) : M value :=
  try_except (start_action rec (on_start (sa_rendercls a)) (DRender r))
    (fun e => errback rec (DRender r) e ;; raise e) ;;
  log (LogWorking (get_uid (sa_render_options a)) s) ;;
  ret (VDeferred (DRender r)).

Lemma bind_cong {A B} (m m' : M A) (k : A -> M B) st st' :
  m st = m' st' -> bind m k st = bind m' k st'.
Proof. unfold bind. by intros ->. Qed.

Lemma try_except_cong {A} (m m' : M A) (h : exn -> M A) st st' :
  m st = m' st' -> try_except m h st = try_except m' h st'.
Proof. unfold try_except. by intros ->. Qed.

Lemma render_start_eq rec r kw st obj :
  renders st !! r = Some obj ->
  render_start rec r kw st =
    start_action rec (on_start (r_cls obj)) (r_deferred obj)
      (emit (EStart r kw) st).
Proof.
  intros Hr. unfold render_start. mred. rewrite Hr. simpl.
  unfold start_action. by destruct (on_start (r_cls obj)) as [|[]|].
Qed.

Lemma start_body_eq rec a s st us hd j :
  sa_pool_d a = DPool j ->
  deferreds st !! DPool j = Some hd ->
  called hd = false -> callbacks hd = [] ->
  start_urls a st = Returns us ->
  start_body rec a s (next_render st) (start_pre s a st) =
    start_tail rec a s (next_render st) (started s a us hd st).
Proof.
  intros Hj Hhd Hc Hcb Hu. unfold start_body.
  erewrite bind_ok.
  2:{ rewrite debug_update_eq. simpl. unfold start_urls in Hu.
      rewrite Hu. reflexivity. }
  unfold bind at 1. unfold get_render at 1. simpl. rewrite lookup_insert_eq.
  simpl.
  unfold chainDeferred.
  erewrite bind_ok; [|eapply addCallbacks_uncalled; [look|done]].
  unfold addErrback.
  erewrite bind_ok; [|eapply addCallbacks_uncalled; [rewrite Hj; look|done]].
  unfold addBoth.
  erewrite bind_ok; [|eapply addCallbacks_uncalled; [rewrite Hj; look|done]].
  erewrite bind_ok by apply log_eq.
  unfold start_tail.
  erewrite bind_cong;
    [|apply try_except_cong; eapply render_start_eq; look].
  simpl.
  match goal with |- ?f ?x = ?g ?y => replace x with y; [reflexivity|] end.
  unfold started. rewrite Hj, Hcb. state_eq. heap_eq.
Qed.

Lemma start_tail_async rec a s r st :
  on_start (sa_rendercls a) = StartAsync ->
  start_tail rec a s r st =
    (Ok (VDeferred (DRender r)),
     emits (log_events (verbosity st)
              (LogWorking (get_uid (sa_render_options a)) s)) st).
Proof.
  intros Hs. unfold start_tail. rewrite Hs. simpl.
  unfold try_except, ret, bind. by rewrite log_eq.
Qed.

Lemma fire_render_done fuel j v r s st obj hd rdf :
  deferreds st !! DPool j = Some hd ->
  called hd = false -> callbacks hd = handle_cbs r s ->
  running hd = false -> paused hd = 0 ->
  renders st !! r = Some obj -> r_deferred obj = DRender r ->
  deferreds st !! DRender r = Some rdf ->
  called rdf = false -> callbacks rdf = [chain_pair j] ->
  running rdf = false -> paused rdf = 0 ->
  r ∈ active st ->
  is_deferred v = false ->
  _startRunCallbacks (exec (S (S (S (S fuel))))) (DRender r) v st =
    (Ok tt, job_done j r s obj v hd rdf [] st).
Proof.
  intros. erewrite fire_render by eassumption.
  rewrite exec_run. erewrite runCallbacks_nil; [done|unfold job_done; look|done|done].
Qed.

Lemma start_tail_sync fuel a s r st o j obj hd rdf :
  on_start (sa_rendercls a) = StartSync o ->
  deferreds st !! DPool j = Some hd ->
  called hd = false -> callbacks hd = handle_cbs r s ->
  running hd = false -> paused hd = 0 ->
  renders st !! r = Some obj -> r_deferred obj = DRender r ->
  deferreds st !! DRender r = Some rdf ->
  called rdf = false -> callbacks rdf = [chain_pair j] ->
  running rdf = false -> paused rdf = 0 ->
  r ∈ active st ->
  start_tail (exec (S (S (S (S fuel))))) a s r st =
    (Ok (VDeferred (DRender r)),
     emits (log_events (verbosity st)
              (LogWorking (get_uid (sa_render_options a)) s))
       (job_done j r s obj (value_of_outcome o) hd rdf [] st)).
Proof.
  intros Hs **. unfold start_tail. rewrite Hs.
  assert (start_action (exec (S (S (S (S fuel))))) (StartSync o) (DRender r) st
          = (Ok tt, job_done j r s obj (value_of_outcome o) hd rdf [] st)) as E.
  { destruct o; simpl; unfold callback, errback; simpl;
      eapply fire_render_done; eauto. }
  unfold bind at 1. unfold try_except. rewrite E.
  unfold bind, ret. by rewrite log_eq.
Qed.

Lemma start_tail_raises fuel a s r st e j obj hd rdf :
  on_start (sa_rendercls a) = StartRaises e ->
  deferreds st !! DPool j = Some hd ->
  called hd = false -> callbacks hd = handle_cbs r s ->
  running hd = false -> paused hd = 0 ->
  renders st !! r = Some obj -> r_deferred obj = DRender r ->
  deferreds st !! DRender r = Some rdf ->
  called rdf = false -> callbacks rdf = [chain_pair j] ->
  running rdf = false -> paused rdf = 0 ->
  r ∈ active st ->
  start_tail (exec (S (S (S (S fuel))))) a s r st =
    (Raise e, job_done j r s obj (VFailure e) hd rdf [] st).
Proof.
  intros Hs **. unfold start_tail. rewrite Hs. simpl.
  unfold bind at 1. unfold try_except, raise at 1.
  unfold bind at 1. unfold errback.
  erewrite fire_render_done by eauto. reflexivity.
Qed.

(** *** A slot's deferred runs [_start_render] *)

Definition hd_armed (r s : nat) (hd : deferred) : deferred :=
  d_with_callbacks (handle_cbs r s) hd.

Definition rd_armed_of (d : dref) : deferred :=
  d_with_callbacks [chain_pair_of d] (new_deferred false).

Definition rd_armed (j : nat) : deferred := rd_armed_of (DPool j).

(** The state when [_start_render] is done with a job that did not stay
    running: its future fired from within [start]. *)
Definition finished (s : nat) (a : slot_args) (us : list url_value)
    (hd : deferred) (j : nat) (v : value) (st : state) : state :=
  job_done j (next_render st) s (new_render_obj a st) v
    (hd_armed (next_render st) s hd) (rd_armed j) []
    (started s a us hd st).

Definition working (s : nat) (a : slot_args) (st : state) : list event :=
  log_events (verbosity st) (LogWorking (get_uid (sa_render_options a)) s).

(** [None]: the job runs on and the slot's deferred must wait for it;
    [Some w]: the slot's deferred goes on with result [w]. *)
Definition start_summary (s : nat) (a : slot_args) (hd : deferred)
    (j : nat) (st : state) : option value * state :=
  match start_urls a st with
  | Raises e => (Some (VFailure e), start_pre s a st)
  | Returns us =>
      match on_start (sa_rendercls a) with
      | StartAsync => (None, emits (working s a st) (started s a us hd st))
      | StartSync o =>
          (Some VNone,
           emits (working s a st)
             (finished s a us hd j (value_of_outcome o) st))
      | StartRaises e =>
          (Some (VFailure e), finished s a us hd j (VFailure e) st)
      end
  end.

Definition start_return (s : nat) (a : slot_args) (st : state)
    : res value :=
  match start_urls a st with
  | Raises e => Raise e
  | Returns us =>
      match on_start (sa_rendercls a) with
      | StartRaises e => Raise e
      | _ => Ok (VDeferred (DRender (next_render st)))
      end
  end.

Lemma active_started s a us hd st :
  active (started s a us hd st) = active st ∪ {[next_render st]}.
Proof. reflexivity. Qed.

Lemma started_facts s a us hd j st :
  sa_pool_d a = DPool j ->
  deferreds (started s a us hd st) !! DPool j
    = Some (hd_armed (next_render st) s hd)
  /\ renders (started s a us hd st) !! next_render st
    = Some (new_render_obj a st)
  /\ deferreds (started s a us hd st) !! DRender (next_render st)
    = Some (rd_armed j)
  /\ next_render st ∈ active (started s a us hd st).
Proof.
  intros Hj. split_and!.
  - unfold started. rewrite Hj. look.
  - unfold started. look.
  - unfold started. rewrite Hj. look.
  - rewrite active_started. apply elem_of_union_r. by apply elem_of_singleton.
Qed.

Lemma start_render_spec fuel a s st hd j :
  sa_pool_d a = DPool j ->
  deferreds st !! DPool j = Some hd ->
  called hd = false -> callbacks hd = [] ->
  running hd = false -> paused hd = 0 ->
  _start_render (exec (S (S (S (S fuel))))) (VArgs a) s st =
    (start_return s a st, (start_summary s a hd j st).2).
Proof.
  intros Hj Hhd Hc Hcb Hrun Hp.
  unfold start_return, start_summary.
  destruct (start_urls a st) as [us|e] eqn:Hu.
  2:{ by apply start_render_bad_url. }
  rewrite start_render_eq. erewrite start_body_eq by eauto.
  destruct (started_facts s a us hd j st Hj) as (F1 & F2 & F3 & F4).
  destruct (on_start (sa_rendercls a)) as [|o|e] eqn:Hs.
  - by rewrite start_tail_async.
  - unfold finished, snd.
    eapply start_tail_sync;
      [exact Hs|exact F1|exact Hc|reflexivity|exact Hrun|exact Hp|exact F2
      |reflexivity|exact F3|reflexivity|reflexivity|reflexivity|reflexivity
      |exact F4].
  - unfold finished, snd.
    eapply start_tail_raises;
      [exact Hs|exact F1|exact Hc|reflexivity|exact Hrun|exact Hp|exact F2
      |reflexivity|exact F3|reflexivity|reflexivity|reflexivity|reflexivity
      |exact F4].
Qed.

(** A state given by its mutable parts; the configuration and the world
    are those of [st]. *)
Definition flat (st : state) (act : gset nat) (w : list dref)
    (p : list slot_args) (h : gmap dref deferred)
    (rs : gmap nat render_object) (ng np nr nn : nat) (tr : list event)
    : state :=
  {| splash_proxy_factory_cls := splash_proxy_factory_cls st;
     js_profiles_path := js_profiles_path st;
     active := act;
     queue_waiting := w; queue_pending := p;
     verbosity := verbosity st; debug_key := debug_key st;
     redis_host := redis_host st; redis_port := redis_port st;
     deferreds := h; renders := rs;
     next_get := ng; next_pool_d := np; next_render := nr;
     next_network_manager := nn;
     redis_up := redis_up st; clock := clock st; trace := tr |}.

Definition same (st : state) : state :=
  flat st (active st) (queue_waiting st) (queue_pending st) (deferreds st)
    (renders st) (next_get st) (next_pool_d st) (next_render st)
    (next_network_manager st) (trace st).

Lemma same_eq st : same st = st.
Proof. by destruct st. Qed.

Section Flat.
Context (st : state) (act : gset nat) (w : list dref) (p : list slot_args)
  (h : gmap dref deferred) (rs : gmap nat render_object)
  (ng np nr nn : nat) (tr : list event).
Local Abbreviation F := (flat st act w p h rs ng np nr nn tr).
Lemma cls_flat : splash_proxy_factory_cls F = splash_proxy_factory_cls st. Proof. reflexivity. Qed.
Lemma js_flat : js_profiles_path F = js_profiles_path st. Proof. reflexivity. Qed.
Lemma active_flat : active F = act. Proof. reflexivity. Qed.
Lemma waiting_flat : queue_waiting F = w. Proof. reflexivity. Qed.
Lemma pending_flat : queue_pending F = p. Proof. reflexivity. Qed.
Lemma verbosity_flat : verbosity F = verbosity st. Proof. reflexivity. Qed.
Lemma debug_key_flat : debug_key F = debug_key st. Proof. reflexivity. Qed.
Lemma redis_host_flat : redis_host F = redis_host st. Proof. reflexivity. Qed.
Lemma redis_port_flat : redis_port F = redis_port st. Proof. reflexivity. Qed.
Lemma deferreds_flat : deferreds F = h. Proof. reflexivity. Qed.
Lemma renders_flat : renders F = rs. Proof. reflexivity. Qed.
Lemma next_get_flat : next_get F = ng. Proof. reflexivity. Qed.
Lemma next_pool_d_flat : next_pool_d F = np. Proof. reflexivity. Qed.
Lemma next_render_flat : next_render F = nr. Proof. reflexivity. Qed.
Lemma next_nm_flat : next_network_manager F = nn. Proof. reflexivity. Qed.
Lemma redis_up_flat : redis_up F = redis_up st. Proof. reflexivity. Qed.
Lemma clock_flat : clock F = clock st. Proof. reflexivity. Qed.
Lemma trace_flat : trace F = tr. Proof. reflexivity. Qed.
Lemma flat_flat act' w' p' h' rs' ng' np' nr' nn' tr' :
  flat F act' w' p' h' rs' ng' np' nr' nn' tr'
  = flat st act' w' p' h' rs' ng' np' nr' nn' tr'.
Proof. reflexivity. Qed.

Lemma with_active_flat f : with_active f F = flat st (f act) w p h rs ng np nr nn tr. Proof. reflexivity. Qed.
Lemma with_waiting_flat l : with_waiting l F = flat st act l p h rs ng np nr nn tr. Proof. reflexivity. Qed.
Lemma with_pending_flat l : with_pending l F = flat st act w l h rs ng np nr nn tr. Proof. reflexivity. Qed.
Lemma with_deferreds_flat f : with_deferreds f F = flat st act w p (f h) rs ng np nr nn tr. Proof. reflexivity. Qed.
Lemma with_renders_flat f : with_renders f F = flat st act w p h (f rs) ng np nr nn tr. Proof. reflexivity. Qed.
Lemma emit_flat e : emit e F = flat st act w p h rs ng np nr nn (tr ++ [e]). Proof. reflexivity. Qed.
Lemma emits_flat l : emits l F = flat st act w p h rs ng np nr nn (tr ++ l). Proof. reflexivity. Qed.
Lemma bump_CGet_flat : bump CGet F = flat st act w p h rs (S ng) np nr nn tr. Proof. reflexivity. Qed.
Lemma bump_CPoolD_flat : bump CPoolD F = flat st act w p h rs ng (S np) nr nn tr. Proof. reflexivity. Qed.
Lemma bump_CRender_flat : bump CRender F = flat st act w p h rs ng np (S nr) nn tr. Proof. reflexivity. Qed.
Lemma bump_CNetworkManager_flat : bump CNetworkManager F = flat st act w p h rs ng np nr (S nn) tr. Proof. reflexivity. Qed.
End Flat.

Create Rewrite HintDb flat.
#[global] Hint Rewrite cls_flat js_flat active_flat waiting_flat pending_flat
  verbosity_flat debug_key_flat redis_host_flat redis_port_flat
  deferreds_flat renders_flat next_get_flat next_pool_d_flat
  next_render_flat next_nm_flat redis_up_flat clock_flat trace_flat
  flat_flat : flat.
#[global] Hint Rewrite with_active_flat with_waiting_flat with_pending_flat with_deferreds_flat with_renders_flat emit_flat emits_flat bump_CGet_flat bump_CPoolD_flat bump_CRender_flat bump_CNetworkManager_flat : flat.

Lemma flat_ext st act w p h rs ng np nr nn tr act' w' p' h' rs' ng' np' nr' nn' tr' :
  act = act' -> w = w' -> p = p' -> h = h' -> rs = rs' ->
  ng = ng' -> np = np' -> nr = nr' -> nn = nn' -> tr = tr' ->
  flat st act w p h rs ng np nr nn tr
  = flat st act' w' p' h' rs' ng' np' nr' nn' tr'.
Proof. by intros -> -> -> -> -> -> -> -> -> ->. Qed.

Ltac same_refl :=
  lazymatch goal with
  | |- ?a = ?b => tryif constr_eq a b then reflexivity else idtac
  end.

(** [flatten st]: write every state built from [st] as a [flat st ...]. *)
Ltac flatten st :=
  rewrite <- ?(same_eq st) at 1; unfold same; autorewrite with flat.

Ltac flat_eq :=
  apply flat_ext;
  [ same_refl | same_refl | same_refl
  | first [progress same_refl | heap_eq]
  | same_refl | same_refl | same_refl | same_refl | same_refl
  | rewrite <- ?app_assoc; try reflexivity ].

Ltac look' := autorewrite with flat; mlook; first [reflexivity | eassumption].

Lemma pair_snd_eq {A} (r : A) (a b : state) : a = b -> (r, a) = (r, b).
Proof. by intros ->. Qed.

Lemma app_state_eq {A} (f : state -> A) (a b : state) : a = b -> f a = f b.
Proof. by intros ->. Qed.

Ltac to_state := first [apply pair_snd_eq | apply app_state_eq].

Lemma after_call_wait rec d inner st df idf :
  deferreds st !! d = Some df -> inner <> d ->
  deferreds st !! inner = Some idf -> called idf = false ->
  after_call rec d (Returns (VDeferred inner)) st =
    (Ok tt,
     with_deferreds
       (fun h =>
          <[inner := d_with_callbacks (callbacks idf ++ [CONTINUE d]) idf]>
            (<[d := d_with_paused (S (paused df))
                      (d_with_result (VDeferred inner)
                         (d_with_running false df))]> h))
       st).
Proof.
  intros Hd Hne Hi Hc. unfold after_call, update_d. mred. rewrite Hd. simpl.
  mlook. rewrite Hi, Hc. simpl. mlook. simpl. mlook. rewrite Hi. simpl.
  mred. to_state. state_eq. heap_eq.
Qed.

Lemma after_call_steal rec d inner st df idf :
  deferreds st !! d = Some df -> inner <> d ->
  deferreds st !! inner = Some idf -> called idf = true ->
  is_deferred (result idf) = false -> paused idf = 0 ->
  after_call rec d (Returns (VDeferred inner)) st =
    rec (RunCallbacks d)
      (with_deferreds
         (fun h =>
            <[d := d_with_result (result idf) (d_with_running false df)]>
              (<[inner := d_with_result VNone idf]> h))
         st).
Proof.
  intros Hd Hne Hi Hc Hr Hp. unfold after_call, update_d. mred. rewrite Hd.
  simpl. mlook. rewrite Hi, Hc, Hr, Hp. simpl. mlook. simpl.
  mred. to_state. state_eq. heap_eq.
Qed.

Lemma run_pair_ok rec d st df cb eb rest v st' :
  deferreds st !! d = Some df ->
  running df = false -> paused df = 0 ->
  callbacks df = Pair cb eb :: rest ->
  call rec (if is_failure (result df) then eb else cb) (result df)
    (with_deferreds (<[d := d_with_running true (d_with_callbacks rest df)]>) st)
    = (Ok v, st') ->
  _runCallbacks rec d st = after_call rec d (Returns v) st'.
Proof.
  intros Hd Hr Hp Hc Hcall.
  erewrite runCallbacks_pair by eassumption.
  by erewrite bind_attempt_ok by exact Hcall.
Qed.

Lemma run_pair_raise rec d st df cb eb rest e st' :
  deferreds st !! d = Some df ->
  running df = false -> paused df = 0 ->
  callbacks df = Pair cb eb :: rest ->
  call rec (if is_failure (result df) then eb else cb) (result df)
    (with_deferreds (<[d := d_with_running true (d_with_callbacks rest df)]>) st)
    = (Raise e, st') ->
  _runCallbacks rec d st = after_call rec d (Raises e) st'.
Proof.
  intros Hd Hr Hp Hc Hcall.
  erewrite runCallbacks_pair by eassumption.
  by erewrite bind_attempt_raise by exact Hcall.
Qed.

Lemma start_summary_async s a hd j st us :
  start_urls a st = Returns us ->
  on_start (sa_rendercls a) = StartAsync ->
  start_summary s a hd j st
    = (None, emits (working s a st) (started s a us hd st))
  /\ start_return s a st = Ok (VDeferred (DRender (next_render st))).
Proof.
  intros Hu Hs. unfold start_summary, start_return. by rewrite Hu, Hs.
Qed.

Lemma start_summary_sync s a hd j st us o :
  start_urls a st = Returns us ->
  on_start (sa_rendercls a) = StartSync o ->
  start_summary s a hd j st
    = (Some VNone,
       emits (working s a st) (finished s a us hd j (value_of_outcome o) st))
  /\ start_return s a st = Ok (VDeferred (DRender (next_render st))).
Proof.
  intros Hu Hs. unfold start_summary, start_return. by rewrite Hu, Hs.
Qed.

Lemma start_summary_raises s a hd j st us e :
  start_urls a st = Returns us ->
  on_start (sa_rendercls a) = StartRaises e ->
  start_summary s a hd j st
    = (Some (VFailure e), finished s a us hd j (VFailure e) st)
  /\ start_return s a st = Raise e.
Proof.
  intros Hu Hs. unfold start_summary, start_return. by rewrite Hu, Hs.
Qed.

Lemma start_summary_bad_url s a hd j st e :
  start_urls a st = Raises e ->
  start_summary s a hd j st = (Some (VFailure e), start_pre s a st)
  /\ start_return s a st = Raise e.
Proof.
  intros Hu. unfold start_summary, start_return. by rewrite Hu.
Qed.

(** *** The job a slot takes *)

Definition mk_obj (a : slot_args) (nm : nat) (v : Z) (r : nat)
    : render_object :=
  {| r_cls := sa_rendercls a; r_network_manager := nm;
     r_splash_proxy_factory := sa_splash_proxy_factory a;
     r_render_options := sa_render_options a;
     r_verbosity := v; r_deferred := DRender r |}.

Section Job.

Context (st : state) (act : gset nat) (w : list dref) (p : list slot_args)
  (h : gmap dref deferred) (rs : gmap nat render_object)
  (ng np nr nn : nat) (tr : list event).
Context (s : nat) (a : slot_args) (j : nat) (Hj : sa_pool_d a = DPool j).

Local Abbreviation F := (flat st act w p h rs ng np nr nn tr).
Local Abbreviation obj := (mk_obj a nn (verbosity st) nr).

Definition job_urls : may_raise (list url_value) :=
  urls_of (<[nr := obj]> rs) (elements (act ∪ {[nr]})).

Definition job_close : list event * option exn :=
  close_core (verbosity st) (debug_key st) (redis_up st) (clock st)
    (<[nr := obj]> rs) (act ∪ {[nr]}) obj nr s.

Definition ev_pre : list event :=
  log_events (verbosity st) (LogInitializing s)
  ++ [EDequeue s (sa_pool_d a); ENetworkManager nn;
      EConstruct nr nn (sa_splash_proxy_factory a) (sa_render_options a)
        (verbosity st);
      EActiveAdd s nr].

Definition ev_started (us : list url_value) : list event :=
  ev_pre
  ++ debug_events (debug_key st) (redis_up st) (clock st) us
  ++ log_events (verbosity st)
       (LogStarting (get_uid (sa_render_options a)) s)
  ++ [EStart nr (sa_kwargs a)].

Definition ev_working : list event :=
  log_events (verbosity st) (LogWorking (get_uid (sa_render_options a)) s).

Definition ev_finished (us : list url_value) (v : value) : list event :=
  ev_started us ++ error_core (verbosity st) obj v nr s ++ job_close.1.

Lemma start_urls_flat : start_urls a F = job_urls.
Proof. reflexivity. Qed.

Lemma start_pre_flat :
  start_pre s a F =
    flat st (act ∪ {[nr]}) w p (<[DRender nr := new_deferred false]> h)
      (<[nr := obj]> rs) ng np (S nr) (S nn) (tr ++ ev_pre).
Proof. reflexivity. Qed.

Lemma started_flat us hd :
  started s a us hd F =
    flat st (act ∪ {[nr]}) w p
      (<[sa_pool_d a := hd_armed nr s hd]>
         (<[DRender nr := rd_armed_of (sa_pool_d a)]>
            (<[DRender nr := new_deferred false]> h)))
      (<[nr := obj]> rs) ng np (S nr) (S nn) (tr ++ ev_started us).
Proof.
  unfold started. rewrite start_pre_flat. autorewrite with flat.
  flat_eq.
Qed.

Lemma working_flat : working s a F = ev_working.
Proof. reflexivity. Qed.

Definition heap_started (hd : deferred) : gmap dref deferred :=
  <[DPool j := hd_armed nr s hd]> (<[DRender nr := rd_armed j]> h).

Definition heap_finished (hd : deferred) (v : value) : gmap dref deferred :=
  <[DRender nr := settled_with VNone [] (rd_armed j)]>
    (<[DPool j := settled (handle_result v job_close.2) (hd_armed nr s hd)]>
       h).

Lemma started_flat' us hd :
  started s a us hd F =
    flat st (act ∪ {[nr]}) w p (heap_started hd)
      (<[nr := obj]> rs) ng np (S nr) (S nn) (tr ++ ev_started us).
Proof.
  rewrite started_flat, Hj. unfold heap_started. flat_eq.
Qed.

Lemma finished_flat us hd v :
  finished s a us hd j v F =
    flat st ((act ∪ {[nr]}) ∖ {[nr]}) w p (heap_finished hd v)
      (<[nr := obj]> rs) ng np (S nr) (S nn) (tr ++ ev_finished us v).
Proof.
  unfold finished, job_done. rewrite started_flat'.
  unfold close_summary, error_events, new_render_obj.
  autorewrite with flat. unfold heap_started, heap_finished. flat_eq.
Qed.

(** [_start_render] on the job, from a state in flat form. *)

Context (hd : deferred).
Context (Hhd : h !! DPool j = Some hd) (Hc : called hd = false)
  (Hhcb : callbacks hd = []) (Hhrun : running hd = false)
  (Hhp : paused hd = 0).

Lemma start_render_flat fuel :
  _start_render (exec (S (S (S (S fuel))))) (VArgs a) s F =
    (start_return s a F, (start_summary s a hd j F).2).
Proof using Hj Hhd Hc Hhcb Hhrun Hhp. by apply start_render_spec. Qed.

Lemma start_render_async fuel us :
  job_urls = Returns us ->
  on_start (sa_rendercls a) = StartAsync ->
  _start_render (exec (S (S (S (S fuel))))) (VArgs a) s F =
    (Ok (VDeferred (DRender nr)),
     flat st (act ∪ {[nr]}) w p (heap_started hd)
       (<[nr := obj]> rs) ng np (S nr) (S nn)
       (tr ++ ev_started us ++ ev_working)).
Proof using Hj Hhd Hc Hhcb Hhrun Hhp.
  intros Hu Hs.
  destruct (start_summary_async s a hd j F us Hu Hs) as [E1 E2].
  rewrite start_render_flat, E1, E2. cbv [snd].
  rewrite started_flat', working_flat. autorewrite with flat.
  to_state. flat_eq.
Qed.

Lemma start_render_sync fuel us o :
  job_urls = Returns us ->
  on_start (sa_rendercls a) = StartSync o ->
  _start_render (exec (S (S (S (S fuel))))) (VArgs a) s F =
    (Ok (VDeferred (DRender nr)),
     flat st ((act ∪ {[nr]}) ∖ {[nr]}) w p
       (heap_finished hd (value_of_outcome o))
       (<[nr := obj]> rs) ng np (S nr) (S nn)
       (tr ++ ev_finished us (value_of_outcome o) ++ ev_working)).
Proof using Hj Hhd Hc Hhcb Hhrun Hhp.
  intros Hu Hs.
  destruct (start_summary_sync s a hd j F us o Hu Hs) as [E1 E2].
  rewrite start_render_flat, E1, E2. cbv [snd].
  rewrite finished_flat, working_flat. autorewrite with flat.
  to_state. flat_eq.
Qed.

Lemma start_render_raises fuel us e :
  job_urls = Returns us ->
  on_start (sa_rendercls a) = StartRaises e ->
  _start_render (exec (S (S (S (S fuel))))) (VArgs a) s F =
    (Raise e,
     flat st ((act ∪ {[nr]}) ∖ {[nr]}) w p
       (heap_finished hd (VFailure e))
       (<[nr := obj]> rs) ng np (S nr) (S nn)
       (tr ++ ev_finished us (VFailure e))).
Proof using Hj Hhd Hc Hhcb Hhrun Hhp.
  intros Hu Hs.
  destruct (start_summary_raises s a hd j F us e Hu Hs) as [E1 E2].
  rewrite start_render_flat, E1, E2. cbv [snd].
  by rewrite finished_flat.
Qed.

Lemma start_render_stuck fuel e :
  job_urls = Raises e ->
  _start_render (exec (S (S (S (S fuel))))) (VArgs a) s F =
    (Raise e,
     flat st (act ∪ {[nr]}) w p (<[DRender nr := new_deferred false]> h)
       (<[nr := obj]> rs) ng np (S nr) (S nn) (tr ++ ev_pre)).
Proof using Hj Hhd Hc Hhcb Hhrun Hhp.
  intros Hu.
  destruct (start_summary_bad_url s a hd j F e Hu) as [E1 E2].
  by rewrite start_render_flat, E1, E2.
Qed.

End Job.

(** *** A slot's deferred runs [_start_render] *)

Definition d_parked (r : nat) (rest : list cb_entry) (df : deferred)
    : deferred :=
  {| called := called df; result := VDeferred (DRender r); callbacks := rest;
     paused := S (paused df); running := false; suppress := suppress df;
     canceller := canceller df |}.

Definition d_resumed (w : value) (rest : list cb_entry) (df : deferred)
    : deferred :=
  {| called := called df; result := w; callbacks := rest;
     paused := paused df; running := false; suppress := suppress df;
     canceller := canceller df |}.

Definition rd_waited (j k : nat) : deferred :=
  d_with_callbacks [chain_pair j; CONTINUE (DGet k)] (new_deferred false).

Lemma call_start_render rec s v :
  call rec (StartRender s) v = _start_render rec v s.
Proof. reflexivity. Qed.

Ltac look2 :=
  autorewrite with flat; unfold heap_started, heap_finished; mlook;
  first [reflexivity | eassumption].

Section Slot.

Context (st : state) (act : gset nat) (w : list dref) (p : list slot_args)
  (h : gmap dref deferred) (rs : gmap nat render_object)
  (ng np nr nn : nat) (tr : list event).
Context (s : nat) (a : slot_args) (j : nat) (Hj : sa_pool_d a = DPool j).
Context (k : nat) (df hd : deferred) (rest : list cb_entry).
Context (Hd : h !! DGet k = Some df) (Hrun : running df = false)
  (Hp : paused df = 0)
  (Hcb : callbacks df = Pair (StartRender s) Passthru :: rest)
  (Hres : result df = VArgs a).
Context (Hhd : h !! DPool j = Some hd) (Hc : called hd = false)
  (Hhcb : callbacks hd = []) (Hhrun : running hd = false)
  (Hhp : paused hd = 0).

Local Abbreviation F := (flat st act w p h rs ng np nr nn tr).
Local Abbreviation obj := (mk_obj a nn (verbosity st) nr).
Local Abbreviation h1 :=
  (<[DGet k := d_with_running true (d_with_callbacks rest df)]> h).

Lemma Hhd1 : h1 !! DPool j = Some hd.
Proof using Hhd. by rewrite lookup_insert_ne. Qed.

Lemma run_start_async fuel us :
  job_urls st act rs nr nn a = Returns us ->
  on_start (sa_rendercls a) = StartAsync ->
  exec (S (S (S (S (S fuel))))) (RunCallbacks (DGet k)) F =
    (Ok tt,
     flat st (act ∪ {[nr]}) w p
       (<[DRender nr := rd_waited j k]>
          (<[DGet k := d_parked nr rest df]> (heap_started h nr s j hd)))
       (<[nr := obj]> rs) ng np (S nr) (S nn)
       (tr ++ ev_started st nr nn s a us ++ ev_working st s a)).
Proof using All.
  intros Hu Hs. rewrite exec_run.
  erewrite run_pair_ok; [|exact Hd|exact Hrun|exact Hp|exact Hcb|].
  2:{ rewrite Hres, with_deferreds_flat. cbv [is_failure].
      rewrite call_start_render.
      apply (start_render_async st act w p h1 rs ng np nr nn tr s a j Hj hd
               Hhd1 Hc Hhcb Hhrun Hhp fuel us Hu Hs). }
  erewrite after_call_wait with (idf := rd_armed j);
    [|look2|done|look2|reflexivity].
  autorewrite with flat. to_state. unfold heap_started. flat_eq.
Qed.

Lemma run_start_sync fuel us o :
  job_urls st act rs nr nn a = Returns us ->
  on_start (sa_rendercls a) = StartSync o ->
  exec (S (S (S (S (S fuel))))) (RunCallbacks (DGet k)) F =
    exec (S (S (S (S fuel)))) (RunCallbacks (DGet k))
      (flat st ((act ∪ {[nr]}) ∖ {[nr]}) w p
         (<[DGet k := d_resumed VNone rest df]>
            (heap_finished st act h rs nr nn s a j hd (value_of_outcome o)))
         (<[nr := obj]> rs) ng np (S nr) (S nn)
         (tr ++ ev_finished st act rs nr nn s a us (value_of_outcome o)
             ++ ev_working st s a)).
Proof using All.
  intros Hu Hs. rewrite exec_run.
  erewrite run_pair_ok; [|exact Hd|exact Hrun|exact Hp|exact Hcb|].
  2:{ rewrite Hres, with_deferreds_flat. cbv [is_failure].
      rewrite call_start_render.
      apply (start_render_sync st act w p h1 rs ng np nr nn tr s a j Hj hd
               Hhd1 Hc Hhcb Hhrun Hhp fuel us o Hu Hs). }
  erewrite after_call_steal with (idf := settled_with VNone [] (rd_armed j));
    [|look2|done|look2|reflexivity..].
  autorewrite with flat. to_state. unfold heap_finished. flat_eq.
Qed.

Lemma run_start_raises fuel us e :
  job_urls st act rs nr nn a = Returns us ->
  on_start (sa_rendercls a) = StartRaises e ->
  exec (S (S (S (S (S fuel))))) (RunCallbacks (DGet k)) F =
    exec (S (S (S (S fuel)))) (RunCallbacks (DGet k))
      (flat st ((act ∪ {[nr]}) ∖ {[nr]}) w p
         (<[DGet k := d_resumed (VFailure e) rest df]>
            (heap_finished st act h rs nr nn s a j hd (VFailure e)))
         (<[nr := obj]> rs) ng np (S nr) (S nn)
         (tr ++ ev_finished st act rs nr nn s a us (VFailure e))).
Proof using All.
  intros Hu Hs. rewrite exec_run.
  erewrite run_pair_raise; [|exact Hd|exact Hrun|exact Hp|exact Hcb|].
  2:{ rewrite Hres, with_deferreds_flat. cbv [is_failure].
      rewrite call_start_render.
      apply (start_render_raises st act w p h1 rs ng np nr nn tr s a j Hj hd
               Hhd1 Hc Hhcb Hhrun Hhp fuel us e Hu Hs). }
  erewrite after_call_raises by look2.
  autorewrite with flat. to_state. unfold heap_finished. flat_eq.
Qed.

Lemma run_start_stuck fuel e :
  job_urls st act rs nr nn a = Raises e ->
  exec (S (S (S (S (S fuel))))) (RunCallbacks (DGet k)) F =
    exec (S (S (S (S fuel)))) (RunCallbacks (DGet k))
      (flat st (act ∪ {[nr]}) w p
         (<[DGet k := d_resumed (VFailure e) rest df]>
            (<[DRender nr := new_deferred false]> h))
         (<[nr := obj]> rs) ng np (S nr) (S nn)
         (tr ++ ev_pre st nr nn s a)).
Proof using All.
  intros Hu. rewrite exec_run.
  erewrite run_pair_raise; [|exact Hd|exact Hrun|exact Hp|exact Hcb|].
  2:{ rewrite Hres, with_deferreds_flat. cbv [is_failure].
      rewrite call_start_render.
      apply (start_render_stuck st act w p h1 rs ng np nr nn tr s a j Hj hd
               Hhd1 Hc Hhcb Hhrun Hhp fuel e Hu). }
  erewrite after_call_raises by look2.
  autorewrite with flat. to_state. flat_eq.
Qed.

End Slot.

(** ** The shape of a pool between two inputs *)

(** What a slot is doing: waiting on the queue with the deferred of its
    [k]-th [get], running render [r] that the deferred of its [get] waits
    for, or in the middle of a callback. *)
Inductive phase :=
| Waiting (k : nat)
| Running (k r : nat)
| Transit.

Definition wait_pair (s : nat) : cb_entry :=
  Pair (WaitForRender s) (WaitForRender s).

Definition waiter_cbs (s : nat) : list cb_entry :=
  [Pair (StartRender s) Passthru; wait_pair s].

Record is_waiter (s : nat) (df : deferred) : Prop := {
  w_called : called df = false;
  w_cbs : callbacks df = waiter_cbs s;
  w_running : running df = false;
  w_paused : paused df = 0;
}.

Record is_parked (s : nat) (df : deferred) : Prop := {
  p_cbs : callbacks df = [wait_pair s];
  p_running : running df = false;
  p_paused : paused df = 1;
}.

Record is_future (r k : nat) (df : deferred) : Prop := {
  f_called : called df = false;
  f_cbs : callbacks df = [chain_pair r; CONTINUE (DGet k)];
  f_running : running df = false;
  f_paused : paused df = 0;
  f_suppress : suppress df = false;
}.

Record is_handle (r s : nat) (df : deferred) : Prop := {
  h_called : called df = false;
  h_cbs : callbacks df = handle_cbs r s;
  h_running : running df = false;
  h_paused : paused df = 0;
}.

(** A future nothing waits for: settled, or never touched. *)
Definition is_spent (df : deferred) : Prop :=
  (called df = true /\ suppress df = false)
  \/ df = new_deferred false.

Definition key_of (q : phase) : option nat :=
  match q with
  | Waiting k | Running k _ => Some k
  | Transit => None
  end.

Definition slot_ok (act : gset nat) (w : list dref)
    (h : gmap dref deferred) (rs : gmap nat render_object) (ng nr : nat)
    (s : nat) (q : phase) : Prop :=
  match q with
  | Transit => True
  | Waiting k =>
      k < ng /\ DGet k ∈ w
      /\ exists df, h !! DGet k = Some df /\ is_waiter s df
  | Running k r =>
      k < ng /\ r < nr /\ r ∈ act
      /\ (exists df, h !! DGet k = Some df /\ is_parked s df)
      /\ (exists df, h !! DRender r = Some df /\ is_future r k df)
      /\ (exists df, h !! DPool r = Some df /\ is_handle r s df)
      /\ (exists obj, rs !! r = Some obj /\ r_deferred obj = DRender r)
  end.

(** The pool_d's taken off the queue so far, in order. *)
Definition dequeued (tr : list event) : list dref :=
  omap (fun e => match e with EDequeue _ d => Some d | _ => None end) tr.

(** The renders whose [start] was called, in order. *)
Definition starts (tr : list event) : list nat :=
  omap (fun e => match e with EStart r _ => Some r | _ => None end) tr.

(** The shape of the pool, over the parts of the state that change:
    [ph] tells what each slot is doing.  The [j]-th job submitted has the
    handle [DPool j] and becomes render [j]; the jobs still in the queue
    are the last ones submitted. *)
Record Shape (ph : list phase) (act : gset nat) (w : list dref)
    (p : list slot_args) (h : gmap dref deferred)
    (rs : gmap nat render_object) (ng np nr : nat) (tr : list event)
    : Prop := {
  sh_slots : forall s q, ph !! s = Some q -> slot_ok act w h rs ng nr s q;
  sh_nodup : NoDup w;
  sh_waiting : forall d, d ∈ w ->
      exists s k, d = DGet k /\ ph !! s = Some (Waiting k);
  sh_pending : forall i a, p !! i = Some a -> sa_pool_d a = DPool (nr + i);
  sh_count : np = nr + length p;
  sh_fresh : forall j, nr <= j -> j < np ->
      h !! DPool j = Some (new_deferred false);
  sh_renders : forall r obj, rs !! r = Some obj ->
      r < nr /\ r_deferred obj = DRender r
      /\ exists df, h !! DRender r = Some df
         /\ (is_spent df \/ exists s k, ph !! s = Some (Running k r));
  sh_active : forall r, r ∈ act ->
      r < nr /\ ((exists s k, ph !! s = Some (Running k r))
                 \/ r ∉ starts tr);
  sh_dequeued : dequeued tr = DPool <$> seq 0 nr;
  sh_starts : starts tr `sublist_of` seq 0 nr;
}.

Definition Inv (ph : list phase) (st : state) : Prop :=
  Shape ph (active st) (queue_waiting st) (queue_pending st) (deferreds st)
    (renders st) (next_get st) (next_pool_d st) (next_render st) (trace st)
  /\ (queue_waiting st <> [] -> queue_pending st = [])
  /\ Forall (fun q => q <> Transit) ph.

(** Trace bookkeeping. *)
Lemma dequeued_app l1 l2 : dequeued (l1 ++ l2) = dequeued l1 ++ dequeued l2.
Proof. apply omap_app. Qed.

Lemma starts_app l1 l2 : starts (l1 ++ l2) = starts l1 ++ starts l2.
Proof. apply omap_app. Qed.

Lemma dequeued_log v t : dequeued (log_events v t) = [].
Proof. unfold log_events. by destruct (2 <=? v)%Z. Qed.

Lemma starts_log v t : starts (log_events v t) = [].
Proof. unfold log_events. by destruct (2 <=? v)%Z. Qed.

Lemma dequeued_debug key up now us : dequeued (debug_events key up now us) = [].
Proof. unfold debug_events. destruct (all_str us), up; reflexivity. Qed.

Lemma starts_debug key up now us : starts (debug_events key up now us) = [].
Proof. unfold debug_events. destruct (all_str us), up; reflexivity. Qed.

Lemma dequeued_error v obj x r s : dequeued (error_core v obj x r s) = [].
Proof. unfold error_core. destruct (is_failure x); [apply dequeued_log|done]. Qed.

Lemma starts_error v obj x r s : starts (error_core v obj x r s) = [].
Proof. unfold error_core. destruct (is_failure x); [apply starts_log|done]. Qed.

Lemma dequeued_close v key up now rs act obj r s :
  dequeued (close_core v key up now rs act obj r s).1 = [].
Proof.
  unfold close_core. destruct (urls_of _ _); [destruct (on_close _)|];
    cbv [fst]; rewrite ?dequeued_app, ?dequeued_log, ?dequeued_debug; done.
Qed.

Lemma starts_close v key up now rs act obj r s :
  starts (close_core v key up now rs act obj r s).1 = [].
Proof.
  unfold close_core. destruct (urls_of _ _); [destruct (on_close _)|];
    cbv [fst]; rewrite ?starts_app, ?starts_log, ?starts_debug; done.
Qed.

(** ** [DeferredQueue.get] and [_wait_for_render] on a state in flat form *)

Definition waiter (s : nat) : deferred :=
  d_with_callbacks (waiter_cbs s) (new_deferred true).

Definition taker (s : nat) (a : slot_args) : deferred :=
  d_with_callbacks [Pair (StartRender s) Passthru]
    (d_fire (VArgs a) (new_deferred false)).

Definition ev_available (st : state) (s : nat) (lg : bool) : list event :=
  if lg then log_events (verbosity st) (LogAvailable s) else [].

Section Queue.

Context (st : state) (act : gset nat) (w : list dref)
  (h : gmap dref deferred) (rs : gmap nat render_object)
  (ng np nr nn : nat) (tr : list event).

Lemma get_idle :
  get (flat st act w [] h rs ng np nr nn tr) =
    (Ok (DGet ng),
     flat st act (w ++ [DGet ng]) [] (<[DGet ng := new_deferred true]> h) rs
       (S ng) np nr nn tr).
Proof. unfold get. mred. autorewrite with flat. to_state. flat_eq. Qed.

Lemma get_take a p :
  get (flat st act w (a :: p) h rs ng np nr nn tr) =
    (Ok (DGet ng),
     flat st act w p
       (<[DGet ng := d_fire (VArgs a) (new_deferred false)]> h) rs
       (S ng) np nr nn tr).
Proof. unfold get. mred. autorewrite with flat. to_state. flat_eq. Qed.

Lemma log_flat t p :
  log t (flat st act w p h rs ng np nr nn tr) =
    (Ok tt,
     flat st act w p h rs ng np nr nn (tr ++ log_events (verbosity st) t)).
Proof. rewrite log_eq. by autorewrite with flat. Qed.

Lemma when_log_flat lg s p :
  when lg (log (LogAvailable s)) (flat st act w p h rs ng np nr nn tr) =
    (Ok tt, flat st act w p h rs ng np nr nn (tr ++ ev_available st s lg)).
Proof.
  unfold when, ev_available. destruct lg.
  - apply log_flat.
  - unfold ret. by rewrite app_nil_r.
Qed.

End Queue.

Section Loop.

Context (st : state) (act : gset nat) (w : list dref)
  (h : gmap dref deferred) (rs : gmap nat render_object)
  (ng np nr nn : nat) (tr : list event).

Lemma wait_for_render_idle rec v s lg :
  _wait_for_render rec v s lg (flat st act w [] h rs ng np nr nn tr) =
    (Ok v,
     flat st act (w ++ [DGet ng]) [] (<[DGet ng := waiter s]> h) rs
       (S ng) np nr nn (tr ++ ev_available st s lg)).
Proof.
  unfold _wait_for_render.
  erewrite bind_ok by apply when_log_flat.
  erewrite bind_ok by apply get_idle.
  unfold addCallback, addBoth.
  erewrite bind_ok; [|eapply addCallbacks_uncalled; [look'|reflexivity]].
  erewrite bind_ok; [|eapply addCallbacks_uncalled; [look'|reflexivity]].
  autorewrite with flat. unfold ret. to_state. flat_eq.
Qed.

Lemma wait_for_render_take rec v s lg a p :
  _wait_for_render rec v s lg (flat st act w (a :: p) h rs ng np nr nn tr) =
    (rec (RunCallbacks (DGet ng)) ;;
     addBoth rec (DGet ng) (WaitForRender s) ;; ret v)
      (flat st act w p (<[DGet ng := taker s a]> h) rs
         (S ng) np nr nn (tr ++ ev_available st s lg)).
Proof.
  unfold _wait_for_render.
  erewrite bind_ok by apply when_log_flat.
  erewrite bind_ok by apply get_take.
  unfold addCallback at 1.
  unfold bind at 1.
  erewrite addCallbacks_called; [|look'|reflexivity].
  autorewrite with flat. unfold bind at 2.
  match goal with |- context [rec _ ?x] =>
    replace x with (flat st act w p (<[DGet ng := taker s a]> h) rs
         (S ng) np nr nn (tr ++ ev_available st s lg))
      by (flat_eq) end.
  reflexivity.
Qed.

End Loop.

(** ** How the shape changes *)

Lemma slot_ok_frame act act' w w' h h' rs rs' ng ng' nr nr' s q :
  slot_ok act w h rs ng nr s q ->
  (forall k, key_of q = Some k -> h' !! DGet k = h !! DGet k) ->
  (forall k r, q = Running k r ->
     h' !! DRender r = h !! DRender r /\ h' !! DPool r = h !! DPool r
     /\ rs' !! r = rs !! r /\ (r ∈ act -> r ∈ act')) ->
  (forall k, q = Waiting k -> DGet k ∈ w -> DGet k ∈ w') ->
  ng <= ng' -> nr <= nr' ->
  slot_ok act' w' h' rs' ng' nr' s q.
Proof.
  intros H Hk Hr Hw Hng Hnr. destruct q as [k|k r|]; simpl in *; [| |done].
  - destruct H as (H1 & H2 & H3). rewrite (Hk k eq_refl).
    split; [lia|]. split; [by apply (Hw k)|done].
  - destruct H as (H1 & H2 & H3 & H4 & H5 & H6 & H7).
    destruct (Hr k r eq_refl) as (E1 & E2 & E3 & E4).
    rewrite (Hk k eq_refl), E1, E2, E3.
    split; [lia|]. split; [lia|]. split; [by apply E4|done].
Qed.

Section ShapeFacts.

Context (ph : list phase) (act : gset nat) (w : list dref)
  (p : list slot_args) (h : gmap dref deferred)
  (rs : gmap nat render_object) (ng np nr : nat) (tr : list event).
Context (HS : Shape ph act w p h rs ng np nr tr).

Lemma key_lt s q k : ph !! s = Some q -> key_of q = Some k -> k < ng.
Proof using HS.
  intros Hs Hk. pose proof (sh_slots _ _ _ _ _ _ _ _ _ _ HS s q Hs) as H.
  destruct q; simpl in *; simplify_eq; by destruct H.
Qed.

Lemma render_lt s k r : ph !! s = Some (Running k r) -> r < nr.
Proof using HS.
  intros Hs. pose proof (sh_slots _ _ _ _ _ _ _ _ _ _ HS s _ Hs) as H.
  simpl in H. by destruct H as (_ & H & _).
Qed.

Lemma key_unique s s' q q' k :
  ph !! s = Some q -> ph !! s' = Some q' ->
  key_of q = Some k -> key_of q' = Some k -> s = s'.
Proof using HS.
  intros Hs Hs' Hk Hk'.
  pose proof (sh_slots _ _ _ _ _ _ _ _ _ _ HS s q Hs) as H.
  pose proof (sh_slots _ _ _ _ _ _ _ _ _ _ HS s' q' Hs') as H'.
  destruct q as [k1|k1 r1|], q' as [k2|k2 r2|]; simpl in *; simplify_eq.
  - destruct H as (_ & _ & df & Hd & [_ Hc _ _]).
    destruct H' as (_ & _ & df' & Hd' & [_ Hc' _ _]). simplify_eq.
    rewrite Hc in Hc'. by inversion Hc'.
  - destruct H as (_ & _ & df & Hd & [_ Hc _ _]).
    destruct H' as (_ & _ & _ & (df' & Hd' & [Hc' _ _]) & _). simplify_eq.
    rewrite Hc in Hc'. by inversion Hc'.
  - destruct H' as (_ & _ & df & Hd & [_ Hc _ _]).
    destruct H as (_ & _ & _ & (df' & Hd' & [Hc' _ _]) & _). simplify_eq.
    rewrite Hc in Hc'. by inversion Hc'.
  - destruct H as (_ & _ & _ & (df & Hd & [Hc _ _]) & _).
    destruct H' as (_ & _ & _ & (df' & Hd' & [Hc' _ _]) & _). simplify_eq.
    rewrite Hc in Hc'. by inversion Hc'.
Qed.

Lemma render_unique s s' k k' r :
  ph !! s = Some (Running k r) -> ph !! s' = Some (Running k' r) -> s = s'.
Proof using HS.
  intros Hs Hs'.
  pose proof (sh_slots _ _ _ _ _ _ _ _ _ _ HS s _ Hs) as H.
  pose proof (sh_slots _ _ _ _ _ _ _ _ _ _ HS s' _ Hs') as H'.
  simpl in *.
  destruct H as (_ & _ & _ & _ & _ & (df & Hd & [_ Hc _ _]) & _).
  destruct H' as (_ & _ & _ & _ & _ & (df' & Hd' & [_ Hc' _ _]) & _).
  simplify_eq. rewrite Hc in Hc'. by inversion Hc'.
Qed.

End ShapeFacts.

Lemma seq_snoc n : seq 0 (S n) = seq 0 n ++ [n].
Proof. by rewrite seq_S. Qed.

Lemma starts_bound tr nr r :
  starts tr `sublist_of` seq 0 nr -> r ∈ starts tr -> r < nr.
Proof.
  intros H Hr. eapply elem_of_sublist in Hr; [|exact H].
  apply elem_of_seq in Hr. lia.
Qed.

(** Changes that no slot sees: deferreds no slot holds, a later [get],
    log lines. *)
Lemma Shape_scratch ph act w p h h' rs ng ng' np nr tr tr' :
  Shape ph act w p h rs ng np nr tr ->
  (forall d, h' !! d = h !! d \/
     exists k, d = DGet k /\
               forall s q, ph !! s = Some q -> key_of q <> Some k) ->
  ng <= ng' ->
  dequeued tr' = dequeued tr -> starts tr' = starts tr ->
  Shape ph act w p h' rs ng' np nr tr'.
Proof.
  intros HS Hh Hng Hdq Hst.
  assert (Hr : forall r, h' !! DRender r = h !! DRender r).
  { intros r. destruct (Hh (DRender r)) as [E|(k & E & _)]; [done|discriminate]. }
  assert (Hp : forall j, h' !! DPool j = h !! DPool j).
  { intros j. destruct (Hh (DPool j)) as [E|(k & E & _)]; [done|discriminate]. }
  destruct HS as [H1 H2 H3 H4 H5 H6 H7 H8 H9 H10].
  constructor; try done.
  - intros s q Hs. eapply slot_ok_frame; [by apply H1| | |done|done|done].
    + intros k Hk. destruct (Hh (DGet k)) as [E|(k' & E & Hn)]; [done|].
      inversion E; subst k'. by destruct (Hn s q Hs).
    + intros k r _. by rewrite Hr, Hp.
  - intros j Hj Hj'. rewrite Hp. by apply H6.
  - intros r obj Ho. destruct (H7 r obj Ho) as (Hlt & Hd & df & Hdf & Hc).
    split; [done|]. split; [done|]. exists df. by rewrite Hr.
  - intros r Hr'. rewrite Hst. by apply H8.
  - by rewrite Hdq.
  - by rewrite Hst.
Qed.

(** A slot goes back to the queue and finds it empty. *)
Lemma Shape_wait ph act w h h' rs ng np nr tr tr' s df :
  Shape ph act w [] h rs ng np nr tr ->
  ph !! s = Some Transit ->
  h' !! DGet ng = Some df -> is_waiter s df ->
  (forall d, d <> DGet ng -> h' !! d = h !! d) ->
  dequeued tr' = dequeued tr -> starts tr' = starts tr ->
  Shape (<[s := Waiting ng]> ph) act (w ++ [DGet ng]) [] h' rs (S ng) np nr
    tr'.
Proof.
  intros HS Hs Hd Hw Hh Hdq Hst.
  assert (Hlen : s < length ph) by (by eapply lookup_lt_Some).
  assert (Hkey : forall s' q, ph !! s' = Some q -> key_of q <> Some ng).
  { intros s' q Hs' Hk. pose proof (key_lt _ _ _ _ _ _ _ _ _ _ HS _ _ _ Hs' Hk).
    lia. }
  destruct HS as [H1 H2 H3 H4 H5 H6 H7 H8 H9 H10].
  constructor; try done.
  - intros s' q Hq. apply list_lookup_insert_Some in Hq
      as [(<- & <- & _)|[Hne Hq]].
    + simpl. split; [lia|]. split; [|by exists df].
      apply elem_of_app. right. by apply list_elem_of_singleton.
    + eapply slot_ok_frame; [by apply H1| | | |lia|lia].
      * intros k Hk. apply Hh. intros [= ->]. by apply (Hkey s' q).
      * intros k r _. by rewrite !Hh.
      * intros k _ Hin. apply elem_of_app. by left.
  - apply NoDup_app. split; [done|]. split; [|apply NoDup_singleton].
    intros d Hin ->%list_elem_of_singleton.
    destruct (H3 _ Hin) as (s' & k & [= <-] & Hs').
    by apply (Hkey s' (Waiting ng)).
  - intros d [Hin| ->%list_elem_of_singleton]%elem_of_app.
    + destruct (H3 _ Hin) as (s' & k & -> & Hs'). exists s', k.
      split; [done|]. rewrite list_lookup_insert_ne; [done|].
      intros <-. congruence.
    + exists s, ng. split; [done|]. by apply list_lookup_insert_eq.
  - intros j Hj Hj'. rewrite Hh by done. by apply H6.
  - intros r obj Ho. destruct (H7 r obj Ho) as (Hlt & Hrd & df' & Hdf & Hc).
    split; [done|]. split; [done|]. exists df'. rewrite Hh by done.
    split; [done|]. destruct Hc as [Hc|(s' & k & Hs')]; [by left|right].
    exists s', k. rewrite list_lookup_insert_ne; [done|]. intros <-. congruence.
  - intros r Hr. destruct (H8 r Hr) as [Hlt Hc]. split; [done|].
    rewrite Hst. destruct Hc as [(s' & k & Hs')|Hc]; [left|by right].
    exists s', k. rewrite list_lookup_insert_ne; [done|]. intros <-. congruence.
  - by rewrite Hdq.
  - by rewrite Hst.
Qed.

Ltac other_slot :=
  match goal with
  | |- <[?s := _]> ?ph !! ?s' = Some _ =>
      rewrite list_lookup_insert_ne; [done|]; intros <-; congruence
  end.

(** [render] puts a job at the tail of the queue. *)
Lemma Shape_enqueue ph act w p a h h' rs ng np nr tr tr' :
  Shape ph act w p h rs ng np nr tr ->
  sa_pool_d a = DPool np ->
  h' !! DPool np = Some (new_deferred false) ->
  (forall d, d <> DPool np -> h' !! d = h !! d) ->
  dequeued tr' = dequeued tr -> starts tr' = starts tr ->
  Shape ph act w (p ++ [a]) h' rs ng (S np) nr tr'.
Proof.
  intros HS Ha Hd Hh Hdq Hst.
  assert (Hrl := render_lt _ _ _ _ _ _ _ _ _ _ HS).
  destruct HS as [H1 H2 H3 H4 H5 H6 H7 H8 H9 H10].
  constructor; try done.
  - intros s q Hs. eapply slot_ok_frame; [by apply H1| | |done|done|done].
    + intros k _. by apply Hh.
    + intros k r ->. rewrite !Hh; [done|..]; try done.
      intros [= ->]. specialize (Hrl _ _ _ Hs). lia.
  - intros i a' Hi. apply lookup_app_Some in Hi as [Hi|[Hi1 Hi2]].
    + by apply H4.
    + apply list_lookup_singleton_Some in Hi2 as [Hi2 <-].
      rewrite Ha. f_equal. lia.
  - rewrite length_app. simpl. lia.
  - intros j Hj Hj'. destruct (decide (j = np)) as [->|Hne]; [done|].
    rewrite Hh by congruence. apply H6; lia.
  - intros r obj Ho. destruct (H7 r obj Ho) as (Hlt & Hrd & df & Hdf & Hc).
    split; [done|]. split; [done|]. exists df. by rewrite Hh.
  - intros r Hr. rewrite Hst. by apply H8.
  - by rewrite Hdq.
  - by rewrite Hst.
Qed.

(** [put] takes the first waiting deferred off the list. *)
Lemma Shape_pop ph act w p h h' rs ng np nr tr s k :
  Shape ph act (DGet k :: w) p h rs ng np nr tr ->
  ph !! s = Some (Waiting k) ->
  (forall d, d <> DGet k -> h' !! d = h !! d) ->
  Shape (<[s := Transit]> ph) act w p h' rs ng np nr tr.
Proof.
  intros HS Hs Hh.
  assert (Hku := key_unique _ _ _ _ _ _ _ _ _ _ HS).
  destruct HS as [H1 H2 H3 H4 H5 H6 H7 H8 H9 H10].
  apply NoDup_cons in H2 as [Hk H2].
  constructor; try done.
  - intros s' q Hq. apply list_lookup_insert_Some in Hq
      as [(<- & <- & _)|[Hne Hq]]; [done|].
    eapply slot_ok_frame; [by apply H1| | | |done|done].
    + intros k' Hk'. apply Hh. intros [= ->].
      by destruct Hne; apply (Hku s s' (Waiting k) q k).
    + intros k' r _. by rewrite !Hh.
    + intros k' -> [[= ->]|Hin]%elem_of_cons; [|done].
      by destruct Hne; apply (Hku s s' (Waiting k) (Waiting k) k).
  - intros d Hin. destruct (H3 d) as (s' & k' & -> & Hs').
    { apply elem_of_cons. by right. }
    exists s', k'. split; [done|].
    rewrite list_lookup_insert_ne; [done|]. intros <-.
    rewrite Hs in Hs'. by inversion Hs'; subst.
  - intros j Hj Hj'. rewrite Hh by done. by apply H6.
  - intros r obj Ho. destruct (H7 r obj Ho) as (Hlt & Hrd & df & Hdf & Hc).
    split; [done|]. split; [done|]. exists df. rewrite Hh by done.
    split; [done|]. destruct Hc as [Hc|(s' & k' & Hs')]; [by left|right].
    exists s', k'. other_slot.
  - intros r Hr. destruct (H8 r Hr) as [Hlt Hc]. split; [done|].
    destruct Hc as [(s' & k' & Hs')|Hc]; [left|by right].
    exists s', k'. other_slot.
Qed.

(** A slot has taken the first job of the queue and the job runs on. *)
Lemma Shape_start_running ph act w a p h h' rs ng np nr tr tr' s k obj :
  Shape ph act w (a :: p) h rs ng np nr tr ->
  ph !! s = Some Transit -> k < ng ->
  (forall s' q, ph !! s' = Some q -> key_of q <> Some k) ->
  (forall d, d <> DGet k -> d <> DRender nr -> d <> DPool nr ->
             h' !! d = h !! d) ->
  (exists df, h' !! DGet k = Some df /\ is_parked s df) ->
  (exists df, h' !! DRender nr = Some df /\ is_future nr k df) ->
  (exists df, h' !! DPool nr = Some df /\ is_handle nr s df) ->
  r_deferred obj = DRender nr ->
  dequeued tr' = dequeued tr ++ [DPool nr] ->
  starts tr' = starts tr ++ [nr] ->
  Shape (<[s := Running k nr]> ph) (act ∪ {[nr]}) w p h'
    (<[nr := obj]> rs) ng np (S nr) tr'.
Proof.
  intros HS Hs Hk Hkey Hh Hpk Hfu Hha Hobj Hdq Hst.
  assert (Hlen : s < length ph) by (by eapply lookup_lt_Some).
  assert (Hrl := render_lt _ _ _ _ _ _ _ _ _ _ HS).
  destruct HS as [H1 H2 H3 H4 H5 H6 H7 H8 H9 H10].
  constructor; try done.
  - intros s' q Hq. apply list_lookup_insert_Some in Hq
      as [(<- & <- & _)|[Hne Hq]].
    + simpl. split; [done|]. split; [lia|]. split; [set_solver|].
      split; [done|]. split; [done|]. split; [done|].
      exists obj. by rewrite lookup_insert_eq.
    + eapply slot_ok_frame; [by apply H1| | |done|done|lia].
      * intros k' Hk'. apply Hh; try done. intros [= ->].
        by apply (Hkey s' q).
      * intros k' r ->. specialize (Hrl _ _ _ Hq).
        rewrite !Hh by (intros [=]; lia).
        rewrite lookup_insert_ne by lia. split_and!; try done. set_solver.
  - intros d Hin. destruct (H3 d Hin) as (s' & k' & -> & Hs').
    exists s', k'. split; [done|]. other_slot.
  - intros i a' Hi. rewrite (H4 (S i) a' Hi). f_equal. lia.
  - simpl in H5. lia.
  - intros j Hj Hj'. rewrite Hh by (intros [=]; lia). apply H6; lia.
  - intros r obj' Ho. destruct (decide (r = nr)) as [->|Hne].
    + rewrite lookup_insert_eq in Ho. inversion Ho; subst obj'.
      split; [lia|]. split; [done|]. destruct Hfu as (df & Hdf & Hf).
      exists df. split; [done|]. right. exists s, k.
      by apply list_lookup_insert_eq.
    + rewrite lookup_insert_ne in Ho by done.
      destruct (H7 r obj' Ho) as (Hlt & Hrd & df & Hdf & Hc).
      split; [lia|]. split; [done|]. exists df.
      rewrite Hh by (intros [=]; lia). split; [done|].
      destruct Hc as [Hc|(s' & k' & Hs')]; [by left|right].
      exists s', k'. other_slot.
  - intros r [Hr| ->%elem_of_singleton]%elem_of_union.
    + destruct (H8 r Hr) as [Hlt Hc]. split; [lia|].
      destruct Hc as [(s' & k' & Hs')|Hc]; [left|right].
      * exists s', k'. other_slot.
      * rewrite Hst. intros [Hin|Hin%list_elem_of_singleton]%elem_of_app;
          [done|lia].
    + split; [lia|]. left. exists s, k. by apply list_lookup_insert_eq.
  - rewrite Hdq, H9, seq_snoc, fmap_app. reflexivity.
  - rewrite Hst, seq_snoc. by apply sublist_app.
Qed.

(** A slot has taken the first job of the queue and is done with it:
    the job went through its cleanup, or [get_url()] raised and the
    render stays behind in the active set, never started. *)
Lemma Shape_start_over ph act act' w a p h h' rs ng np nr tr tr' k obj df :
  Shape ph act w (a :: p) h rs ng np nr tr ->
  (forall s' q, ph !! s' = Some q -> key_of q <> Some k) ->
  (forall d, d <> DGet k -> d <> DRender nr -> d <> DPool nr ->
             h' !! d = h !! d) ->
  h' !! DRender nr = Some df -> is_spent df ->
  r_deferred obj = DRender nr ->
  (forall r, r <> nr -> (r ∈ act' <-> r ∈ act)) ->
  dequeued tr' = dequeued tr ++ [DPool nr] ->
  (starts tr' = starts tr \/ (starts tr' = starts tr ++ [nr] /\ nr ∉ act')) ->
  Shape ph act' w p h' (<[nr := obj]> rs) ng np (S nr) tr'.
Proof.
  intros HS Hkey Hh Hdf Hsp Hobj Hact Hdq Hst.
  assert (Hrl := render_lt _ _ _ _ _ _ _ _ _ _ HS).
  destruct HS as [H1 H2 H3 H4 H5 H6 H7 H8 H9 H10].
  constructor; try done.
  - intros s' q Hq.
    eapply slot_ok_frame; [by apply H1| | |done|done|lia].
    + intros k' Hk'. apply Hh; try done. intros [= ->].
      by apply (Hkey s' q).
    + intros k' r ->. specialize (Hrl _ _ _ Hq).
      rewrite !Hh by (intros [=]; lia).
      rewrite lookup_insert_ne by lia. split_and!; try done.
      intros Hr. apply Hact; [lia|done].
  - intros i a' Hi. rewrite (H4 (S i) a' Hi). f_equal. lia.
  - simpl in H5. lia.
  - intros j Hj Hj'. rewrite Hh by (intros [=]; lia). apply H6; lia.
  - intros r obj' Ho. destruct (decide (r = nr)) as [->|Hne].
    + rewrite lookup_insert_eq in Ho. inversion Ho; subst obj'.
      split; [lia|]. split; [done|]. exists df. split; [done|]. by left.
    + rewrite lookup_insert_ne in Ho by done.
      destruct (H7 r obj' Ho) as (Hlt & Hrd & df' & Hdf' & Hc).
      split; [lia|]. split; [done|]. exists df'.
      by rewrite Hh by (intros [=]; lia).
  - intros r Hr. destruct (decide (r = nr)) as [->|Hne].
    + split; [lia|]. right. destruct Hst as [->|[_ Hn]]; [|done].
      intros Hin. pose proof (starts_bound _ _ _ H10 Hin). lia.
    + apply Hact in Hr; [|done]. destruct (H8 r Hr) as [Hlt Hc].
      split; [lia|]. destruct Hc as [Hc|Hc]; [by left|right].
      destruct Hst as [->|[-> _]]; [done|].
      intros [Hin|Hin%list_elem_of_singleton]%elem_of_app; done.
  - rewrite Hdq, H9, seq_snoc, fmap_app. reflexivity.
  - rewrite seq_snoc. destruct Hst as [->|[-> _]].
    + by apply sublist_inserts_r.
    + by apply sublist_app.
Qed.

(** The future of a running render has fired and its handle with it. *)
Lemma Shape_finish ph act w p h h' rs ng np nr tr tr' s k r df :
  Shape ph act w p h rs ng np nr tr ->
  ph !! s = Some (Running k r) ->
  (forall d, d <> DGet k -> d <> DRender r -> d <> DPool r ->
             h' !! d = h !! d) ->
  h' !! DRender r = Some df -> is_spent df ->
  dequeued tr' = dequeued tr -> starts tr' = starts tr ->
  Shape (<[s := Transit]> ph) (act ∖ {[r]}) w p h' rs ng np nr tr'.
Proof.
  intros HS Hs Hh Hdf Hsp Hdq Hst.
  assert (Hku := key_unique _ _ _ _ _ _ _ _ _ _ HS).
  assert (Hru := render_unique _ _ _ _ _ _ _ _ _ _ HS).
  assert (Hrl := render_lt _ _ _ _ _ _ _ _ _ _ HS).
  destruct HS as [H1 H2 H3 H4 H5 H6 H7 H8 H9 H10].
  constructor; try done.
  - intros s' q Hq. apply list_lookup_insert_Some in Hq
      as [(<- & <- & _)|[Hne Hq]]; [done|].
    eapply slot_ok_frame; [by apply H1| | |done|done|done].
    + intros k' Hk'. apply Hh; try done. intros [= ->].
      by destruct Hne; apply (Hku s s' (Running k r) q k).
    + intros k' r' ->.
      assert (r' <> r).
      { intros ->. by destruct Hne; apply (Hru s s' k k' r). }
      rewrite !Hh by congruence. split_and!; try done. set_solver.
  - intros d Hin. destruct (H3 d Hin) as (s' & k' & -> & Hs').
    exists s', k'. split; [done|]. other_slot.
  - intros j Hj Hj'. specialize (Hrl _ _ _ Hs).
    rewrite Hh by (intros [=]; lia). by apply H6.
  - intros r' obj Ho. destruct (H7 r' obj Ho) as (Hlt & Hrd & df' & Hdf' & Hc).
    split; [done|]. split; [done|].
    destruct (decide (r' = r)) as [->|Hne].
    + exists df. split; [done|]. by left.
    + exists df'. rewrite Hh by congruence. split; [done|].
      destruct Hc as [Hc|(s' & k' & Hs')]; [by left|right].
      exists s', k'. rewrite list_lookup_insert_ne; [done|].
      intros <-. rewrite Hs in Hs'. by inversion Hs'.
  - intros r' [Hr Hne%not_elem_of_singleton]%elem_of_difference.
    destruct (H8 r' Hr) as [Hlt Hc]. split; [done|]. rewrite Hst.
    destruct Hc as [(s' & k' & Hs')|Hc]; [left|by right].
    exists s', k'. rewrite list_lookup_insert_ne; [done|].
    intros <-. rewrite Hs in Hs'. by inversion Hs'.
  - by rewrite Hdq.
  - by rewrite Hst.
Qed.

(** A future no slot waits for is settled from outside. *)
Lemma Shape_spend ph act w p h h' rs ng np nr tr r df :
  Shape ph act w p h rs ng np nr tr ->
  (forall s k, ph !! s <> Some (Running k r)) ->
  h' !! DRender r = Some df -> is_spent df ->
  (forall d, d <> DRender r -> h' !! d = h !! d) ->
  Shape ph act w p h' rs ng np nr tr.
Proof.
  intros HS Hn Hdf Hsp Hh.
  destruct HS as [H1 H2 H3 H4 H5 H6 H7 H8 H9 H10].
  constructor; try done.
  - intros s q Hs. eapply slot_ok_frame; [by apply H1| | |done|done|done].
    + intros k' _. by apply Hh.
    + intros k' r' ->. rewrite !Hh; [done|done|].
      intros [= ->]. by apply (Hn s k').
  - intros j Hj Hj'. rewrite Hh by done. by apply H6.
  - intros r' obj Ho. destruct (H7 r' obj Ho) as (Hlt & Hrd & df' & Hdf' & Hc).
    split; [done|]. split; [done|].
    destruct (decide (r' = r)) as [->|Hne].
    + exists df. split; [done|]. by left.
    + exists df'. by rewrite Hh by congruence.
Qed.

(* ===================================================================== *)
(** ** Two runs of one pool, compared *)
(* ===================================================================== *)

(** What is left of a trace once the success flag of every store write
    and the log lines about an unreachable store are put aside. *)
Definition scrub (e : event) : option event :=
  match e with
  | ERedisSet key data _ => Some (ERedisSet key data true)
  | ELog _ (LogDebugUpdateFailed ConnectionError) => None
  | _ => Some e
  end.

Definition scrub_trace (strict : bool) (l : list event) : list event :=
  if strict then l else omap scrub l.

(** [sim strict s1 s2]: the two states hold the same pool, the same
    objects and the same clock; [js_profiles_path] is left out of the
    comparison.  With [strict] the store is in the same condition and the
    traces are equal; without, the traces are equal up to [scrub]. *)
Record sim (strict : bool) (s1 s2 : state) : Prop := Sim {
  sim_cls : splash_proxy_factory_cls s1 = splash_proxy_factory_cls s2;
  sim_active : active s1 = active s2;
  sim_waiting : queue_waiting s1 = queue_waiting s2;
  sim_pending : queue_pending s1 = queue_pending s2;
  sim_verbosity : verbosity s1 = verbosity s2;
  sim_debug_key : debug_key s1 = debug_key s2;
  sim_redis_host : redis_host s1 = redis_host s2;
  sim_redis_port : redis_port s1 = redis_port s2;
  sim_deferreds : deferreds s1 = deferreds s2;
  sim_renders : renders s1 = renders s2;
  sim_next_get : next_get s1 = next_get s2;
  sim_next_pool_d : next_pool_d s1 = next_pool_d s2;
  sim_next_render : next_render s1 = next_render s2;
  sim_next_network_manager :
    next_network_manager s1 = next_network_manager s2;
  sim_clock : clock s1 = clock s2;
  sim_redis_up : strict = true -> redis_up s1 = redis_up s2;
  sim_trace : scrub_trace strict (trace s1) = scrub_trace strict (trace s2);
}.

(** Two computations that, from similar states, give the same result and
    similar states. *)
Definition related {A} (strict : bool) (m1 m2 : M A) : Prop :=
  forall s1 s2, sim strict s1 s2 ->
    (m1 s1).1 = (m2 s2).1 /\ sim strict (m1 s1).2 (m2 s2).2.

Abbreviation respects strict m := (related strict m m).

Lemma scrub_trace_app strict l1 l2 :
  scrub_trace strict (l1 ++ l2) = scrub_trace strict l1 ++ scrub_trace strict l2.
Proof. destruct strict; simpl; [done|apply omap_app]. Qed.

Lemma sim_refl strict s : sim strict s s.
Proof. by constructor. Qed.

Section Related.

Context (strict : bool).

Lemma related_ret {A} (a : A) : respects strict (ret a).
Proof. by intros s1 s2 H. Qed.

Lemma related_raise {A} e : respects strict (raise (A := A) e).
Proof. by intros s1 s2 H. Qed.

Lemma related_out_of_fuel {A} : respects strict (out_of_fuel (A := A)).
Proof. by intros s1 s2 H. Qed.

Lemma related_bind {A B} (m1 m2 : M A) (k1 k2 : A -> M B) :
  related strict m1 m2 -> (forall a, related strict (k1 a) (k2 a)) ->
  related strict (bind m1 k1) (bind m2 k2).
Proof.
  intros Hm Hk s1 s2 H. unfold bind.
  destruct (Hm s1 s2 H) as [Hr Hs].
  destruct (m1 s1) as [r1 t1], (m2 s2) as [r2 t2]. simpl in *. subst r2.
  destruct r1; [by apply Hk|done|done].
Qed.

Lemma related_try {A} (m1 m2 : M A) (h1 h2 : exn -> M A) :
  related strict m1 m2 -> (forall e, related strict (h1 e) (h2 e)) ->
  related strict (try_except m1 h1) (try_except m2 h2).
Proof.
  intros Hm Hh s1 s2 H. unfold try_except.
  destruct (Hm s1 s2 H) as [Hr Hs].
  destruct (m1 s1) as [r1 t1], (m2 s2) as [r2 t2]. simpl in *. subst r2.
  destruct r1; [done|by apply Hh|done].
Qed.

Lemma related_attempt {A} (m1 m2 : M A) :
  related strict m1 m2 -> related strict (attempt m1) (attempt m2).
Proof.
  intros Hm s1 s2 H. unfold attempt.
  destruct (Hm s1 s2 H) as [Hr Hs].
  destruct (m1 s1) as [r1 t1], (m2 s2) as [r2 t2]. simpl in *. subst r2.
  by destruct r1.
Qed.

Lemma related_gets {A} (f : state -> A) :
  (forall s1 s2, sim strict s1 s2 -> f s1 = f s2) ->
  respects strict (gets f).
Proof. intros Hf s1 s2 H. unfold gets. simpl. split; [|done]. f_equal. by apply Hf. Qed.

Lemma related_modify (g1 g2 : state -> state) :
  (forall s1 s2, sim strict s1 s2 -> sim strict (g1 s1) (g2 s2)) ->
  related strict (modify g1) (modify g2).
Proof. intros Hg s1 s2 H. unfold modify. simpl. split; [done|]. by apply Hg. Qed.

Lemma related_when b (m1 m2 : M unit) :
  related strict m1 m2 -> related strict (when b m1) (when b m2).
Proof. intros Hm. destruct b; simpl; [done|apply related_ret]. Qed.

(** The setters keep similar states similar. *)
Lemma sim_with_active f s1 s2 :
  sim strict s1 s2 -> sim strict (with_active f s1) (with_active f s2).
Proof. intros []; constructor; simpl; first [congruence|assumption]. Qed.

Lemma sim_with_waiting l s1 s2 :
  sim strict s1 s2 -> sim strict (with_waiting l s1) (with_waiting l s2).
Proof. intros []; constructor; simpl; first [congruence|assumption]. Qed.

Lemma sim_with_pending l s1 s2 :
  sim strict s1 s2 -> sim strict (with_pending l s1) (with_pending l s2).
Proof. intros []; constructor; simpl; first [congruence|assumption]. Qed.

Lemma sim_with_deferreds f s1 s2 :
  sim strict s1 s2 -> sim strict (with_deferreds f s1) (with_deferreds f s2).
Proof. intros []; constructor; simpl; first [congruence|assumption]. Qed.

Lemma sim_with_renders f s1 s2 :
  sim strict s1 s2 -> sim strict (with_renders f s1) (with_renders f s2).
Proof. intros []; constructor; simpl; first [congruence|assumption]. Qed.

Lemma sim_bump c s1 s2 :
  sim strict s1 s2 -> sim strict (bump c s1) (bump c s2).
Proof.
  intros []; constructor; simpl; try first [congruence|assumption];
    destruct c; congruence.
Qed.

Lemma sim_emits l1 l2 s1 s2 :
  scrub_trace strict l1 = scrub_trace strict l2 ->
  sim strict s1 s2 -> sim strict (emits l1 s1) (emits l2 s2).
Proof.
  intros Hl []; constructor; simpl; try first [congruence|assumption].
  rewrite !scrub_trace_app. congruence.
Qed.

Lemma sim_emit e s1 s2 :
  sim strict s1 s2 -> sim strict (emit e s1) (emit e s2).
Proof.
  intros []; constructor; simpl; try first [congruence|assumption].
  rewrite !scrub_trace_app. congruence.
Qed.

Lemma sim_with_config cls js1 js2 v s1 s2 :
  sim strict s1 s2 ->
  sim strict (with_config cls js1 v s1) (with_config cls js2 v s2).
Proof. intros []; constructor; simpl; first [congruence|assumption]. Qed.

Lemma sim_with_debug key host port s1 s2 :
  sim strict s1 s2 ->
  sim strict (with_debug key host port s1) (with_debug key host port s2).
Proof. intros []; constructor; simpl; first [congruence|assumption]. Qed.

Lemma sim_with_world up1 up2 now s1 s2 :
  (strict = true -> up1 = up2) ->
  sim strict s1 s2 ->
  sim strict (with_world up1 now s1) (with_world up2 now s2).
Proof. intros Hup []; constructor; simpl; first [congruence|assumption]. Qed.

End Related.

Create HintDb rel discriminated.
#[export] Hint Resolve related_ret related_raise related_out_of_fuel
  sim_with_active sim_with_waiting sim_with_pending sim_with_deferreds
  sim_with_renders sim_bump sim_emit sim_with_config sim_with_debug
  sim_cls sim_active sim_waiting sim_pending sim_verbosity sim_debug_key
  sim_redis_host sim_redis_port sim_deferreds sim_renders sim_next_get
  sim_next_pool_d sim_next_render sim_next_network_manager sim_clock : rel.

(** Goals of the form [related strict m m] are taken apart along the
    structure of [m]. *)
Ltac rel_step :=
  first
    [ solve [eauto 3 with rel]
    | apply related_bind; [|intros ?]
    | apply related_try; [|intros ?]
    | apply related_attempt
    | apply related_when
    | apply related_gets; solve [eauto 2 with rel]
    | apply related_modify; solve [eauto 3 with rel]
    | match goal with
      | |- related _ (match ?x with _ => _ end) (match ?x with _ => _ end) =>
          destruct x
      end ].

Ltac rel := repeat rel_step.

Section Primitives.

Context (strict : bool).

Lemma get_d_respects d : respects strict (get_d d).
Proof.
  intros s1 s2 H. unfold get_d. rewrite (sim_deferreds _ _ _ H).
  by destruct (deferreds s2 !! d).
Qed.

Lemma get_render_respects r : respects strict (get_render r).
Proof.
  intros s1 s2 H. unfold get_render. rewrite (sim_renders _ _ _ H).
  by destruct (renders s2 !! r).
Qed.
Hint Resolve get_d_respects get_render_respects : rel.

Lemma set_d_respects d df : respects strict (set_d d df).
Proof. unfold set_d. rel. Qed.
Hint Resolve set_d_respects : rel.

Lemma update_d_respects d f : respects strict (update_d d f).
Proof. unfold update_d. rel. Qed.

Lemma log_msg_respects sys t : respects strict (log_msg sys t).
Proof. unfold log_msg. rel. Qed.
Hint Resolve update_d_respects log_msg_respects : rel.

Lemma log_respects t : respects strict (log t).
Proof. unfold log. rel. Qed.

Lemma network_manager_factory_respects :
  respects strict network_manager_factory.
Proof. unfold network_manager_factory. rel. Qed.

Lemma construct_respects cls nm spf ro v :
  respects strict (construct cls nm spf ro v).
Proof. unfold construct. rel. Qed.

Lemma render_close_respects s r : respects strict (render_close s r).
Proof. unfold render_close. rel. Qed.

Lemma debug_events_scrub key up1 up2 now us :
  (strict = true -> up1 = up2) ->
  scrub_trace strict (debug_events key up1 now us) =
  scrub_trace strict (debug_events key up2 now us).
Proof.
  intros Hup. destruct strict; simpl.
  - by rewrite Hup.
  - unfold debug_events. destruct (all_str us); [|done].
    by destruct up1, up2.
Qed.

(** [debug_update] is where the store is touched: whether the write goes
    through shows in the trace only. *)
Lemma debug_update_respects : respects strict debug_update.
Proof.
  intros s1 s2 H. rewrite !debug_update_eq.
  rewrite (sim_renders _ _ _ H), (sim_active _ _ _ H).
  destruct (urls_of _ _) as [us|e]; simpl; [|done].
  split; [done|]. apply sim_emits; [|done].
  rewrite (sim_debug_key _ _ _ H), (sim_clock _ _ _ H).
  apply debug_events_scrub. intros Hs. by apply (sim_redis_up _ _ _ H).
Qed.

End Primitives.

#[export] Hint Resolve get_d_respects get_render_respects set_d_respects
  update_d_respects log_msg_respects log_respects
  network_manager_factory_respects construct_respects render_close_respects
  debug_update_respects : rel.

Section MethodsRespect.

Context (strict : bool) (rec : rec_call -> M unit).
Hypothesis Hrec : forall c, respects strict (rec c).
Hint Resolve Hrec : rel.

Lemma startRunCallbacks_respects d v :
  respects strict (_startRunCallbacks rec d v).
Proof. unfold _startRunCallbacks. rel. Qed.
Hint Resolve startRunCallbacks_respects : rel.

Lemma callback_respects d v : respects strict (callback rec d v).
Proof. unfold callback. rel. Qed.

Lemma errback_respects d e : respects strict (errback rec d e).
Proof. unfold errback. rel. Qed.

Lemma addCallbacks_respects d cb eb :
  respects strict (addCallbacks rec d cb eb).
Proof. unfold addCallbacks. rel. Qed.
Hint Resolve callback_respects errback_respects addCallbacks_respects : rel.

Lemma cancelGet_respects d : respects strict (_cancelGet d).
Proof. unfold _cancelGet. rel. Qed.

Lemma put_respects a : respects strict (put rec a).
Proof. unfold put. rel. Qed.

Lemma get_respects : respects strict get.
Proof. unfold get. rel. Qed.
Hint Resolve cancelGet_respects put_respects get_respects : rel.

Lemma cancel_respects d : respects strict (cancel rec d).
Proof. unfold cancel. rel. Qed.

Lemma render_respects cls ro proxy kw :
  respects strict (render rec cls ro proxy kw).
Proof. unfold render. rel. Qed.

Lemma wait_for_render_respects v s lg :
  respects strict (_wait_for_render rec v s lg).
Proof. unfold _wait_for_render, addCallback, addBoth. rel. Qed.

Lemma render_start_respects r kw : respects strict (render_start rec r kw).
Proof. unfold render_start. rel. Qed.
Hint Resolve cancel_respects render_respects wait_for_render_respects
  render_start_respects : rel.

Lemma start_render_respects v s : respects strict (_start_render rec v s).
Proof.
  unfold _start_render, chainDeferred, addErrback, addBoth. rel.
Qed.

Lemma error_respects v r s : respects strict (_error v r s).
Proof. unfold _error. rel. Qed.

Lemma close_render_respects v r s :
  respects strict (_close_render rec v r s).
Proof. unfold _close_render. rel. Qed.
Hint Resolve start_render_respects error_respects close_render_respects : rel.

Lemma call_respects f v : respects strict (call rec f v).
Proof. unfold call. rel. Qed.
Hint Resolve call_respects : rel.

Lemma runCallbacks_respects d : respects strict (_runCallbacks rec d).
Proof. unfold _runCallbacks. rel. Qed.

End MethodsRespect.

Lemma exec_respects strict fuel c : respects strict (exec fuel c).
Proof.
  revert c. induction fuel as [|fuel IH]; intros c.
  - apply related_out_of_fuel.
  - destruct c.
    + rewrite exec_run. by apply runCallbacks_respects.
    + rewrite exec_cancel. by apply cancel_respects.
Qed.

Lemma for_range_related strict ns (b1 b2 : nat -> M unit) :
  (forall n, related strict (b1 n) (b2 n)) ->
  related strict (for_range ns b1) (for_range ns b2).
Proof.
  intros Hb. induction ns as [|n ns IH]; simpl.
  - apply related_ret.
  - apply related_bind; [apply Hb|intros _; apply IH].
Qed.

(** The constructor does not look at [js_profiles_path]. *)
Lemma init_related strict rec slots cls js1 js2 v env :
  (forall c, respects strict (rec c)) ->
  related strict (__init__ rec slots cls js1 v env)
                 (__init__ rec slots cls js2 v env).
Proof.
  intros Hrec. unfold __init__.
  apply related_bind; [apply related_modify; eauto with rel|intros _].
  apply related_bind.
  { apply for_range_related. intros n.
    apply related_bind; [by apply wait_for_render_respects|intros _].
    apply related_ret. }
  intros _. rel.
Qed.

(** The same input, with the store unreachable. *)
Definition store_down (i : input) : input :=
  match i with
  | World _ now => World false now
  | _ => i
  end.

Lemma step_respects strict fuel i : respects strict (step fuel i).
Proof.
  destruct i as [cls ro proxy kw|r o|up now]; simpl.
  - apply related_bind; [apply render_respects, exec_respects|intros _].
    apply related_ret.
  - apply related_bind; [rel|intros rs]. destruct (rs !! r); [|rel].
    destruct o; [apply callback_respects|apply errback_respects];
      apply exec_respects.
  - apply related_modify. intros s1 s2. by apply sim_with_world.
Qed.

Lemma step_store_down fuel i :
  related false (step fuel i) (step fuel (store_down i)).
Proof.
  destruct i as [cls ro proxy kw|r o|up now];
    try apply (step_respects false fuel).
  simpl. apply related_modify. intros s1 s2. by apply sim_with_world.
Qed.

(** Two runs end alike: both out of fuel, or both in similar states. *)
Definition sim_run (strict : bool) (o1 o2 : option state) : Prop :=
  match o1, o2 with
  | Some s1, Some s2 => sim strict s1 s2
  | None, None => True
  | _, _ => False
  end.

Lemma run_related strict fuel (f : input -> input) inputs :
  (forall i, related strict (step fuel i) (step fuel (f i))) ->
  forall s1 s2, sim strict s1 s2 ->
  sim_run strict (run fuel inputs s1) (run fuel (f <$> inputs) s2).
Proof.
  intros Hf. induction inputs as [|i inputs IH]; intros s1 s2 H; simpl.
  - done.
  - destruct (Hf i s1 s2 H) as [Hr Hs].
    destruct (step fuel i s1) as [r1 t1], (step fuel (f i) s2) as [r2 t2].
    simpl in *. subst r2. destruct r1; by try apply IH.
Qed.

(** A pool from construction on. *)
Definition pool_run (fuel : nat) (slots : Z)
    (cls : option (option string -> option proxy_factory))
    (js : option string) (v : Z) (env : environ) (inputs : list input)
    : option state :=
  match new_pool fuel slots cls js v env with
  | (Ok _, st) => run fuel inputs st
  | _ => None
  end.

(* ===================================================================== *)
(** ** What no method of the pool touches *)
(* ===================================================================== *)

(** A property of the state that the seven setters used by the methods
    keep is kept by every method, whatever it returns. *)
Create HintDb keep.

Definition keeps {A} (P : state -> Prop) (m : M A) : Prop :=
  forall s, P s -> P (m s).2.

Section Keeps.

Context (P : state -> Prop).
Hypothesis P_active : forall f s, P s -> P (with_active f s).
Hypothesis P_waiting : forall l s, P s -> P (with_waiting l s).
Hypothesis P_pending : forall l s, P s -> P (with_pending l s).
Hypothesis P_deferreds : forall f s, P s -> P (with_deferreds f s).
Hypothesis P_renders : forall f s, P s -> P (with_renders f s).
Hypothesis P_bump : forall c s, P s -> P (bump c s).
Hypothesis P_emit : forall e s, P s -> P (emit e s).

Lemma keeps_ret {A} (a : A) : keeps P (ret a).
Proof using Type. by intros s H. Qed.

Lemma keeps_raise {A} e : keeps P (raise (A := A) e).
Proof using Type. by intros s H. Qed.

Lemma keeps_out_of_fuel {A} : keeps P (out_of_fuel (A := A)).
Proof using Type. by intros s H. Qed.

Lemma keeps_gets {A} (f : state -> A) : keeps P (gets f).
Proof using Type. by intros s H. Qed.

Lemma keeps_bind {A B} (m : M A) (k : A -> M B) :
  keeps P m -> (forall a, keeps P (k a)) -> keeps P (bind m k).
Proof using Type.
  intros Hm Hk s H. unfold bind. specialize (Hm s H).
  destruct (m s) as [[a|e|] t]; simpl in *; [by apply Hk|done|done].
Qed.

Lemma keeps_try {A} (m : M A) (h : exn -> M A) :
  keeps P m -> (forall e, keeps P (h e)) -> keeps P (try_except m h).
Proof using Type.
  intros Hm Hh s H. unfold try_except. specialize (Hm s H).
  destruct (m s) as [[a|e|] t]; simpl in *; [done|by apply Hh|done].
Qed.

Lemma keeps_attempt {A} (m : M A) : keeps P m -> keeps P (attempt m).
Proof using Type.
  intros Hm s H. unfold attempt. specialize (Hm s H).
  by destruct (m s) as [[a|e|] t].
Qed.

Lemma keeps_modify g : (forall s, P s -> P (g s)) -> keeps P (modify g).
Proof using Type. intros Hg s H. by apply Hg. Qed.

Lemma keeps_when {b} (m : M unit) : keeps P m -> keeps P (when b m).
Proof using Type. intros Hm. destruct b; [done|apply keeps_ret]. Qed.

Lemma keeps_get_d d : keeps P (get_d d).
Proof using Type. intros s H. unfold get_d. by destruct (deferreds s !! d). Qed.

Lemma keeps_get_render r : keeps P (get_render r).
Proof using Type. intros s H. unfold get_render. by destruct (renders s !! r). Qed.

Hint Resolve keeps_ret keeps_raise keeps_out_of_fuel keeps_gets
  keeps_get_d keeps_get_render P_active P_waiting P_pending P_deferreds
  P_renders P_bump P_emit : keep.

Ltac keep_step :=
  first
    [ solve [eauto 3 with keep]
    | apply keeps_bind; [|intros ?]
    | apply keeps_try; [|intros ?]
    | apply keeps_attempt
    | apply keeps_when
    | apply keeps_modify; solve [eauto 3 with keep]
    | match goal with
      | |- keeps _ (match ?x with _ => _ end) => destruct x
      end ].

Ltac keep := repeat keep_step.

Lemma keeps_set_d d df : keeps P (set_d d df).
Proof using P_deferreds. unfold set_d. keep. Qed.
Hint Resolve keeps_set_d : keep.

Lemma keeps_update_d d f : keeps P (update_d d f).
Proof using P_deferreds. unfold update_d. keep. Qed.

Lemma keeps_log_msg sys t : keeps P (log_msg sys t).
Proof using P_emit. unfold log_msg. keep. Qed.
Hint Resolve keeps_update_d keeps_log_msg : keep.

Lemma keeps_log t : keeps P (log t).
Proof using P_emit. unfold log. keep. Qed.

Lemma keeps_network_manager_factory : keeps P network_manager_factory.
Proof using P_bump P_emit. unfold network_manager_factory. keep. Qed.

Lemma keeps_construct cls nm spf ro v : keeps P (construct cls nm spf ro v).
Proof using All. unfold construct. keep. Qed.

Lemma keeps_render_close s r : keeps P (render_close s r).
Proof using P_emit. unfold render_close. keep. Qed.

Lemma keeps_render_urls l : keeps P (render_urls l).
Proof using Type. intros s H. by rewrite render_urls_eq. Qed.

Lemma keeps_json_dumps d : keeps P (json_dumps d).
Proof using Type. unfold json_dumps. keep. Qed.

Lemma keeps_redis_set k d : keeps P (redis_set k d).
Proof using P_emit. unfold redis_set. keep. Qed.
Hint Resolve keeps_log keeps_network_manager_factory keeps_construct
  keeps_render_close keeps_render_urls keeps_json_dumps keeps_redis_set
  : keep.

Lemma keeps_debug_update : keeps P debug_update.
Proof using P_emit. unfold debug_update. keep. Qed.
Hint Resolve keeps_debug_update : keep.

Section KeepsMethods.

Context (rec : rec_call -> M unit).
Hypothesis Hrec : forall c, keeps P (rec c).
Hint Resolve Hrec : keep.

Lemma keeps_startRunCallbacks d v : keeps P (_startRunCallbacks rec d v).
Proof using All. unfold _startRunCallbacks. keep. Qed.
Hint Resolve keeps_startRunCallbacks : keep.

Lemma keeps_callback d v : keeps P (callback rec d v).
Proof using All. unfold callback. keep. Qed.

Lemma keeps_errback d e : keeps P (errback rec d e).
Proof using All. unfold errback. keep. Qed.

Lemma keeps_addCallbacks d cb eb : keeps P (addCallbacks rec d cb eb).
Proof using All. unfold addCallbacks. keep. Qed.
Hint Resolve keeps_callback keeps_errback keeps_addCallbacks : keep.

Lemma keeps_cancelGet d : keeps P (_cancelGet d).
Proof using All. unfold _cancelGet. keep. Qed.

Lemma keeps_put a : keeps P (put rec a).
Proof using All. unfold put. keep. Qed.

Lemma keeps_get : keeps P get.
Proof using All. unfold get. keep. Qed.
Hint Resolve keeps_cancelGet keeps_put keeps_get : keep.

Lemma keeps_cancel d : keeps P (cancel rec d).
Proof using All. unfold cancel. keep. Qed.

Lemma keeps_render cls ro proxy kw : keeps P (render rec cls ro proxy kw).
Proof using All. unfold render. keep. Qed.

Lemma keeps_wait_for_render v s lg : keeps P (_wait_for_render rec v s lg).
Proof using All. unfold _wait_for_render, addCallback, addBoth. keep. Qed.

Lemma keeps_render_start r kw : keeps P (render_start rec r kw).
Proof using All. unfold render_start. keep. Qed.
Hint Resolve keeps_cancel keeps_render keeps_wait_for_render
  keeps_render_start : keep.

Lemma keeps_start_render v s : keeps P (_start_render rec v s).
Proof using All.
  unfold _start_render, chainDeferred, addErrback, addBoth. keep.
Qed.

Lemma keeps_error v r s : keeps P (_error v r s).
Proof using All. unfold _error. keep. Qed.

Lemma keeps_close_render v r s : keeps P (_close_render rec v r s).
Proof using All. unfold _close_render. keep. Qed.
Hint Resolve keeps_start_render keeps_error keeps_close_render : keep.

Lemma keeps_call f v : keeps P (call rec f v).
Proof using All. unfold call. keep. Qed.
Hint Resolve keeps_call : keep.

Lemma keeps_runCallbacks d : keeps P (_runCallbacks rec d).
Proof using All. unfold _runCallbacks. keep. Qed.

End KeepsMethods.

Lemma keeps_exec fuel c : keeps P (exec fuel c).
Proof using All.
  revert c. induction fuel as [|fuel IH]; intros c.
  - apply keeps_out_of_fuel.
  - destruct c.
    + rewrite exec_run. by apply keeps_runCallbacks.
    + rewrite exec_cancel. by apply keeps_cancel.
Qed.

Lemma keeps_for_range ns (b : nat -> M unit) :
  (forall n, keeps P (b n)) -> keeps P (for_range ns b).
Proof using Type.
  intros Hb. induction ns as [|n ns IH]; simpl.
  - apply keeps_ret.
  - apply keeps_bind; [apply Hb|intros _; apply IH].
Qed.

End Keeps.

Lemma keeps_step (P : state -> Prop) fuel i :
  (forall f s, P s -> P (with_active f s)) ->
  (forall l s, P s -> P (with_waiting l s)) ->
  (forall l s, P s -> P (with_pending l s)) ->
  (forall f s, P s -> P (with_deferreds f s)) ->
  (forall f s, P s -> P (with_renders f s)) ->
  (forall c s, P s -> P (bump c s)) ->
  (forall e s, P s -> P (emit e s)) ->
  (forall up now s, P s -> P (with_world up now s)) ->
  keeps P (step fuel i).
Proof.
  intros H1 H2 H3 H4 H5 H6 H7 H8.
  assert (Hx : forall c, keeps P (exec fuel c)) by (intros c; by apply keeps_exec).
  destruct i as [cls ro proxy kw|r o|up now]; simpl.
  - apply keeps_bind; [by apply keeps_render|intros _; apply keeps_ret].
  - apply keeps_bind; [apply keeps_gets|intros rs].
    destruct (rs !! r); [|apply keeps_ret].
    destruct o; [by apply keeps_callback|by apply keeps_errback].
  - apply keeps_modify. intros s. apply H8.
Qed.

Lemma keeps_run (P : state -> Prop) fuel inputs :
  (forall i, keeps P (step fuel i)) ->
  forall s s', P s -> run fuel inputs s = Some s' -> P s'.
Proof.
  intros Hs. induction inputs as [|i inputs IH]; intros s s' H; simpl.
  - by intros [= <-].
  - specialize (Hs i s H). destruct (step fuel i s) as [[[]|e|] t]; simpl in *;
      [by apply IH|by apply IH|done].
Qed.

(** [__init__]: once the arguments are stored, the rest keeps what the
    methods keep. *)
Lemma init_keeps (P : state -> Prop) rec slots cls js v env s :
  (forall f s, P s -> P (with_active f s)) ->
  (forall l s, P s -> P (with_waiting l s)) ->
  (forall l s, P s -> P (with_pending l s)) ->
  (forall f s, P s -> P (with_deferreds f s)) ->
  (forall f s, P s -> P (with_renders f s)) ->
  (forall c s, P s -> P (bump c s)) ->
  (forall e s, P s -> P (emit e s)) ->
  (forall key host port s, P s -> P (with_debug key host port s)) ->
  (forall c, keeps P (rec c)) ->
  P (with_config
       (match cls with Some c => c | None => fun _ => None end) js v s) ->
  P (__init__ rec slots cls js v env s).2.
Proof.
  intros H1 H2 H3 H4 H5 H6 H7 H8 Hrec H0.
  unfold __init__. unfold bind at 1. unfold modify at 1. cbv beta iota.
  revert H0. generalize (with_config
       (match cls with Some c => c | None => fun _ => None end) js v s).
  apply keeps_bind.
  { apply keeps_for_range. intros n.
    apply keeps_bind; [by apply keeps_wait_for_render|intros _; apply keeps_ret]. }
  intros _. apply keeps_bind.
  { destruct (REDIS_PORT env) as [[]|]; (apply keeps_ret || apply keeps_raise). }
  intros port. apply keeps_bind; [by apply keeps_log_msg|intros _].
  apply keeps_modify. intros s'. apply H8.
Qed.

Lemma init_config fuel slots cls js v env :
  js_profiles_path (new_pool fuel slots cls js v env).2 = js /\
  splash_proxy_factory_cls (new_pool fuel slots cls js v env).2 =
    match cls with Some c => c | None => fun _ => None end.
Proof.
  apply (init_keeps (fun s => js_profiles_path s = js /\
    splash_proxy_factory_cls s =
      match cls with Some c => c | None => fun _ => None end)); try done.
  intros c. by apply keeps_exec.
Qed.

Lemma run_config fuel inputs s s' :
  run fuel inputs s = Some s' ->
  js_profiles_path s' = js_profiles_path s /\
  splash_proxy_factory_cls s' = splash_proxy_factory_cls s /\
  verbosity s' = verbosity s.
Proof.
  apply (keeps_run (fun t => js_profiles_path t = js_profiles_path s /\
    splash_proxy_factory_cls t = splash_proxy_factory_cls s /\
    verbosity t = verbosity s)); [|done].
  intros i. by apply keeps_step.
Qed.

(* ===================================================================== *)
(** ** Where the proxy factory of a job travels *)
(* ===================================================================== *)

(** The proxy factory made by [render] is put in the tuple, the tuple
    goes through the queue and the deferred of a [get], and
    [_start_render] hands it to the constructor of the render.  A pool is
    [unproxied] when no proxy factory is anywhere on that way. *)
Definition no_proxy (a : slot_args) : Prop :=
  sa_splash_proxy_factory a = None.

Definition no_proxy_val (v : value) : Prop :=
  match v with
  | VArgs a => no_proxy a
  | _ => True
  end.

(** The renders constructed so far, in order, each with the proxy factory
    its constructor was given. *)
Definition construct_of (e : event) : option (nat * option proxy_factory) :=
  match e with
  | EConstruct r _ spf _ _ => Some (r, spf)
  | _ => None
  end.

Definition constructed (tr : list event)
    : list (nat * option proxy_factory) :=
  omap construct_of tr.

Definition unproxied_renders (n : nat) : list (nat * option proxy_factory) :=
  (fun r => (r, None)) <$> seq 0 n.

Record unproxied (s : state) : Prop := {
  up_cls : forall p, splash_proxy_factory_cls s p = None;
  up_pending : Forall no_proxy (queue_pending s);
  up_results : forall d df,
      deferreds s !! d = Some df -> no_proxy_val (result df);
  up_renders : forall r obj,
      renders s !! r = Some obj -> r_splash_proxy_factory obj = None;
  up_trace : constructed (trace s) = unproxied_renders (next_render s);
}.

(** [m] keeps the pool unproxied, and what it returns satisfies [Q]. *)
Definition yields {A} (m : M A) (Q : A -> Prop) : Prop :=
  forall s, unproxied s ->
    unproxied (m s).2 /\ forall a, (m s).1 = Ok a -> Q a.

Definition anything {A} (_ : A) : Prop := True.

Lemma yields_ret {A} (a : A) (Q : A -> Prop) : Q a -> yields (ret a) Q.
Proof. intros H s Hs. split; [done|]. by intros ? [= <-]. Qed.

Lemma yields_raise {A} e (Q : A -> Prop) : yields (raise e) Q.
Proof. intros s Hs. by split. Qed.

Lemma yields_out_of_fuel {A} (Q : A -> Prop) : yields out_of_fuel Q.
Proof. intros s Hs. by split. Qed.

Lemma yields_bind {A B} (m : M A) (k : A -> M B) Q R :
  yields m Q -> (forall a, Q a -> yields (k a) R) -> yields (bind m k) R.
Proof.
  intros Hm Hk s Hs. unfold bind. destruct (Hm s Hs) as [H1 H2].
  destruct (m s) as [[a|e|] t]; simpl in *; [|by split|by split].
  by apply Hk; [apply H2|].
Qed.

Lemma yields_weaken {A} (m : M A) (Q R : A -> Prop) :
  yields m Q -> (forall a, Q a -> R a) -> yields m R.
Proof.
  intros Hm HQ s Hs. destruct (Hm s Hs) as [H1 H2]. split; [done|].
  intros a Ha. by apply HQ, H2.
Qed.

Lemma yields_any {A} (m : M A) Q : yields m Q -> yields m anything.
Proof. intros H. by apply (yields_weaken m Q). Qed.

Lemma yields_try {A} (m : M A) (h : exn -> M A) Q :
  yields m Q -> (forall e, yields (h e) Q) -> yields (try_except m h) Q.
Proof.
  intros Hm Hh s Hs. unfold try_except. destruct (Hm s Hs) as [H1 H2].
  destruct (m s) as [[a|e|] t]; simpl in *; [by split|by apply Hh|by split].
Qed.

Lemma yields_attempt {A} (m : M A) Q :
  yields m Q ->
  yields (attempt m)
    (fun r => match r with Returns a => Q a | Raises _ => True end).
Proof.
  intros Hm s Hs. unfold attempt. destruct (Hm s Hs) as [H1 H2].
  destruct (m s) as [[a|e|] t]; simpl in *; (split; [done|]).
  - intros ? [= <-]. by apply H2.
  - by intros ? [= <-].
  - done.
Qed.

Lemma yields_gets {A} (f : state -> A) (Q : A -> Prop) :
  (forall s, unproxied s -> Q (f s)) -> yields (gets f) Q.
Proof. intros H s Hs. split; [done|]. intros ? [= <-]. by apply H. Qed.

Lemma yields_modify g :
  (forall s, unproxied s -> unproxied (g s)) -> yields (modify g) anything.
Proof. intros H s Hs. split; [by apply H|done]. Qed.

Lemma yields_when b (m : M unit) Q :
  yields m Q -> yields (when b m) anything.
Proof.
  intros H. destruct b; [by apply (yields_any _ Q)|by apply yields_ret].
Qed.

(** The setters. *)
Lemma up_active f s : unproxied s -> unproxied (with_active f s).
Proof. by intros []. Qed.

Lemma up_waiting l s : unproxied s -> unproxied (with_waiting l s).
Proof. by intros []. Qed.

Lemma up_bump c s : c <> CRender -> unproxied s -> unproxied (bump c s).
Proof. intros Hc []. by destruct c. Qed.

Lemma up_world up now s : unproxied s -> unproxied (with_world up now s).
Proof. by intros []. Qed.

Lemma up_debug key host port s :
  unproxied s -> unproxied (with_debug key host port s).
Proof. by intros []. Qed.

Lemma up_pending' l s :
  Forall no_proxy l -> unproxied s -> unproxied (with_pending l s).
Proof. by intros ? []. Qed.

Lemma up_insert d df s :
  no_proxy_val (result df) -> unproxied s ->
  unproxied (with_deferreds (<[d := df]>) s).
Proof.
  intros H []. split; try done. simpl. intros d' df'.
  destruct (decide (d = d')) as [->|Hne].
  - rewrite lookup_insert_eq. by intros [= <-].
  - rewrite lookup_insert_ne by done. eauto.
Qed.

Lemma up_render r obj s :
  r_splash_proxy_factory obj = None -> unproxied s ->
  unproxied (with_renders (<[r := obj]>) s).
Proof.
  intros H []. split; try done. simpl. intros r' obj'.
  destruct (decide (r = r')) as [->|Hne].
  - rewrite lookup_insert_eq. by intros [= <-].
  - rewrite lookup_insert_ne by done. eauto.
Qed.

Lemma constructed_app l1 l2 :
  constructed (l1 ++ l2) = constructed l1 ++ constructed l2.
Proof. apply omap_app. Qed.

Lemma up_emits l s :
  constructed l = [] -> unproxied s -> unproxied (emits l s).
Proof.
  intros H []. split; try done. simpl.
  by rewrite constructed_app, H, app_nil_r.
Qed.

Lemma up_emit e s :
  construct_of e = None -> unproxied s -> unproxied (emit e s).
Proof.
  intros H []. split; try done. simpl.
  rewrite constructed_app. unfold constructed at 2. simpl. rewrite H.
  by rewrite app_nil_r.
Qed.

(** The primitives. *)
Lemma yields_get_d d : yields (get_d d) (fun df => no_proxy_val (result df)).
Proof.
  intros s Hs. unfold get_d. destruct (deferreds s !! d) as [df|] eqn:E.
  - split; [done|]. intros ? [= <-]. by eapply up_results.
  - by split.
Qed.

Lemma yields_get_render r :
  yields (get_render r) (fun obj => r_splash_proxy_factory obj = None).
Proof.
  intros s Hs. unfold get_render. destruct (renders s !! r) as [obj|] eqn:E.
  - split; [done|]. intros ? [= <-]. by eapply up_renders.
  - by split.
Qed.

Lemma yields_set_d d df :
  no_proxy_val (result df) -> yields (set_d d df) anything.
Proof. intros H. apply yields_modify. intros s. by apply up_insert. Qed.

Lemma yields_update_d d f :
  (forall df, no_proxy_val (result df) -> no_proxy_val (result (f df))) ->
  yields (update_d d f) anything.
Proof.
  intros H. unfold update_d. eapply yields_bind; [apply yields_get_d|].
  intros df Hdf. apply yields_set_d. by apply H.
Qed.

Lemma yields_emit e :
  construct_of e = None -> yields (modify (emit e)) anything.
Proof. intros H. apply yields_modify. intros s. by apply up_emit. Qed.

Lemma yields_log t : yields (log t) anything.
Proof.
  unfold log. eapply yields_bind; [by apply (yields_gets _ anything)|].
  intros v _. destruct (2 <=? v)%Z; [by apply yields_emit|by apply yields_ret].
Qed.

Lemma yields_network_manager_factory :
  yields network_manager_factory anything.
Proof.
  unfold network_manager_factory.
  eapply yields_bind; [by apply (yields_gets _ anything)|]. intros nm _.
  eapply yields_bind; [apply yields_modify; intros ?; by apply up_bump|]. intros _ _.
  eapply yields_bind; [by apply yields_emit|]. intros _ _.
  by apply yields_ret.
Qed.

(** The constructor of a render is where the count of renders and the
    trace move together. *)
Lemma yields_construct cls nm ro v :
  yields (construct cls nm None ro v) anything.
Proof.
  intros s Hs. split; [|done].
  unfold construct, bind, gets, modify, set_d, ret. simpl.
  destruct Hs. split; simpl; try done.
  - intros d df. destruct (decide (DRender (next_render s) = d)) as [<-|Hne].
    + rewrite lookup_insert_eq. by intros [= <-].
    + rewrite lookup_insert_ne by done. eauto.
  - intros r obj. destruct (decide (next_render s = r)) as [<-|Hne].
    + rewrite lookup_insert_eq. by intros [= <-].
    + rewrite lookup_insert_ne by done. eauto.
  - rewrite constructed_app, up_trace0. unfold unproxied_renders.
    by rewrite seq_S, fmap_app.
Qed.

Lemma yields_render_close s r : yields (render_close s r) anything.
Proof.
  unfold render_close.
  eapply yields_bind; [apply yields_get_render|]. intros obj _.
  eapply yields_bind; [by apply yields_emit|]. intros _ _.
  destruct (on_close _); [by apply yields_ret|apply yields_raise].
Qed.

Lemma constructed_debug_events key up now us :
  constructed (debug_events key up now us) = [].
Proof. unfold debug_events. by destruct (all_str us), up. Qed.

Lemma yields_debug_update : yields debug_update anything.
Proof.
  intros s Hs. rewrite debug_update_eq.
  destruct (urls_of _ _) as [us|e]; [|by split].
  split; [|done]. apply up_emits; [apply constructed_debug_events|done].
Qed.

Section YieldsMethods.

Context (rec : rec_call -> M unit).
Hypothesis Hrec : forall c, yields (rec c) anything.

Lemma yields_startRunCallbacks d v :
  no_proxy_val v -> yields (_startRunCallbacks rec d v) anything.
Proof using Hrec.
  intros Hv. unfold _startRunCallbacks.
  eapply yields_bind; [apply yields_get_d|]. intros df Hdf.
  destruct (called df).
  - destruct (suppress df); [by apply yields_set_d|apply yields_raise].
  - eapply yields_bind; [by apply yields_set_d|]. intros _ _. apply Hrec.
Qed.

Lemma yields_callback d v :
  no_proxy_val v -> yields (callback rec d v) anything.
Proof using Hrec.
  intros Hv. unfold callback.
  destruct (is_deferred v); [apply yields_raise|].
  by apply yields_startRunCallbacks.
Qed.

Lemma yields_errback d e : yields (errback rec d e) anything.
Proof using Hrec. by apply yields_startRunCallbacks. Qed.

Lemma yields_addCallbacks d cb eb :
  yields (addCallbacks rec d cb eb) anything.
Proof using Hrec.
  unfold addCallbacks.
  eapply yields_bind; [apply yields_get_d|]. intros df Hdf.
  eapply yields_bind; [by apply yields_set_d|]. intros _ _.
  destruct (called df); [apply Hrec|by apply yields_ret].
Qed.

Lemma yields_cancelGet d : yields (_cancelGet d) anything.
Proof using Type.
  unfold _cancelGet.
  eapply yields_bind; [by apply (yields_gets _ anything)|]. intros w _.
  destruct (bool_decide _); [|apply yields_raise].
  apply yields_modify, up_waiting.
Qed.

Lemma yields_gets_pending : yields (gets queue_pending) (Forall no_proxy).
Proof using Type. apply yields_gets. by intros s []. Qed.

Lemma yields_put a : no_proxy a -> yields (put rec a) anything.
Proof using Hrec.
  intros Ha. unfold put.
  eapply yields_bind; [by apply (yields_gets _ anything)|]. intros w _.
  destruct w as [|d rest].
  - eapply yields_bind; [apply yields_gets_pending|]. intros p Hp.
    apply yields_modify. intros s. apply up_pending'.
    apply Forall_app. split; [done|]. by apply Forall_singleton.
  - eapply yields_bind; [apply yields_modify, up_waiting|]. intros _ _.
    by apply yields_callback.
Qed.

Lemma yields_get : yields get anything.
Proof using Type.
  unfold get.
  eapply yields_bind; [apply yields_gets_pending|]. intros p Hp.
  eapply yields_bind; [by apply (yields_gets _ anything)|]. intros k _.
  eapply yields_bind; [apply yields_modify; intros ?; by apply up_bump|]. intros _ _.
  destruct p as [|obj rest].
  - eapply yields_bind; [by apply yields_set_d|]. intros _ _.
    eapply yields_bind; [by apply (yields_gets _ anything)|]. intros w _.
    eapply yields_bind; [apply yields_modify, up_waiting|]. intros _ _.
    by apply yields_ret.
  - apply Forall_cons in Hp as [Hobj Hrest].
    eapply yields_bind; [apply yields_modify; intros s; by apply up_pending'|].
    intros _ _.
    eapply yields_bind; [by apply yields_set_d|]. intros _ _.
    by apply yields_ret.
Qed.

Lemma yields_cancel d : yields (cancel rec d) anything.
Proof using Hrec.
  unfold cancel.
  eapply yields_bind; [apply yields_get_d|]. intros df Hdf.
  destruct (called df).
  - destruct (result df); first [apply Hrec|by apply yields_ret].
  - eapply yields_bind.
    { destruct (canceller df); [apply yields_cancelGet|by apply yields_set_d]. }
    intros _ _.
    eapply yields_bind; [apply yields_get_d|]. intros df' _.
    destruct (called df'); [by apply yields_ret|apply yields_errback].
Qed.

Lemma yields_render cls ro proxy kw :
  yields (render rec cls ro proxy kw) anything.
Proof using Hrec.
  unfold render.
  eapply yields_bind.
  { apply (yields_gets _ (fun c => forall p, c p = None)). by intros s []. }
  intros c Hc.
  eapply yields_bind; [by apply (yields_gets _ anything)|]. intros j _.
  eapply yields_bind; [apply yields_modify; intros ?; by apply up_bump|]. intros _ _.
  eapply yields_bind; [by apply yields_set_d|]. intros _ _.
  eapply yields_bind; [apply yields_put; apply Hc|]. intros _ _.
  eapply yields_bind; [apply yields_log|]. intros _ _.
  by apply yields_ret.
Qed.

Lemma yields_wait_for_render v s lg :
  no_proxy_val v -> yields (_wait_for_render rec v s lg) no_proxy_val.
Proof using Hrec.
  intros Hv. unfold _wait_for_render, addCallback, addBoth.
  eapply yields_bind; [eapply yields_when, yields_log|]. intros _ _.
  eapply yields_bind; [apply yields_get|]. intros d _.
  eapply yields_bind; [apply yields_addCallbacks|]. intros _ _.
  eapply yields_bind; [apply yields_addCallbacks|]. intros _ _.
  by apply yields_ret.
Qed.

Lemma yields_render_start r kw : yields (render_start rec r kw) anything.
Proof using Hrec.
  unfold render_start.
  eapply yields_bind; [apply yields_get_render|]. intros obj _.
  eapply yields_bind; [by apply yields_emit|]. intros _ _.
  destruct (on_start _) as [|[s|e]|e].
  - by apply yields_ret.
  - by apply yields_callback.
  - apply yields_errback.
  - apply yields_raise.
Qed.

Lemma yields_start_render v s :
  no_proxy_val v -> yields (_start_render rec v s) no_proxy_val.
Proof using Hrec.
  intros Hv. unfold _start_render, chainDeferred, addErrback, addBoth.
  eapply yields_bind; [apply yields_log|]. intros _ _.
  destruct v as [|a| | |]; try apply yields_raise.
  simpl in Hv. unfold no_proxy in Hv. rewrite Hv.
  eapply yields_bind; [by apply yields_emit|]. intros _ _.
  eapply yields_bind; [apply yields_network_manager_factory|]. intros nm _.
  eapply yields_bind; [by apply (yields_gets _ anything)|]. intros vb _.
  eapply yields_bind; [apply yields_construct|]. intros r _.
  eapply yields_bind; [apply yields_modify, up_active|]. intros _ _.
  eapply yields_bind; [by apply yields_emit|]. intros _ _.
  eapply yields_bind; [apply yields_debug_update|]. intros _ _.
  eapply yields_bind; [apply yields_get_render|]. intros obj _.
  eapply yields_bind; [apply yields_addCallbacks|]. intros _ _.
  eapply yields_bind; [apply yields_addCallbacks|]. intros _ _.
  eapply yields_bind; [apply yields_addCallbacks|]. intros _ _.
  eapply yields_bind; [apply yields_log|]. intros _ _.
  eapply yields_bind.
  { apply yields_try; [apply yields_render_start|]. intros e.
    eapply yields_bind; [apply yields_errback|]. intros _ _.
    apply yields_raise. }
  intros _ _.
  eapply yields_bind; [apply yields_log|]. intros _ _.
  by apply yields_ret.
Qed.

Lemma yields_error v r s :
  no_proxy_val v -> yields (_error v r s) no_proxy_val.
Proof using Type.
  intros Hv. unfold _error.
  eapply yields_bind; [apply yields_get_render|]. intros obj _.
  eapply yields_bind; [apply yields_log|]. intros _ _.
  by apply yields_ret.
Qed.

Lemma yields_close_render v r s :
  no_proxy_val v -> yields (_close_render rec v r s) no_proxy_val.
Proof using Hrec.
  intros Hv. unfold _close_render.
  eapply yields_bind; [apply yields_get_render|]. intros obj _.
  eapply yields_bind; [apply yields_log|]. intros _ _.
  eapply yields_bind; [by apply (yields_gets _ anything)|]. intros act _.
  eapply yields_bind.
  { destruct (bool_decide _); [|apply (yields_raise _ anything)].
    eapply yields_bind; [apply yields_modify, up_active|]. intros _ _.
    by apply yields_emit. }
  intros _ _.
  eapply yields_bind; [apply yields_debug_update|]. intros _ _.
  eapply yields_bind; [by apply yields_emit|]. intros _ _.
  eapply yields_bind; [apply yields_cancel|]. intros _ _.
  eapply yields_bind; [apply yields_render_close|]. intros _ _.
  eapply yields_bind; [apply yields_log|]. intros _ _.
  by apply yields_ret.
Qed.

Lemma yields_call f v :
  no_proxy_val v -> yields (call rec f v) no_proxy_val.
Proof using Hrec.
  intros Hv. destruct f; simpl.
  - by apply yields_ret.
  - by apply yields_start_render.
  - by apply yields_wait_for_render.
  - by apply yields_error.
  - by apply yields_close_render.
  - eapply yields_bind; [by apply yields_callback|]. intros _ _.
    by apply yields_ret.
  - eapply yields_bind.
    { destruct v; first [apply yields_errback|apply (yields_raise _ anything)]. }
    intros _ _. by apply yields_ret.
Qed.

Lemma yields_runCallbacks d : yields (_runCallbacks rec d) anything.
Proof using Hrec.
  unfold _runCallbacks.
  eapply yields_bind; [apply yields_get_d|]. intros df Hdf.
  destruct (running df); [by apply yields_ret|].
  destruct (0 <? paused df); [by apply yields_ret|].
  destruct (callbacks df) as [|[cb eb|chainee] rest]; [by apply yields_ret| |].
  - eapply yields_bind; [by apply yields_set_d|]. intros _ _.
    eapply yields_bind; [by apply yields_attempt, yields_call|]. intros r Hr.
    eapply yields_bind; [by apply yields_update_d|]. intros _ _.
    destruct r as [v|e].
    + destruct v as [|a|p|e|inner];
        try (eapply yields_bind; [by apply yields_update_d|];
             intros _ _; apply Hrec).
      eapply yields_bind; [apply yields_get_d|]. intros idf Hidf.
      destruct (_ || _).
      * eapply yields_bind; [by apply yields_update_d|]. intros _ _.
        by apply yields_update_d.
      * eapply yields_bind; [by apply yields_set_d|]. intros _ _.
        eapply yields_bind; [by apply yields_update_d|]. intros _ _.
        apply Hrec.
    + eapply yields_bind; [by apply yields_update_d|]. intros _ _.
      apply Hrec.
  - eapply yields_bind; [by apply yields_set_d|]. intros _ _.
    eapply yields_bind; [apply yields_get_d|]. intros cf _.
    eapply yields_bind; [by apply yields_set_d|]. intros _ _.
    eapply yields_bind; [apply Hrec|]. intros _ _. apply Hrec.
Qed.

End YieldsMethods.

Lemma yields_exec fuel c : yields (exec fuel c) anything.
Proof.
  revert c. induction fuel as [|fuel IH]; intros c.
  - apply yields_out_of_fuel.
  - destruct c.
    + rewrite exec_run. by apply yields_runCallbacks.
    + rewrite exec_cancel. by apply yields_cancel.
Qed.

Lemma unproxied_step fuel i : keeps unproxied (step fuel i).
Proof.
  assert (Hx := yields_exec fuel).
  assert (H : yields (step fuel i) anything).
  { destruct i as [cls ro proxy kw|r o|up now]; simpl.
    - eapply yields_bind; [by apply yields_render|]. intros _ _.
      by apply yields_ret.
    - eapply yields_bind; [by apply (yields_gets _ anything)|]. intros rs _.
      destruct (rs !! r); [|by apply yields_ret].
      destruct o; [by apply yields_callback|by apply yields_errback].
    - apply yields_modify. intros s. apply up_world. }
  intros s Hs. by destruct (H s Hs).
Qed.

(** The constructor of a pool whose class of proxy factories returns
    [None] for every profile, and the constructor without one. *)
Lemma unproxied_init fuel slots cls js v env :
  match cls with Some c => forall p, c p = None | None => True end ->
  unproxied (new_pool fuel slots cls js v env).2.
Proof.
  intros Hcls. unfold new_pool, __init__.
  unfold bind at 1, modify at 1. cbv beta iota.
  assert (H0 : unproxied (with_config
                        match cls with Some c => c | None => fun _ => None end
                        js v blank)).
  { split; try done. simpl. by destruct cls. }
  revert H0. generalize (with_config
                        match cls with Some c => c | None => fun _ => None end
                        js v blank).
  assert (Hx := yields_exec fuel).
  assert (H : yields
    (for_range (seq 0 (Z.to_nat slots))
       (fun n => _wait_for_render (exec fuel) VNone n false ;; ret tt) ;;
     port <- match REDIS_PORT env with
             | Some (Returns p) => ret p
             | Some (Raises e) => raise e
             | None => ret 6379%Z
             end ;;
     log_msg "debug-urls"
       (LogRedis match REDIS_HOST env with Some h => h | None => "127.0.0.1" end
          port) ;;
     modify (with_debug
       ("splash-urls-" +:+
          match MESOS_TASK_ID env with Some t => t | None => uuid4 env end)
       match REDIS_HOST env with Some h => h | None => "127.0.0.1" end port))
    anything).
  { eapply yields_bind.
    { instantiate (1 := anything).
      induction (seq 0 (Z.to_nat slots)) as [|n ns IH]; simpl.
      - by apply yields_ret.
      - eapply yields_bind; [|intros _ _; apply IH].
        eapply yields_bind; [by apply yields_wait_for_render|]. intros _ _.
        by apply (yields_ret _ anything). }
    intros _ _. eapply yields_bind.
    { instantiate (1 := anything).
      destruct (REDIS_PORT env) as [[]|];
        first [by apply yields_ret|apply yields_raise]. }
    intros port _. eapply yields_bind; [by apply yields_emit|]. intros _ _.
    apply yields_modify. intros s. apply up_debug. }
  intros s Hs. by destruct (H s Hs).
Qed.

Lemma unproxied_run fuel slots cls js v env inputs st :
  match cls with Some c => forall p, c p = None | None => True end ->
  run fuel inputs (new_pool fuel slots cls js v env).2 = Some st ->
  unproxied st.
Proof.
  intros Hcls E.
  eapply (keeps_run unproxied); [|by apply unproxied_init|exact E].
  intros i. apply unproxied_step.
Qed.

(* ===================================================================== *)
(** ** Sample collaborators *)
(* ===================================================================== *)

Definition env0 : environ :=
  {| MESOS_TASK_ID := None; REDIS_HOST := None; REDIS_PORT := None;
     uuid4 := "uuid" |}.

Definition url_ok (u : string) : render_options :=
  {| get_uid := u; get_url := Returns (UrlStr u) |}.

Definition url_bad (u : string) : render_options :=
  {| get_uid := u; get_url := Raises (UnitError 9) |}.

Definition cls_async : rendercls :=
  {| on_start := StartAsync; on_close := Returns tt |}.

Definition cls_sync : rendercls :=
  {| on_start := StartSync (Succeeds "ok"); on_close := Returns tt |}.

Definition cls_raise : rendercls :=
  {| on_start := StartRaises (UnitError 1); on_close := Returns tt |}.

Definition cls_close_raises : rendercls :=
  {| on_start := StartAsync; on_close := Raises (UnitError 7) |}.

(** The handle of job [j], once it has fired. *)
Definition handle_result_of (j : nat) (st : state) : option value :=
  match deferreds st !! DPool j with
  | Some df => if called df then Some (result df) else None
  | None => None
  end.

Definition is_store_write (e : event) : bool :=
  match e with ERedisSet _ _ _ => true | _ => false end.

Definition is_submit (i : input) : bool :=
  match i with Submit _ _ _ _ => true | _ => false end.

Definition is_log (e : event) : bool :=
  match e with ELog _ _ => true | _ => false end.

(* ===================================================================== *)
(** ** The debug snapshot *)
(* ===================================================================== *)

Lemma close_render_bad_url rec v r s st obj e :
  renders st !! r = Some obj -> r ∈ active st ->
  urls_of (renders st) (elements (active st ∖ {[r]})) = Raises e ->
  _close_render rec v r s st =
    (Raise e,
     with_active (fun a => a ∖ {[r]})
       (emits (log_events (verbosity st)
                 (LogClosing (get_uid (r_render_options obj)) s r)
               ++ [EActiveRemove s r]) st)).
Proof.
  intros Hr Hact Hu.
  unfold _close_render. mred. rewrite Hr, log_eq. simpl.
  rewrite bool_decide_true by done.
  rewrite debug_update_eq. simpl. rewrite Hu.
  f_equal. state_eq.
Qed.

Lemma render_urls_raises l st e st' :
  render_urls l st = (Raise e, st') ->
  urls_of (renders st) l = Raises e /\ st' = st.
Proof.
  rewrite render_urls_eq. destruct (urls_of _ _); by intros [= <- <-].
Qed.

(** C9: in [debug_update] the list of URLs is computed before the [try]:
    an exception of [get_url()] leaves [debug_update] with nothing written
    and nothing logged, and so leaves [_start_render] (the render is in the
    active set by then, nothing of the job is started) and
    [_close_render] (the render is out of the active set, its future is
    not cancelled and [close()] is not called); a failure of
    [json.dumps] or of the store is caught and logged. *)
Theorem C9_get_url_escapes :
  (forall st e,
     render_urls (elements (active st)) st = (Raise e, st) ->
     debug_update st = (Raise e, st)) /\
  (forall rec a s st e,
     render_urls (elements (active (start_pre s a st))) (start_pre s a st)
       = (Raise e, start_pre s a st) ->
     _start_render rec (VArgs a) s st = (Raise e, start_pre s a st) /\
     next_render st ∈ active (start_pre s a st)) /\
  (forall rec v r s st obj e,
     renders st !! r = Some obj -> r ∈ active st ->
     render_urls (elements (active st ∖ {[r]})) st = (Raise e, st) ->
     _close_render rec v r s st =
       (Raise e,
        with_active (fun a => a ∖ {[r]})
          (emits (log_events (verbosity st)
                    (LogClosing (get_uid (r_render_options obj)) s r)
                  ++ [EActiveRemove s r]) st))) /\
  (forall st us,
     render_urls (elements (active st)) st = (Ok us, st) ->
     debug_update st =
       (Ok tt,
        emits (debug_events (debug_key st) (redis_up st) (clock st) us) st)).
Proof.
  repeat split.
  - intros st e H. apply render_urls_raises in H as [H _].
    rewrite debug_update_eq. by rewrite H.
  - apply render_urls_raises in H as [H _].
    by apply start_render_bad_url.
  - simpl. set_solver.
  - intros rec v r s st obj e Hr Hact H.
    apply render_urls_raises in H as [H _].
    by apply close_render_bad_url.
  - intros st us H. rewrite render_urls_eq in H.
    rewrite debug_update_eq. destruct (urls_of _ _); by inversion H.
Qed.

(** A state with one running render whose [get_url()] raises. *)
Definition st_bad_url : state :=
  default blank
    (pool_run 20 1 None None 2 env0 [Submit cls_async (url_bad "b") None []]).

Lemma C9_get_url_escapes_witness :
  debug_update st_bad_url = (Raise (UnitError 9), st_bad_url).
Proof.
  apply (proj1 C9_get_url_escapes st_bad_url (UnitError 9)).
  vm_compute. reflexivity.
Defined.

Lemma debug_events_writes key up now us :
  length (filter (fun e => is_store_write e = true)
            (debug_events key up now us)) <= 1.
Proof.
  unfold debug_events. destruct (all_str us); [|simpl; lia].
  destruct up; simpl; lia.
Qed.

Lemma sim_store_down st : sim false st (with_world false (clock st) st).
Proof. by constructor. Qed.

(** C7: a failure of [json.dumps] or of the write to the store never
    leaves [debug_update]: what leaves it is an exception of [get_url()]
    and nothing else; the write is attempted at most once and its failure
    is one log line.  And a pool whose store is unreachable throughout
    goes through the same states as the same pool with the store in any
    condition: every handle fires with the same result, the traces differ
    in the outcome of the writes and the log lines about them only. *)
Theorem C7_store_errors_logged_only :
  (forall st,
     match debug_update st with
     | (Ok _, st') =>
         exists us,
           render_urls (elements (active st)) st = (Ok us, st) /\
           st' = emits (debug_events (debug_key st) (redis_up st)
                          (clock st) us) st
     | (Raise e, st') =>
         st' = st /\ render_urls (elements (active st)) st = (Raise e, st)
     | (OutOfFuel, _) => False
     end) /\
  (forall key up now us,
     length (filter (fun e => is_store_write e = true)
               (debug_events key up now us)) <= 1 /\
     debug_events key up now us =
       if all_str us then
         if up then [ERedisSet key {| dd_ts := now; dd_urls := us |} true]
         else [ERedisSet key {| dd_ts := now; dd_urls := us |} false;
               ELog "debug-urls" (LogDebugUpdateFailed ConnectionError)]
       else [ELog "debug-urls" (LogDebugUpdateFailed TypeError)]) /\
  (forall fuel inputs st,
     let down := run fuel (store_down <$> inputs)
                   (with_world false (clock st) st) in
     sim_run false (run fuel inputs st) down /\
     deferreds <$> run fuel inputs st = deferreds <$> down /\
     active <$> run fuel inputs st = active <$> down).
Proof.
  split; [|split].
  - intros st. rewrite debug_update_eq, render_urls_eq.
    destruct (urls_of _ _) as [us|e]; [by exists us|done].
  - intros key up now us. split; [apply debug_events_writes|].
    unfold debug_events. by destruct (all_str us), up.
  - intros fuel inputs st down.
    assert (H : sim_run false (run fuel inputs st) down).
    { apply run_related; [apply step_store_down|].
      apply sim_store_down. }
    split; [done|]. unfold sim_run in H.
    destruct (run fuel inputs st), down; try done. simpl.
    by rewrite (sim_deferreds _ _ _ H), (sim_active _ _ _ H).
Qed.

Lemma sim_true_trace s1 s2 : sim true s1 s2 -> trace s1 = trace s2.
Proof. intros H. exact (sim_trace _ _ _ H). Qed.

(** C10: [js_profiles_path] is stored by the constructor and kept as it
    is; two pools built from the same arguments but for it return the same
    from the constructor and, fed the same inputs, end in states that are
    the same but for it: same trace (every log line and every call into
    a collaborator), same handles, same active set, same queue. *)
Theorem C10_js_profiles_path_unused fuel slots cls js1 js2 v env inputs :
  js_profiles_path (new_pool fuel slots cls js1 v env).2 = js1 /\
  (new_pool fuel slots cls js1 v env).1
    = (new_pool fuel slots cls js2 v env).1 /\
  sim true (new_pool fuel slots cls js1 v env).2
           (new_pool fuel slots cls js2 v env).2 /\
  sim_run true
    (run fuel inputs (new_pool fuel slots cls js1 v env).2)
    (run fuel inputs (new_pool fuel slots cls js2 v env).2) /\
  trace <$> run fuel inputs (new_pool fuel slots cls js1 v env).2
    = trace <$> run fuel inputs (new_pool fuel slots cls js2 v env).2 /\
  js_profiles_path <$> run fuel inputs (new_pool fuel slots cls js1 v env).2
    = (fun _ => js1)
        <$> run fuel inputs (new_pool fuel slots cls js1 v env).2.
Proof.
  destruct (init_related true (exec fuel) slots cls js1 js2 v env
              (exec_respects true fuel) blank blank (sim_refl _ _))
    as [Hr Hs].
  assert (H : sim_run true
    (run fuel inputs (new_pool fuel slots cls js1 v env).2)
    (run fuel inputs (new_pool fuel slots cls js2 v env).2)).
  { rewrite <- (list_fmap_id inputs) at 2.
    apply run_related; [intros i; apply step_respects|exact Hs]. }
  split; [apply init_config|]. split; [exact Hr|]. split; [exact Hs|].
  split; [exact H|]. split.
  - unfold sim_run in H.
    destruct (run fuel inputs _), (run fuel inputs _); try done.
    simpl. f_equal. by apply sim_true_trace.
  - destruct (run fuel inputs _) as [s'|] eqn:E; [|done]. simpl. f_equal.
    apply run_config in E as [-> _]. apply init_config.
Qed.

(** The tuple [render] queues in a pool whose proxy factory class is the
    default one. *)
Definition plain_args (cls : rendercls) (ro : render_options) (kw : kwargs)
    (j : nat) : slot_args :=
  {| sa_rendercls := cls; sa_render_options := ro;
     sa_splash_proxy_factory := None; sa_kwargs := kw; sa_pool_d := DPool j |}.

Lemma render_default rec cls ro proxy kw st :
  splash_proxy_factory_cls st = (fun _ => None) ->
  render rec cls ro proxy kw st =
    (put rec (plain_args cls ro kw (next_pool_d st)) ;;
     log (LogQueued (get_uid ro)) ;;
     ret (DPool (next_pool_d st)))
      (with_deferreds (<[DPool (next_pool_d st) := new_deferred false]>)
         (bump CPoolD st)).
Proof.
  intros H. unfold render.
  unfold bind at 1. unfold gets at 1. cbv beta iota. rewrite H.
  reflexivity.
Qed.

Lemma trace_grows_exec fuel c tr0 :
  keeps (fun s => tr0 `prefix_of` trace s) (exec fuel c).
Proof.
  apply keeps_exec; try done.
  intros e s H. simpl. by apply prefix_app_r.
Qed.

Lemma construct_in_start_pre s a st :
  EConstruct (next_render st) (next_network_manager st)
    (sa_splash_proxy_factory a) (sa_render_options a) (verbosity st)
    ∈ trace (start_pre s a st).
Proof. simpl. set_solver. Qed.

Lemma start_render_constructs fuel a s st :
  EConstruct (next_render st) (next_network_manager st)
    (sa_splash_proxy_factory a) (sa_render_options a) (verbosity st)
    ∈ trace (_start_render (exec fuel) (VArgs a) s st).2.
Proof.
  rewrite start_render_eq.
  assert (H : keeps (fun t => trace (start_pre s a st) `prefix_of` trace t)
                (start_body (exec fuel) a s (next_render st))).
  { assert (Hx := fun c => trace_grows_exec fuel c (trace (start_pre s a st))).
    assert (He : forall e t,
      trace (start_pre s a st) `prefix_of` trace t ->
      trace (start_pre s a st) `prefix_of` trace (emit e t)).
    { intros e t Ht. simpl. by apply prefix_app_r. }
    unfold start_body, chainDeferred, addErrback, addBoth.
    apply keeps_bind; [by apply keeps_debug_update|intros _].
    apply keeps_bind; [by apply keeps_get_render|intros obj].
    apply keeps_bind; [by apply keeps_addCallbacks|intros _].
    apply keeps_bind; [by apply keeps_addCallbacks|intros _].
    apply keeps_bind; [by apply keeps_addCallbacks|intros _].
    apply keeps_bind; [by apply keeps_log|intros _].
    apply keeps_bind.
    { apply keeps_try; [by apply keeps_render_start|intros e].
      apply keeps_bind; [by apply keeps_errback|intros _; apply keeps_raise]. }
    intros _. apply keeps_bind; [by apply keeps_log|intros _; apply keeps_ret]. }
  specialize (H (start_pre s a st) (reflexivity _)).
  destruct H as [l ->]. apply elem_of_app. left.
  apply construct_in_start_pre.
Qed.

(** C8: a pool built without a proxy factory class is the pool built with
    the class that returns [None] for every profile: the two constructors
    end in the same state, so whatever is done to the two pools has the
    same effect.  In such a pool, at any time, [render] queues a tuple
    with [None] for the proxy factory, whatever [proxy] is;
    [_start_render] calls the constructor of the render with the proxy
    factory of the tuple it took from the queue; and over any run,
    whatever profiles the callers name, the renders constructed are
    renders 0, 1, ... up to the number of jobs taken, each constructed
    with [None] for the proxy factory, every render object holds [None],
    and so does every tuple still in the queue. *)
Theorem C8_default_proxy_factory fuel slots js v env :
  new_pool fuel slots None js v env
    = new_pool fuel slots (Some (fun _ => None)) js v env /\
  (forall inputs,
     pool_run fuel slots None js v env inputs
       = pool_run fuel slots (Some (fun _ => None)) js v env inputs) /\
  (forall inputs st cls ro proxy kw,
     run fuel inputs (new_pool fuel slots None js v env).2 = Some st ->
     render (exec fuel) cls ro proxy kw st =
       (put (exec fuel) (plain_args cls ro kw (next_pool_d st)) ;;
        log (LogQueued (get_uid ro)) ;;
        ret (DPool (next_pool_d st)))
         (with_deferreds (<[DPool (next_pool_d st) := new_deferred false]>)
            (bump CPoolD st))) /\
  (forall a s st,
     EConstruct (next_render st) (next_network_manager st)
       (sa_splash_proxy_factory a) (sa_render_options a) (verbosity st)
       ∈ trace (_start_render (exec fuel) (VArgs a) s st).2) /\
  (forall inputs st,
     run fuel inputs (new_pool fuel slots None js v env).2 = Some st ->
     constructed (trace st) = (fun r => (r, None)) <$> seq 0 (next_render st)
     /\ (forall r obj, renders st !! r = Some obj ->
            r_splash_proxy_factory obj = None)
     /\ Forall (fun a => sa_splash_proxy_factory a = None)
          (queue_pending st)).
Proof.
  split; [reflexivity|]. split; [reflexivity|]. split; [|split].
  - intros inputs st cls ro proxy kw H. apply render_default.
    apply run_config in H as (_ & -> & _). apply init_config.
  - intros a s st. apply start_render_constructs.
  - intros inputs st H.
    apply (unproxied_run fuel slots None js v env inputs st I) in H.
    destruct H as [_ Hp _ Hr Ht]. done.
Qed.

(** A job that names a profile, submitted to a pool of one slot built
    without a class of proxy factories. *)
Definition st_profile : state :=
  default blank
    (run 20 [Submit cls_async (url_ok "a") (Some "profile") []]
       (new_pool 20 1 None None 1 env0).2).

Lemma C8_default_proxy_factory_witness :
  render (exec 20) cls_async (url_ok "a") (Some "profile") []
    (new_pool 20 1 None None 1 env0).2 =
  (put (exec 20)
     (plain_args cls_async (url_ok "a") []
        (next_pool_d (new_pool 20 1 None None 1 env0).2)) ;;
   log (LogQueued (get_uid (url_ok "a"))) ;;
   ret (DPool (next_pool_d (new_pool 20 1 None None 1 env0).2)))
    (with_deferreds
       (<[DPool (next_pool_d (new_pool 20 1 None None 1 env0).2)
            := new_deferred false]>)
       (bump CPoolD (new_pool 20 1 None None 1 env0).2)) /\
  next_render st_profile = 1 /\
  constructed (trace st_profile)
    = (fun r => (r, None)) <$> seq 0 (next_render st_profile) /\
  (forall r obj, renders st_profile !! r = Some obj ->
     r_splash_proxy_factory obj = None) /\
  Forall (fun a => sa_splash_proxy_factory a = None)
    (queue_pending st_profile).
Proof.
  split; [|split].
  - apply (proj1 (proj2 (proj2 (C8_default_proxy_factory 20 1 None 1 env0)))
             []).
    reflexivity.
  - vm_compute. reflexivity.
  - apply (proj2 (proj2 (proj2 (proj2
             (C8_default_proxy_factory 20 1 None 1 env0))))
             [Submit cls_async (url_ok "a") (Some "profile") []]).
    vm_compute. reflexivity.
Defined.

(* ===================================================================== *)
(** ** A pool without slots *)
(* ===================================================================== *)

Lemma render_no_waiter rec cls ro proxy kw st :
  queue_waiting st = [] ->
  render rec cls ro proxy kw st =
    (Ok (DPool (next_pool_d st)),
     emits (log_events (verbosity st) (LogQueued (get_uid ro)))
       (with_pending
          (queue_pending st ++
             [{| sa_rendercls := cls; sa_render_options := ro;
                 sa_splash_proxy_factory := splash_proxy_factory_cls st proxy;
                 sa_kwargs := kw; sa_pool_d := DPool (next_pool_d st) |}])
          (with_deferreds (<[DPool (next_pool_d st) := new_deferred false]>)
             (bump CPoolD st)))).
Proof.
  intros Hw. unfold render, put. mred. rewrite Hw. simpl.
  rewrite log_eq. simpl. reflexivity.
Qed.

(** Nobody waits on the queue, nothing was ever taken from it. *)
Record stalled (n : nat) (st : state) : Prop := Stalled {
  stalled_waiting : queue_waiting st = [];
  stalled_pending : length (queue_pending st) = n;
  stalled_active : active st = ∅;
  stalled_renders : renders st = ∅;
  stalled_handles :
    forall d df, deferreds st !! d = Some df -> called df = false;
  stalled_trace : forallb is_log (trace st) = true;
}.

Lemma step_stalled fuel i n st :
  stalled n st ->
  exists r st',
    step fuel i st = (r, st') /\ r <> OutOfFuel /\
    stalled (if is_submit i then S n else n) st'.
Proof.
  intros [Hw Hp Ha Hr Hh Ht].
  destruct i as [cls ro proxy kw|r o|up now]; simpl.
  - unfold bind. rewrite render_no_waiter by done.
    eexists _, _. split; [reflexivity|]. split; [done|].
    constructor; simpl; try done.
    + rewrite length_app. simpl. lia.
    + intros d df. rewrite lookup_insert. case_decide.
      * by intros [= <-].
      * apply Hh.
    + rewrite forallb_app, Ht. unfold log_events.
      by destruct (2 <=? verbosity st)%Z.
  - unfold bind, gets. rewrite Hr, lookup_empty.
    eexists _, _. split; [reflexivity|]. split; [done|]. by constructor.
  - unfold modify. eexists _, _. split; [reflexivity|]. split; [done|].
    by constructor.
Qed.

Lemma run_stalled fuel inputs n st :
  stalled n st ->
  exists st',
    run fuel inputs st = Some st' /\
    stalled (n + length (filter (fun i => is_submit i = true) inputs)) st'.
Proof.
  revert n st. induction inputs as [|i inputs IH]; intros n st H; simpl.
  - exists st. split; [done|]. by rewrite Nat.add_0_r.
  - destruct (step_stalled fuel i n st H) as (r & st' & -> & Hr & H').
    destruct (IH _ _ H') as (st'' & Hrun & H'').
    exists st''. split.
    + by destruct r.
    + rewrite filter_cons. destruct i; simpl in *;
        rewrite ?decide_True by done; rewrite ?decide_False by done;
        simpl; rewrite <- ?Nat.add_succ_comm; exact H''.
Qed.

Lemma init_no_slots fuel slots cls js v env :
  (slots <= 0)%Z ->
  new_pool fuel slots cls js v env =
    match REDIS_PORT env with
    | Some (Raises e) =>
        (Raise e,
         with_config (match cls with Some c => c | None => fun _ => None end)
           js v blank)
    | port =>
        let p := match port with Some (Returns p) => p | _ => 6379%Z end in
        let host := match REDIS_HOST env with
                    | Some h => h | None => "127.0.0.1" end in
        (Ok tt,
         with_debug
           ("splash-urls-" +:+
              match MESOS_TASK_ID env with
              | Some t => t | None => uuid4 env end)
           host p
           (emit (ELog "debug-urls" (LogRedis host p))
              (with_config
                 (match cls with Some c => c | None => fun _ => None end)
                 js v blank)))
    end.
Proof.
  intros H. unfold new_pool, __init__.
  replace (Z.to_nat slots) with 0 by lia. simpl for_range.
  by destruct (REDIS_PORT env) as [[p|e]|].
Qed.

(** C5, as the constructor is: [__init__] takes any [slots]; with
    [slots <= 0] the loop over [range(slots)] has no turn, the constructor
    returns (if [REDIS_PORT] is not a number, [int] raises, as for any
    other [slots]), no slot ever waits on the queue, and whatever is
    submitted afterwards stays in the queue: nothing is taken from it,
    no render is created and no handle fires. *)
Theorem C5_no_slots_no_progress fuel slots cls js v env inputs :
  (slots <= 0)%Z ->
  (forall e, REDIS_PORT env <> Some (Raises e)) ->
  exists st0 st,
    new_pool fuel slots cls js v env = (Ok tt, st0) /\
    run fuel inputs st0 = Some st /\
    stalled (length (filter (fun i => is_submit i = true) inputs)) st.
Proof.
  intros Hs Hport. rewrite init_no_slots by done.
  destruct (REDIS_PORT env) as [[p|e]|] eqn:E; [|by destruct (Hport e)|].
  all: eexists _; edestruct (run_stalled fuel inputs 0) as (st & Hrun & Hst);
    [|exists st; split; [reflexivity|]; split; [exact Hrun|exact Hst]];
    by constructor.
Qed.

Lemma C5_no_slots_no_progress_witness :
  exists st0 st,
    new_pool 0 0 None None 1 env0 = (Ok tt, st0) /\
    run 0 [Submit cls_sync (url_ok "a") None []] st0 = Some st /\
    stalled 1 st.
Proof.
  apply (C5_no_slots_no_progress 0 0 None None 1 env0
           [Submit cls_sync (url_ok "a") None []]).
  - lia.
  - intros e. discriminate.
Defined.

(** C5, as claimed, fails: the constructor returns from [slots = 0]. *)
Lemma C5_zero_slots_accepted :
  (new_pool 0 0 None None 1 env0).1 = Ok tt /\
  queue_waiting (new_pool 0 0 None None 1 env0).2 = [].
Proof. split; vm_compute; reflexivity. Qed.

(* ===================================================================== *)
(** ** Runs of small pools *)
(* ===================================================================== *)

(** The events of a trace that tell where the jobs are: taken from the
    queue, in the active set, started, cancelled, closed. *)
Definition is_mark (e : event) : bool :=
  match e with
  | EDequeue _ _ | EActiveAdd _ _ | EActiveRemove _ _
  | EStart _ _ | ECancel _ | EClose _ _ => true
  | _ => false
  end.

Definition marks (st : state) : list event :=
  filter (fun e => is_mark e = true) (trace st).

(** C1 fails where [get_url()] raises: a pool with one slot, two jobs
    whose [get_url()] raises.  The first render is added to the active
    set, [debug_update] raises out of [_start_render], the slot goes back
    to the queue and takes the second job while the first render is still
    in the active set: two active renders on one slot. *)
Theorem C1_active_exceeds_slots :
  (fun st => (size (active st), marks st, queue_waiting st))
    <$> pool_run 20 1 None None 2 env0
          [Submit cls_async (url_bad "a") None [];
           Submit cls_async (url_bad "b") None []]
  = Some (2,
          [EDequeue 0 (DPool 0); EActiveAdd 0 0;
           EDequeue 0 (DPool 1); EActiveAdd 0 1],
          [DGet 2]).
Proof. vm_compute. reflexivity. Qed.

(** C3 fails where [get_url()] raises: a pool with two slots, a job that
    is fine and one whose [get_url()] raises.  The second render stays in
    the active set and its handle never fires; when the first job is
    done, [_close_render] removes its render from the active set and
    [debug_update] raises: the future is not cancelled, [close()] is not
    called, and the handle of the job fires with the exception of the
    other job's [get_url()] in place of the result. *)
Theorem C3_cleanup_skipped :
  (fun st => (elements (active st), marks st,
              handle_result_of 0 st, handle_result_of 1 st))
    <$> pool_run 20 2 None None 2 env0
          [Submit cls_async (url_ok "a") None [];
           Submit cls_async (url_bad "b") None [];
           Complete 0 (Succeeds "A")]
  = Some ([1],
          [EDequeue 0 (DPool 0); EActiveAdd 0 0; EStart 0 [];
           EDequeue 1 (DPool 1); EActiveAdd 1 1;
           EActiveRemove 0 0],
          Some (VFailure (UnitError 9)), None).
Proof. vm_compute. reflexivity. Qed.

(** C6 as claimed fails: [close()] raises in a pool with one slot and
    full logging.  Nothing is logged about it (the log ends with
    'is closing' and 'SLOT 0 is available'), and the handle of the job,
    whose render succeeded, fires with the exception of [close()]. *)
Lemma C6_close_error_reaches_handle :
  (fun st => (handle_result_of 0 st,
              filter (fun e => is_log e = true) (trace st),
              queue_waiting st))
    <$> pool_run 20 1 None None 2 env0
          [Submit cls_close_raises (url_ok "a") None [];
           Complete 0 (Succeeds "A")]
  = Some (Some (VFailure (UnitError 7)),
          [ELog "debug-urls" (LogRedis "127.0.0.1" 6379);
           ELog "pool" (LogInitializing 0);
           ELog "pool" (LogStarting "a" 0);
           ELog "pool" (LogWorking "a" 0);
           ELog "pool" (LogQueued "a");
           ELog "pool" (LogClosing "a" 0 0);
           ELog "pool" (LogAvailable 0)],
          [DGet 1]).
Proof. vm_compute. reflexivity. Qed.

(* ===================================================================== *)
(** ** More on the methods, one at a time *)
(* ===================================================================== *)

(** A pool with one slot after a job went through: render 0 exists and is
    out of the active set. *)
Definition st_after_job : state :=
  default blank
    (pool_run 20 1 None None 2 env0
       [Submit cls_async (url_ok "a") None []; Complete 0 (Succeeds "A")]).

(** A pool with one slot and a running job whose future was settled
    behind the pool's back. *)
Definition st_before_cleanup : state :=
  with_deferreds
    (fun h => <[DRender 0 := settled (VPayload "A") (new_deferred false)]> h)
    (default blank
       (pool_run 20 1 None None 2 env0
          [Submit cls_async (url_ok "a") None []])).

Definition st_before_bad_close : state :=
  with_deferreds
    (fun h => <[DRender 0 := settled (VPayload "A") (new_deferred false)]> h)
    (default blank
       (pool_run 20 1 None None 2 env0
          [Submit cls_close_raises (url_ok "a") None []])).

(** X1: [_close_render] of a render that is not in the active set:
    [self.active.remove(render)] raises [KeyError] after the 'is closing'
    line; the snapshot is not refreshed, the future is not cancelled,
    [close()] is not called. *)
Theorem close_render_not_active rec v r s st obj :
  renders st !! r = Some obj ->
  r ∉ active st ->
  _close_render rec v r s st =
    (Raise KeyError,
     emits (log_events (verbosity st)
              (LogClosing (get_uid (r_render_options obj)) s r)) st).
Proof.
  intros Hr Hact. unfold _close_render. mred. rewrite Hr, log_eq. simpl.
  by rewrite bool_decide_false.
Qed.

Lemma close_render_not_active_witness :
  _close_render (exec 3) VNone 0 0 st_after_job =
    (Raise KeyError,
     emits (log_events (verbosity st_after_job)
              (LogClosing (get_uid (url_ok "a")) 0 0)) st_after_job).
Proof.
  apply (close_render_not_active (exec 3) VNone 0 0 st_after_job
           {| r_cls := cls_async; r_network_manager := 0;
              r_splash_proxy_factory := None;
              r_render_options := url_ok "a"; r_verbosity := 2;
              r_deferred := DRender 0 |}).
  - vm_compute. reflexivity.
  - apply (bool_decide_unpack _). vm_compute. exact I.
Defined.

(** X2: [_close_render] when nothing raises: the render leaves the
    active set, the snapshot is written without it, the future (settled
    already) is left as it is by [cancel()], [close()] is called, in this
    order, and the argument is returned as it came: the result of the job
    passes through the cleanup unchanged. *)
Theorem close_render_clean rec v r s st obj df us :
  renders st !! r = Some obj ->
  deferreds st !! r_deferred obj = Some df ->
  called df = true -> is_deferred (result df) = false ->
  r ∈ active st ->
  render_urls (elements (active st ∖ {[r]})) st = (Ok us, st) ->
  on_close (r_cls obj) = Returns tt ->
  _close_render rec v r s st =
    (Ok v,
     with_active (fun a => a ∖ {[r]})
       (emits
          (log_events (verbosity st)
             (LogClosing (get_uid (r_render_options obj)) s r)
           ++ [EActiveRemove s r]
           ++ debug_events (debug_key st) (redis_up st) (clock st) us
           ++ [ECancel r; EClose s r]
           ++ log_events (verbosity st)
                (LogDone (get_uid (r_render_options obj)) s r))
          st)).
Proof.
  intros Hr Hd Hc Hnd Hact Hu Hcl.
  rewrite (close_render_eq rec v r s st obj df) by done.
  rewrite render_urls_eq in Hu.
  unfold close_summary, close_core.
  destruct (urls_of (renders st) (elements (active st ∖ {[r]}))) as [us'|e];
    [|by inversion Hu].
  rewrite Hcl. inversion Hu; subst us'. cbv [fst snd res_of].
  by rewrite <- !app_assoc.
Qed.

Lemma close_render_clean_witness :
  _close_render (exec 3) (VPayload "A") 0 0 st_before_cleanup =
    (Ok (VPayload "A"),
     with_active (fun a => a ∖ {[0]})
       (emits
          (log_events (verbosity st_before_cleanup)
             (LogClosing (get_uid (url_ok "a")) 0 0)
           ++ [EActiveRemove 0 0]
           ++ debug_events (debug_key st_before_cleanup)
                (redis_up st_before_cleanup) (clock st_before_cleanup) []
           ++ [ECancel 0; EClose 0 0]
           ++ log_events (verbosity st_before_cleanup)
                (LogDone (get_uid (url_ok "a")) 0 0))
          st_before_cleanup)).
Proof.
  apply (close_render_clean (exec 3) (VPayload "A") 0 0 st_before_cleanup
           {| r_cls := cls_async; r_network_manager := 0;
              r_splash_proxy_factory := None;
              r_render_options := url_ok "a"; r_verbosity := 2;
              r_deferred := DRender 0 |}
           (settled (VPayload "A") (new_deferred false)) []).
  - vm_compute. reflexivity.
  - vm_compute. reflexivity.
  - reflexivity.
  - reflexivity.
  - apply (bool_decide_unpack _). vm_compute. exact I.
  - vm_compute. reflexivity.
  - reflexivity.
Defined.

(** X3: [_close_render] when [close()] raises: the exception leaves
    [_close_render]; by then the render is out of the active set, the
    snapshot is written and the future was offered to [cancel()]; the
    'done' line is not logged and nothing is logged about the exception. *)
Theorem close_render_close_raises rec v r s st obj df us e :
  renders st !! r = Some obj ->
  deferreds st !! r_deferred obj = Some df ->
  called df = true -> is_deferred (result df) = false ->
  r ∈ active st ->
  render_urls (elements (active st ∖ {[r]})) st = (Ok us, st) ->
  on_close (r_cls obj) = Raises e ->
  _close_render rec v r s st =
    (Raise e,
     with_active (fun a => a ∖ {[r]})
       (emits
          (log_events (verbosity st)
             (LogClosing (get_uid (r_render_options obj)) s r)
           ++ [EActiveRemove s r]
           ++ debug_events (debug_key st) (redis_up st) (clock st) us
           ++ [ECancel r; EClose s r])
          st)).
Proof.
  intros Hr Hd Hc Hnd Hact Hu Hcl.
  rewrite (close_render_eq rec v r s st obj df) by done.
  rewrite render_urls_eq in Hu.
  unfold close_summary, close_core.
  destruct (urls_of (renders st) (elements (active st ∖ {[r]}))) as [us'|e'];
    [|by inversion Hu].
  rewrite Hcl. inversion Hu; subst us'. cbv [fst snd res_of].
  by rewrite <- !app_assoc.
Qed.

Lemma close_render_close_raises_witness :
  _close_render (exec 3) (VPayload "A") 0 0 st_before_bad_close =
    (Raise (UnitError 7),
     with_active (fun a => a ∖ {[0]})
       (emits
          (log_events (verbosity st_before_bad_close)
             (LogClosing (get_uid (url_ok "a")) 0 0)
           ++ [EActiveRemove 0 0]
           ++ debug_events (debug_key st_before_bad_close)
                (redis_up st_before_bad_close) (clock st_before_bad_close) []
           ++ [ECancel 0; EClose 0 0])
          st_before_bad_close)).
Proof.
  apply (close_render_close_raises (exec 3) (VPayload "A") 0 0
           st_before_bad_close
           {| r_cls := cls_close_raises; r_network_manager := 0;
              r_splash_proxy_factory := None;
              r_render_options := url_ok "a"; r_verbosity := 2;
              r_deferred := DRender 0 |}
           (settled (VPayload "A") (new_deferred false)) [] (UnitError 7)).
  - vm_compute. reflexivity.
  - vm_compute. reflexivity.
  - reflexivity.
  - reflexivity.
  - apply (bool_decide_unpack _). vm_compute. exact I.
  - vm_compute. reflexivity.
  - reflexivity.
Defined.




(** X5: no method assigns the attributes set by the constructor: over
    any run, [verbosity], [splash_proxy_factory_cls], [js_profiles_path],
    the debug key and the address of the store stay what they were. *)
Theorem configuration_is_fixed fuel inputs st :
  match run fuel inputs st with
  | Some st' =>
      verbosity st' = verbosity st /\
      splash_proxy_factory_cls st' = splash_proxy_factory_cls st /\
      js_profiles_path st' = js_profiles_path st /\
      debug_key st' = debug_key st /\
      redis_host st' = redis_host st /\ redis_port st' = redis_port st
  | None => True
  end.
Proof.
  destruct (run fuel inputs st) as [st'|] eqn:E; [|done].
  revert E.
  apply (keeps_run (fun t =>
    verbosity t = verbosity st /\
    splash_proxy_factory_cls t = splash_proxy_factory_cls st /\
    js_profiles_path t = js_profiles_path st /\
    debug_key t = debug_key st /\
    redis_host t = redis_host st /\ redis_port t = redis_port st)); [|done].
  intros i. by apply keeps_step.
Qed.

(** ** The slot loop *)

(** What the events of a job add to the jobs taken and started. *)
Lemma dequeued_pre st nr nn s a : dequeued (ev_pre st nr nn s a) = [sa_pool_d a].
Proof. unfold ev_pre. by rewrite dequeued_app, dequeued_log. Qed.

Lemma starts_pre st nr nn s a : starts (ev_pre st nr nn s a) = [].
Proof. unfold ev_pre. by rewrite starts_app, starts_log. Qed.

Lemma dequeued_started st nr nn s a us :
  dequeued (ev_started st nr nn s a us) = [sa_pool_d a].
Proof.
  unfold ev_started.
  by rewrite !dequeued_app, dequeued_pre, dequeued_debug, dequeued_log.
Qed.

Lemma starts_started st nr nn s a us :
  starts (ev_started st nr nn s a us) = [nr].
Proof.
  unfold ev_started.
  by rewrite !starts_app, starts_pre, starts_debug, starts_log.
Qed.

Lemma dequeued_working st s a : dequeued (ev_working st s a) = [].
Proof. apply dequeued_log. Qed.

Lemma starts_working st s a : starts (ev_working st s a) = [].
Proof. apply starts_log. Qed.

Lemma dequeued_finished st act rs nr nn s a us v :
  dequeued (ev_finished st act rs nr nn s a us v) = [sa_pool_d a].
Proof.
  unfold ev_finished, job_close.
  by rewrite !dequeued_app, dequeued_started, dequeued_error, dequeued_close.
Qed.

Lemma starts_finished st act rs nr nn s a us v :
  starts (ev_finished st act rs nr nn s a us v) = [nr].
Proof.
  unfold ev_finished, job_close.
  by rewrite !starts_app, starts_started, starts_error, starts_close.
Qed.

Lemma dequeued_available st s lg : dequeued (ev_available st s lg) = [].
Proof. unfold ev_available. destruct lg; [apply dequeued_log|done]. Qed.

Lemma starts_available st s lg : starts (ev_available st s lg) = [].
Proof. unfold ev_available. destruct lg; [apply starts_log|done]. Qed.

Create Rewrite HintDb marks.
#[export] Hint Rewrite dequeued_app starts_app dequeued_log starts_log
  dequeued_debug starts_debug dequeued_error starts_error dequeued_close
  starts_close dequeued_pre starts_pre dequeued_started starts_started
  dequeued_working starts_working dequeued_finished starts_finished
  dequeued_available starts_available @app_nil_r : marks.

Ltac marks := autorewrite with marks; try reflexivity.

(** Deferreds that exist before a step. *)
Definition old (ng nr : nat) (d : dref) : Prop :=
  match d with
  | DGet k => k < ng
  | DRender r => r < nr
  | DPool j => j < nr
  end.

(** Where slot [s] ends up when it has gone round its loop until it
    waits on the queue or has a job that runs on. *)
Definition settles (st : state) (ph : list phase) (s : nat)
    (keep : dref -> Prop) (h : gmap dref deferred) (ng np nr : nat)
    (F' : state) : Prop :=
  exists q act' w' p' h' rs' ng' np' nr' nn' tr',
    F' = flat st act' w' p' h' rs' ng' np' nr' nn' tr' /\
    Shape (<[s := q]> ph) act' w' p' h' rs' ng' np' nr' tr' /\
    (w' <> [] -> p' = []) /\
    q <> Transit /\
    (forall d, keep d -> h' !! d = h !! d) /\
    ng <= ng' /\
    (forall k, key_of q = Some k -> ng <= k) /\
    np' = np /\ nr <= nr'.

(** [_wait_for_render] with at most [n] jobs in the queue. *)
Definition wait_spec (n : nat) : Prop :=
  forall f st ph act w p h rs ng np nr nn tr v s lg,
    length p <= n -> n + 6 <= f ->
    Shape ph act w p h rs ng np nr tr ->
    (w <> [] -> p = []) ->
    ph !! s = Some Transit ->
    exists F',
      _wait_for_render (exec f) v s lg
        (flat st act w p h rs ng np nr nn tr) = (Ok v, F') /\
      settles st ph s (old ng nr) h ng np nr F'.

Lemma waiter_is_waiter s : is_waiter s (waiter s).
Proof. by constructor. Qed.

Lemma wait_idle f st ph act w h rs ng np nr nn tr v s lg :
  Shape ph act w [] h rs ng np nr tr ->
  ph !! s = Some Transit ->
  exists F',
    _wait_for_render (exec f) v s lg
      (flat st act w [] h rs ng np nr nn tr) = (Ok v, F') /\
    settles st ph s (old ng nr) h ng np nr F'.
Proof.
  intros HS Hs. eexists. split; [apply wait_for_render_idle|].
  exists (Waiting ng). do 10 eexists. split; [reflexivity|].
  split; [|split; [done|split; [done|split; [|split; [|split; [|done]]]]]].
  - eapply Shape_wait; [exact HS|exact Hs| |apply waiter_is_waiter| |marks|marks].
    + by rewrite lookup_insert_eq.
    + intros d Hd. by rewrite lookup_insert_ne.
  - intros d Hd. rewrite lookup_insert_ne; [done|].
    intros <-. simpl in Hd. lia.
  - lia.
  - intros k [= <-]. lia.
Qed.

Lemma call_wait_pair rec s v :
  call rec (if is_failure v then WaitForRender s else WaitForRender s) v
    = _wait_for_render rec v s true.
Proof. by destruct (is_failure v). Qed.

Lemma key_free_insert (ph : list phase) s q k ng :
  (forall s' q', ph !! s' = Some q' -> key_of q' <> Some k) ->
  (forall k', key_of q = Some k' -> ng <= k') -> k < ng ->
  forall s' q', <[s := q]> ph !! s' = Some q' -> key_of q' <> Some k.
Proof.
  intros Hph Hq Hk s' q' Hs'.
  apply list_lookup_insert_Some in Hs' as [(<- & <- & _)|[Hne Hs']].
  - intros E. specialize (Hq _ E). lia.
  - by apply (Hph s').
Qed.

(** The deferred of a slot goes on to its last callback,
    [_wait_for_render]. *)
Lemma resume n :
  wait_spec n ->
  forall f st ph act w p h rs ng np nr nn tr s k df,
    length p <= n -> n + 6 <= f ->
    Shape ph act w p h rs ng np nr tr ->
    (w <> [] -> p = []) ->
    ph !! s = Some Transit ->
    k < ng ->
    (forall s' q, ph !! s' = Some q -> key_of q <> Some k) ->
    h !! DGet k = Some df ->
    callbacks df = [wait_pair s] -> running df = false -> paused df = 0 ->
    is_deferred (result df) = false ->
    exists F',
      exec (S f) (RunCallbacks (DGet k))
        (flat st act w p h rs ng np nr nn tr) = (Ok tt, F') /\
      settles st ph s (fun d => old ng nr d /\ d <> DGet k) h ng np nr F'.
Proof.
  intros Hspec f st ph act w p h rs ng np nr nn tr s k df
    Hlen Hf HS Hidle Hs Hk Hkey Hd Hcb Hrun Hp Hres.
  set (df1 := d_with_running true (d_with_callbacks [] df)).
  assert (HS1 : Shape ph act w p (<[DGet k := df1]> h) rs ng np nr tr).
  { eapply Shape_scratch; [exact HS| |done|done|done].
    intros d. destruct (decide (d = DGet k)) as [->|Hne].
    - right. by exists k.
    - left. by rewrite lookup_insert_ne. }
  destruct (Hspec f st ph act w p (<[DGet k := df1]> h) rs ng np nr nn tr
              (result df) s true Hlen Hf HS1 Hidle Hs)
    as (F' & Hw & q & act' & w' & p' & h' & rs' & ng' & np' & nr' & nn' & tr'
        & -> & HS' & Hidle' & Hq & Hframe & Hng & Hqk & Hnp & Hnr).
  assert (Hd' : h' !! DGet k = Some df1).
  { rewrite Hframe by done. by rewrite lookup_insert_eq. }
  rewrite exec_run.
  erewrite run_pair_ok; [|exact Hd|exact Hrun|exact Hp|exact Hcb|].
  2:{ rewrite with_deferreds_flat, call_wait_pair. exact Hw. }
  erewrite after_call_plain; [|look'|exact Hres].
  destruct f as [|f]; [lia|]. rewrite exec_run.
  erewrite runCallbacks_nil; [|look'|reflexivity|reflexivity].
  autorewrite with flat.
  eexists. split; [reflexivity|].
  exists q. do 10 eexists. split; [reflexivity|].
  split; [|split; [done|split; [done|split; [|split; [done|done]]]]].
  - eapply Shape_scratch; [exact HS'| |done|done|done].
    intros d. destruct (decide (d = DGet k)) as [->|Hne].
    + right. exists k. split; [done|].
      by apply (key_free_insert ph s q k ng).
    + left. by rewrite lookup_insert_ne.
  - intros d [Ho Hne]. rewrite lookup_insert_ne by done.
    rewrite Hframe by done. by rewrite lookup_insert_ne.
Qed.

(** The first job of the queue, in the hands of slot [s]: what
    [_start_render] makes of it, seen from the deferred [DGet k] of the
    slot.  Either the job runs on and the deferred waits for it, or the
    job is over ([start] settled the future or raised, or [get_url()]
    raised) and the deferred goes on to the rest of its callbacks. *)
Lemma start_on_slot f st ph act w a p h rs ng np nr nn tr s k df rest :
  Shape ph act w (a :: p) h rs ng np nr tr ->
  ph !! s = Some Transit -> k < ng ->
  (forall s' q, ph !! s' = Some q -> key_of q <> Some k) ->
  h !! DGet k = Some df ->
  callbacks df = Pair (StartRender s) Passthru :: rest ->
  running df = false -> paused df = 0 -> result df = VArgs a ->
  (exists hx tr',
     exec (S (S (S (S (S f))))) (RunCallbacks (DGet k))
       (flat st act w p h rs ng np nr nn tr) =
     (Ok tt,
      flat st (act ∪ {[nr]}) w p (<[DGet k := d_parked nr rest df]> hx)
        (<[nr := mk_obj a nn (verbosity st) nr]> rs) ng np (S nr) (S nn) tr')
     /\ (forall dk, is_parked s dk ->
           Shape (<[s := Running k nr]> ph) (act ∪ {[nr]}) w p
             (<[DGet k := dk]> hx)
             (<[nr := mk_obj a nn (verbosity st) nr]> rs) ng np (S nr) tr')
     /\ (forall d, old ng nr d -> d <> DGet k -> hx !! d = h !! d))
  \/
  (exists act' hx tr' v,
     exec (S (S (S (S (S f))))) (RunCallbacks (DGet k))
       (flat st act w p h rs ng np nr nn tr) =
     exec (S (S (S (S f)))) (RunCallbacks (DGet k))
       (flat st act' w p (<[DGet k := d_resumed v rest df]> hx)
          (<[nr := mk_obj a nn (verbosity st) nr]> rs) ng np (S nr) (S nn)
          tr')
     /\ is_deferred v = false
     /\ (forall dk,
           Shape ph act' w p (<[DGet k := dk]> hx)
             (<[nr := mk_obj a nn (verbosity st) nr]> rs) ng np (S nr) tr')
     /\ (forall d, old ng nr d -> d <> DGet k -> hx !! d = h !! d)).
Proof.
  intros HS Hs Hk Hkey Hd Hcb Hrun Hp Hres.
  assert (Hj : sa_pool_d a = DPool nr).
  { rewrite (sh_pending _ _ _ _ _ _ _ _ _ _ HS 0 a eq_refl). f_equal. lia. }
  assert (Hhd : h !! DPool nr = Some (new_deferred false)).
  { apply (sh_fresh _ _ _ _ _ _ _ _ _ _ HS); [lia|].
    rewrite (sh_count _ _ _ _ _ _ _ _ _ _ HS). simpl. lia. }
  destruct (job_urls st act rs nr nn a) as [us|e] eqn:Hu;
    [destruct (on_start (sa_rendercls a)) as [|o|e] eqn:Hst|].
  - left.
    exists (<[DRender nr := rd_waited nr k]>
              (heap_started h nr s nr (new_deferred false))),
           (tr ++ ev_started st nr nn s a us ++ ev_working st s a).
    split; [|split].
    + rewrite (run_start_async st act w p h rs ng np nr nn tr s a nr Hj k df
                 (new_deferred false) rest Hd Hrun Hp Hcb Hres Hhd
                 eq_refl eq_refl eq_refl eq_refl f us Hu Hst).
      to_state. apply flat_ext; try reflexivity.
      by apply insert_insert_ne.
    + intros dk Hdk.
      eapply Shape_start_running;
        [exact HS|exact Hs|exact Hk|exact Hkey| | | | |reflexivity| |].
      * intros d H1 H2 H3. unfold heap_started.
        by rewrite !lookup_insert_ne.
      * exists dk. by rewrite lookup_insert_eq.
      * eexists. rewrite lookup_insert_ne by done.
        rewrite lookup_insert_eq. split; [reflexivity|]. by constructor.
      * eexists. rewrite !lookup_insert_ne by done.
        unfold heap_started. rewrite lookup_insert_eq.
        split; [reflexivity|]. by constructor.
      * marks. by rewrite Hj.
      * marks.
    + intros d Ho Hne. unfold heap_started.
      rewrite !lookup_insert_ne; [done|..];
        intros <-; simpl in Ho; lia.
  - right. eexists _, _, _, _. split; [|split; [|split]].
    + apply (run_start_sync st act w p h rs ng np nr nn tr s a nr Hj k df
               (new_deferred false) rest Hd Hrun Hp Hcb Hres Hhd
               eq_refl eq_refl eq_refl eq_refl f us o Hu Hst).
    + reflexivity.
    + intros dk.
      eapply Shape_start_over;
        [exact HS|exact Hkey| | | |reflexivity| | |].
      * intros d H1 H2 H3. unfold heap_finished.
        by rewrite !lookup_insert_ne.
      * rewrite lookup_insert_ne by done. unfold heap_finished.
        by rewrite lookup_insert_eq.
      * by left.
      * intros r Hr. set_solver.
      * marks. by rewrite Hj.
      * right. split; [marks|set_solver].
    + intros d Ho Hne. unfold heap_finished.
      rewrite !lookup_insert_ne; [done|..];
        intros <-; simpl in Ho; lia.
  - right. eexists _, _, _, _. split; [|split; [|split]].
    + apply (run_start_raises st act w p h rs ng np nr nn tr s a nr Hj k df
               (new_deferred false) rest Hd Hrun Hp Hcb Hres Hhd
               eq_refl eq_refl eq_refl eq_refl f us e Hu Hst).
    + reflexivity.
    + intros dk.
      eapply Shape_start_over;
        [exact HS|exact Hkey| | | |reflexivity| | |].
      * intros d H1 H2 H3. unfold heap_finished.
        by rewrite !lookup_insert_ne.
      * rewrite lookup_insert_ne by done. unfold heap_finished.
        by rewrite lookup_insert_eq.
      * by left.
      * intros r Hr. set_solver.
      * marks. by rewrite Hj.
      * right. split; [marks|set_solver].
    + intros d Ho Hne. unfold heap_finished.
      rewrite !lookup_insert_ne; [done|..];
        intros <-; simpl in Ho; lia.
  - right. eexists _, _, _, _. split; [|split; [|split]].
    + apply (run_start_stuck st act w p h rs ng np nr nn tr s a nr Hj k df
               (new_deferred false) rest Hd Hrun Hp Hcb Hres Hhd
               eq_refl eq_refl eq_refl eq_refl f e Hu).
    + reflexivity.
    + intros dk.
      eapply Shape_start_over;
        [exact HS|exact Hkey| | | |reflexivity| | |].
      * intros d H1 H2 H3. by rewrite !lookup_insert_ne.
      * rewrite lookup_insert_ne by done. by rewrite lookup_insert_eq.
      * by right.
      * intros r Hr. set_solver.
      * marks. by rewrite Hj.
      * left. marks.
    + intros d Ho Hne.
      rewrite !lookup_insert_ne; [done|..];
        intros <-; simpl in Ho; lia.
Qed.

Lemma old_mono ng nr ng' nr' d :
  old ng nr d -> ng <= ng' -> nr <= nr' -> old ng' nr' d.
Proof. destruct d; simpl; lia. Qed.

Lemma old_not_next ng nr d : old ng nr d -> d <> DGet ng.
Proof. intros H ->. simpl in H. lia. Qed.

Lemma key_free_next ph act w p h rs ng np nr tr :
  Shape ph act w p h rs ng np nr tr ->
  forall s q, ph !! s = Some q -> key_of q <> Some ng.
Proof.
  intros HS s q Hs Hk.
  pose proof (key_lt _ _ _ _ _ _ _ _ _ _ HS _ _ _ Hs Hk). lia.
Qed.

Lemma wait_step n : wait_spec n -> wait_spec (S n).
Proof.
  intros Hspec f st ph act w p h rs ng np nr nn tr v s lg
    Hlen Hf HS Hidle Hs.
  destruct p as [|a p]; [by apply wait_idle|].
  destruct w as [|d0 w]; [|by specialize (Hidle ltac:(done))].
  simpl in Hlen.
  rewrite wait_for_render_take.
  set (h1 := <[DGet ng := taker s a]> h).
  set (tr1 := tr ++ ev_available st s lg).
  assert (Hfree := key_free_next _ _ _ _ _ _ _ _ _ _ HS).
  assert (HS1 : Shape ph act [] (a :: p) h1 rs (S ng) np nr tr1).
  { eapply Shape_scratch; [exact HS| |lia|unfold tr1; marks|unfold tr1; marks].
    intros d. destruct (decide (d = DGet ng)) as [->|Hne].
    - right. by exists ng.
    - left. unfold h1. by rewrite lookup_insert_ne. }
  assert (Hfree1 : forall s' q, ph !! s' = Some q -> key_of q <> Some ng)
    by exact Hfree.
  destruct f as [|[|[|[|[|f]]]]]; try lia.
  destruct (start_on_slot f st ph act [] a p h1 rs (S ng) np nr nn tr1 s ng
              (taker s a) [] HS1 Hs ltac:(lia) Hfree1
              ltac:(unfold h1; by rewrite lookup_insert_eq)
              eq_refl eq_refl eq_refl eq_refl)
    as [(hx & tr' & E & HSh & Hfr)|(act' & hx & tr' & v' & E & Hv & HSh & Hfr)].
  - (* the job runs on *)
    erewrite bind_ok by exact E.
    unfold addBoth.
    erewrite bind_ok.
    2:{ erewrite addCallbacks_called; [|look'|reflexivity].
        rewrite exec_run. eapply runCallbacks_paused; [look'|simpl; lia]. }
    autorewrite with flat. rewrite insert_insert_eq.
    eexists. split; [reflexivity|].
    exists (Running ng nr). do 10 eexists. split; [reflexivity|].
    split; [|split; [done|split; [done|split; [|split; [|split; [|split; [done|lia]]]]]]].
    + apply HSh. by constructor.
    + intros d Ho. pose proof (old_not_next _ _ _ Ho).
      rewrite lookup_insert_ne by done.
      rewrite Hfr; [|by eapply old_mono; [exact Ho|lia|lia]|done].
      unfold h1. by rewrite lookup_insert_ne.
    + lia.
    + intros k [= <-]. lia.
  - (* the job is over: round the loop again *)
    erewrite bind_ok.
    2:{ rewrite E, exec_run.
        eapply runCallbacks_nil; [look'|reflexivity|reflexivity]. }
    unfold addBoth.
    set (dk := d_with_callbacks ([] ++ [wait_pair s])
                 (d_resumed v' [] (taker s a))).
    destruct (resume n Hspec (S (S (S (S f)))) st ph act' [] p
                (<[DGet ng := dk]> hx)
                (<[nr := mk_obj a nn (verbosity st) nr]> rs)
                (S ng) np (S nr) (S nn) tr' s ng dk
                ltac:(lia) ltac:(lia) (HSh dk) ltac:(done) Hs ltac:(lia)
                Hfree1 ltac:(by rewrite lookup_insert_eq)
                eq_refl eq_refl eq_refl Hv)
      as (F' & E2 & q & act2 & w2 & p2 & h2 & rs2 & ng2 & np2 & nr2 & nn2
          & tr2 & -> & HS2 & Hidle2 & Hq & Hfr2 & Hng2 & Hk2 & Hnp2 & Hnr2).
    erewrite bind_ok.
    2:{ erewrite addCallbacks_called; [|look'|reflexivity].
        autorewrite with flat. rewrite insert_insert_eq. exact E2. }
    eexists. split; [reflexivity|].
    exists q. do 10 eexists. split; [reflexivity|].
    split; [exact HS2|split; [done|split; [done|split; [|split; [|split; [|split; [done|lia]]]]]]].
    + intros d Ho. pose proof (old_not_next _ _ _ Ho).
      rewrite Hfr2.
      2:{ split; [by eapply old_mono; [exact Ho|lia|lia]|done]. }
      rewrite lookup_insert_ne by done.
      rewrite Hfr; [|by eapply old_mono; [exact Ho|lia|lia]|done].
      unfold h1. by rewrite lookup_insert_ne.
    + lia.
    + intros k Hk. specialize (Hk2 k Hk). lia.
Qed.

Lemma wait_zero : wait_spec 0.
Proof.
  intros f st ph act w p h rs ng np nr nn tr v s lg Hlen Hf HS Hidle Hs.
  destruct p; [|simpl in Hlen; lia]. by apply wait_idle.
Qed.

Lemma wait_all n : wait_spec n.
Proof. induction n; [apply wait_zero|by apply wait_step]. Qed.

(** ** One input at a time *)

(** The pool at rest, over the parts of the state that change. *)
Definition Good (ph : list phase) (act : gset nat) (w : list dref)
    (p : list slot_args) (h : gmap dref deferred)
    (rs : gmap nat render_object) (ng np nr : nat) (tr : list event)
    : Prop :=
  Shape ph act w p h rs ng np nr tr
  /\ (w <> [] -> p = [])
  /\ Forall (fun q => q <> Transit) ph.

(** Where an input leaves a pool of [n] slots. *)
Definition lands (st : state) (n np nr : nat) (F' : state) : Prop :=
  exists ph' act' w' p' h' rs' ng' np' nr' nn' tr',
    F' = flat st act' w' p' h' rs' ng' np' nr' nn' tr' /\
    Good ph' act' w' p' h' rs' ng' np' nr' tr' /\
    length ph' = n /\ np' = np /\ nr <= nr'.

Lemma settles_lands st ph s keep h ng np nr F' :
  Forall (fun q => q <> Transit) ph ->
  settles st ph s keep h ng np nr F' ->
  lands st (length ph) np nr F'.
Proof.
  intros Hph (q & act' & w' & p' & h' & rs' & ng' & np' & nr' & nn' & tr'
              & -> & HS & Hidle & Hq & _ & _ & _ & -> & Hnr).
  exists (<[s := q]> ph). do 10 eexists. split; [reflexivity|].
  split; [|split; [by rewrite length_insert|split; [done|done]]].
  split; [done|]. split; [done|]. by apply Forall_insert.
Qed.

Lemma render_waiter rec cls ro proxy kw st d w' :
  queue_waiting st = d :: w' ->
  render rec cls ro proxy kw st =
    (callback rec d
       (VArgs {| sa_rendercls := cls; sa_render_options := ro;
                 sa_splash_proxy_factory := splash_proxy_factory_cls st proxy;
                 sa_kwargs := kw; sa_pool_d := DPool (next_pool_d st) |}) ;;
     log (LogQueued (get_uid ro)) ;;
     ret (DPool (next_pool_d st)))
      (with_waiting w'
         (with_deferreds (<[DPool (next_pool_d st) := new_deferred false]>)
            (bump CPoolD st))).
Proof.
  intros Hw. unfold render, put.
  unfold bind, gets, modify, set_d. simpl. rewrite Hw. reflexivity.
Qed.

Lemma callback_plain rec d v :
  is_deferred v = false -> callback rec d v = _startRunCallbacks rec d v.
Proof. unfold callback. by intros ->. Qed.

Lemma transit_key_free ph act w p h rs ng np nr tr s q k :
  Shape ph act w p h rs ng np nr tr ->
  ph !! s = Some q -> key_of q = Some k ->
  forall s' q', <[s := Transit]> ph !! s' = Some q' -> key_of q' <> Some k.
Proof.
  intros HS Hs Hk s' q' Hs'.
  apply list_lookup_insert_Some in Hs' as [(<- & <- & _)|[Hne Hs']]; [done|].
  intros Hk'. destruct Hne.
  by apply (key_unique _ _ _ _ _ _ _ _ _ _ HS s s' q q' k).
Qed.

Lemma submit_flat f st ph act w p h rs ng np nr nn tr cls ro proxy kw :
  Good ph act w p h rs ng np nr tr -> 9 <= f ->
  exists F',
    render (exec f) cls ro proxy kw (flat st act w p h rs ng np nr nn tr)
      = (Ok (DPool np), F') /\
    lands st (length ph) (S np) nr F'.
Proof.
  intros (HS & Hidle & Hph) Hf.
  set (a := {| sa_rendercls := cls; sa_render_options := ro;
               sa_splash_proxy_factory := splash_proxy_factory_cls st proxy;
               sa_kwargs := kw; sa_pool_d := DPool np |}).
  destruct w as [|d w].
  - (* nobody waits: the job joins the queue *)
    rewrite render_no_waiter by reflexivity. autorewrite with flat.
    eexists. split; [reflexivity|].
    exists ph. do 10 eexists. split; [reflexivity|].
    split; [|split; [done|split; [done|lia]]].
    split; [|split; [done|done]].
    eapply (Shape_enqueue _ _ _ _ a); [exact HS|reflexivity| | |marks|marks].
    + by rewrite lookup_insert_eq.
    + intros d Hd. by rewrite lookup_insert_ne.
  - (* a slot waits: it takes the job *)
    rewrite (Hidle ltac:(done)) in *.
    destruct (sh_waiting _ _ _ _ _ _ _ _ _ _ HS d) as (s & k & -> & Hs).
    { apply elem_of_cons. by left. }
    destruct (sh_slots _ _ _ _ _ _ _ _ _ _ HS s _ Hs)
      as (Hk & _ & dw & Hdw & [Hwc Hwcb Hwr Hwp]).
    erewrite render_waiter by reflexivity. autorewrite with flat.
    fold a.
    set (h0 := <[DPool np := new_deferred false]> h).
    set (h1 := <[DGet k := d_fire (VArgs a) dw]> h0).
    assert (HSa : Shape ph act (DGet k :: w) ([] ++ [a]) h0 rs ng (S np) nr tr).
    { eapply Shape_enqueue; [exact HS|reflexivity| | |done|done].
      - unfold h0. by rewrite lookup_insert_eq.
      - intros d Hd. unfold h0. by rewrite lookup_insert_ne. }
    assert (HS1 : Shape (<[s := Transit]> ph) act w [a] h1 rs ng (S np) nr tr).
    { eapply Shape_pop; [exact HSa|exact Hs|].
      intros d Hd. unfold h1. by rewrite lookup_insert_ne. }
    assert (Hfree := transit_key_free _ _ _ _ _ _ _ _ _ _ s _ k HSa Hs eq_refl).
    assert (Hlen : s < length ph) by (by eapply lookup_lt_Some).
    assert (Hs1 : <[s := Transit]> ph !! s = Some Transit)
      by (by apply list_lookup_insert_eq).
    assert (Hph1 : Forall (fun q => q <> Transit) (<[s := Running k nr]> ph))
      by (by apply Forall_insert).
    destruct f as [|[|[|[|[|f]]]]]; try lia.
    destruct (start_on_slot f st (<[s := Transit]> ph) act w a [] h1 rs
                ng (S np) nr nn tr s k (d_fire (VArgs a) dw) [wait_pair s]
                HS1 Hs1 Hk Hfree
                ltac:(unfold h1; by rewrite lookup_insert_eq)
                Hwcb Hwr Hwp eq_refl)
      as [(hx & tr' & E & HSh & Hfr)
         |(act' & hx & tr' & v' & E & Hv & HSh & Hfr)].
    + erewrite bind_ok.
      2:{ rewrite callback_plain by reflexivity.
          erewrite startRun_uncalled; [|unfold h0; look'|exact Hwc].
          autorewrite with flat. fold h0. fold h1. exact E. }
      erewrite bind_ok by apply log_flat.
      eexists. split; [reflexivity|].
      exists (<[s := Running k nr]> ph). do 10 eexists.
      split; [reflexivity|].
      split; [|split; [by rewrite length_insert|split; [done|lia]]].
      split; [|split; [|done]].
      * eapply Shape_scratch with (ng := ng) (tr := tr');
          [|left; reflexivity|done|marks|marks].
        rewrite <- (list_insert_insert_eq ph s (Running k nr) Transit).
        apply HSh. constructor; try done. simpl. by rewrite Hwp.
      * done.
    + destruct (resume 0 (wait_all 0) (S (S (S f))) st (<[s := Transit]> ph)
                  act' w [] (<[DGet k := d_resumed v' [wait_pair s]
                                          (d_fire (VArgs a) dw)]> hx)
                  (<[nr := mk_obj a nn (verbosity st) nr]> rs)
                  ng (S np) (S nr) (S nn) tr' s k
                  (d_resumed v' [wait_pair s] (d_fire (VArgs a) dw))
                  ltac:(simpl; lia) ltac:(lia) (HSh _) ltac:(done) Hs1 Hk
                  Hfree ltac:(by rewrite lookup_insert_eq)
                  eq_refl eq_refl Hwp Hv)
        as (F' & E2 & Hset).
      erewrite bind_ok.
      2:{ rewrite callback_plain by reflexivity.
          erewrite startRun_uncalled; [|unfold h0; look'|exact Hwc].
          autorewrite with flat. fold h0. fold h1. rewrite E. exact E2. }
      destruct Hset as (q & act2 & w2 & p2 & h2 & rs2 & ng2 & np2 & nr2 & nn2
          & tr2 & -> & HS2 & Hidle2 & Hq & Hfr2 & Hng2 & Hk2 & Hnp2 & Hnr2).
      erewrite bind_ok by apply log_flat.
      eexists. split; [reflexivity|].
      exists (<[s := q]> ph). do 10 eexists. split; [reflexivity|].
      split; [|split; [by rewrite length_insert|split; [done|lia]]].
      split; [|split; [done|by apply Forall_insert]].
      eapply Shape_scratch with (ng := ng2) (tr := tr2);
        [|left; reflexivity|done|marks|marks].
      by rewrite list_insert_insert_eq in HS2.
Qed.

Lemma settles_lands' st ph s keep h ng np nr F' :
  Forall (fun q => q <> Transit) ph ->
  settles st (<[s := Transit]> ph) s keep h ng np nr F' ->
  lands st (length ph) np nr F'.
Proof.
  intros Hph (q & act' & w' & p' & h' & rs' & ng' & np' & nr' & nn' & tr'
              & -> & HS & Hidle & Hq & _ & _ & _ & -> & Hnr).
  rewrite list_insert_insert_eq in HS.
  exists (<[s := q]> ph). do 10 eexists. split; [reflexivity|].
  split; [|split; [by rewrite length_insert|split; [done|done]]].
  split; [done|]. split; [done|]. by apply Forall_insert.
Qed.

Lemma step_complete_eq f r o st :
  step f (Complete r o) st =
    match renders st !! r with
    | None => (Ok tt, st)
    | Some obj =>
        _startRunCallbacks (exec f) (r_deferred obj) (value_of_outcome o) st
    end.
Proof.
  simpl. unfold bind, gets. destruct (renders st !! r); [|reflexivity].
  by destruct o.
Qed.

Lemma outcome_plain o : is_deferred (value_of_outcome o) = false.
Proof. by destruct o. Qed.

(** The state when the future of a running render has fired and its
    handle has gone through [_error] and [_close_render]. *)
Lemma job_done_flat st act w p h rs ng np nr nn tr j r s obj v hd rdf rest :
  job_done j r s obj v hd rdf rest (flat st act w p h rs ng np nr nn tr) =
    flat st (act ∖ {[r]}) w p
      (<[DRender r := settled_with VNone rest rdf]>
         (<[DPool j :=
              settled
                (handle_result v
                   (close_core (verbosity st) (debug_key st) (redis_up st)
                      (clock st) rs act obj r s).2) hd]> h))
      rs ng np nr nn
      (tr ++ error_core (verbosity st) obj v r s
          ++ (close_core (verbosity st) (debug_key st) (redis_up st)
                (clock st) rs act obj r s).1).
Proof.
  unfold job_done, close_summary, error_events.
  autorewrite with flat. reflexivity.
Qed.

Lemma complete_flat f st ph act w p h rs ng np nr nn tr r o :
  Good ph act w p h rs ng np nr tr -> length p + 9 <= f ->
  exists res F',
    step f (Complete r o) (flat st act w p h rs ng np nr nn tr) = (res, F')
    /\ res <> OutOfFuel /\ lands st (length ph) np nr F'
    /\ (forall s k obj,
          ph !! s = Some (Running k r) -> rs !! r = Some obj ->
          res = Ok tt /\
          handle_result_of r F' =
            Some (handle_result (value_of_outcome o)
                    (close_core (verbosity st) (debug_key st) (redis_up st)
                       (clock st) rs act obj r s).2)).
Proof.
  intros (HS & Hidle & Hph) Hf.
  assert (Hsame : lands st (length ph) np nr
                    (flat st act w p h rs ng np nr nn tr)).
  { exists ph. do 10 eexists. split; [reflexivity|].
    split; [done|]. split; [done|]. split; [done|lia]. }
  rewrite step_complete_eq, renders_flat.
  destruct (rs !! r) as [obj|] eqn:Hr.
  2:{ eexists _, _. split; [reflexivity|]. split; [done|]. split; [done|].
      intros s k obj _ Ho. congruence. }
  destruct (sh_renders _ _ _ _ _ _ _ _ _ _ HS r obj Hr)
    as (Hlt & Hrd & df & Hdf & Hc).
  rewrite Hrd. pose proof (outcome_plain o) as Hv.
  set (v := value_of_outcome o) in *.
  destruct Hc as [[[Hcal Hsup]| ->]|(s & k & Hs)].
  - (* settled already *)
    erewrite startRun_called; [|look'|done|done].
    eexists _, _. split; [reflexivity|]. split; [done|]. split; [done|].
    intros s k obj' Hs _.
    destruct (sh_slots _ _ _ _ _ _ _ _ _ _ HS s _ Hs)
      as (_ & _ & _ & _ & (rdf & Hrdf & [Hfc _ _ _ _]) & _).
    rewrite Hdf in Hrdf. inversion Hrdf; subst rdf. congruence.
  - (* never started: nothing waits for it *)
    erewrite startRun_uncalled; [|look'|reflexivity].
    destruct f as [|f]; [lia|]. rewrite exec_run.
    erewrite runCallbacks_nil; [|look'|reflexivity|reflexivity].
    autorewrite with flat.
    assert (Hnot : forall s k, ph !! s <> Some (Running k r)).
    { intros s k Hs.
      destruct (sh_slots _ _ _ _ _ _ _ _ _ _ HS s _ Hs)
        as (_ & _ & _ & _ & (rdf & Hrdf & [_ Hcb _ _ _]) & _).
      rewrite Hdf in Hrdf. by inversion Hrdf; subst rdf. }
    eexists _, _. split; [reflexivity|]. split; [done|].
    split; [|intros s k obj' Hs _; by destruct (Hnot s k)].
    exists ph. do 10 eexists. split; [reflexivity|].
    split; [|split; [done|split; [done|lia]]]. split; [|done].
    eapply (Shape_spend _ _ _ _ _ _ _ _ _ _ _ r);
      [exact HS|exact Hnot| | |].
    + by rewrite lookup_insert_eq.
    + by left.
    + intros d Hd. by rewrite lookup_insert_ne.
  - (* running on slot [s] *)
    destruct (sh_slots _ _ _ _ _ _ _ _ _ _ HS s _ Hs)
      as (Hk & _ & Hact & (dk & Hdk & [Hpc Hpr Hpp])
          & (rdf & Hrdf & [Hfc Hfcb Hfr Hfp Hfs])
          & (hd & Hhd & [Hhc Hhcb Hhr Hhp]) & _).
    destruct f as [|[|[|[|f]]]]; try lia.
    rewrite (fire_render f r v r s (flat st act w p h rs ng np nr nn tr)
               obj hd rdf [CONTINUE (DGet k)]
               Hhd Hhc Hhcb Hhr Hhp Hr Hrd Hrdf Hfc Hfcb Hfr Hfp Hact Hv).
    rewrite job_done_flat.
    set (res := handle_result v
                  (close_core (verbosity st) (debug_key st) (redis_up st)
                     (clock st) rs act obj r s).2).
    set (tr1 := tr ++ error_core (verbosity st) obj v r s
                   ++ (close_core (verbosity st) (debug_key st) (redis_up st)
                         (clock st) rs act obj r s).1).
    rewrite exec_run.
    erewrite runCallbacks_continue with (cf := dk);
      [|look'|reflexivity|exact Hfp|reflexivity|done|look'].
    autorewrite with flat.
    set (dk2 := d_with_paused (paused dk - 1)
                  (d_with_result
                     (result (settled_with VNone [CONTINUE (DGet k)] rdf))
                     dk)).
    set (rd2 := d_with_result VNone
                  (d_with_callbacks []
                     (settled_with VNone [CONTINUE (DGet k)] rdf))).
    set (h2 := <[DGet k := dk2]>
                 (<[DRender r := rd2]>
                    (<[DRender r :=
                         settled_with VNone [CONTINUE (DGet k)] rdf]>
                       (<[DPool r := settled res hd]> h)))).
    assert (HS2 : Shape (<[s := Transit]> ph) (act ∖ {[r]}) w p h2 rs
                    ng np nr tr1).
    { eapply Shape_finish; [exact HS|exact Hs| | | | |].
      - intros d H1 H2 H3. unfold h2. by rewrite !lookup_insert_ne.
      - unfold h2. rewrite lookup_insert_ne by done.
        by rewrite lookup_insert_eq.
      - left. split; [reflexivity|exact Hfs].
      - unfold tr1. marks.
      - unfold tr1. marks. }
    assert (Hfree := transit_key_free _ _ _ _ _ _ _ _ _ _ s _ k HS Hs eq_refl).
    assert (Hlen : s < length ph) by (by eapply lookup_lt_Some).
    destruct (resume (length p) (wait_all _) (S f) st (<[s := Transit]> ph)
                (act ∖ {[r]}) w p h2 rs ng np nr nn tr1 s k dk2
                ltac:(lia) ltac:(lia) HS2 Hidle
                ltac:(by apply list_lookup_insert_eq) Hk Hfree
                ltac:(unfold h2; by rewrite lookup_insert_eq)
                Hpc Hpr ltac:(simpl; by rewrite Hpp) eq_refl)
      as (F' & E2 & Hset).
    erewrite bind_ok by exact E2.
    pose proof (settles_lands' _ _ _ _ _ _ _ _ _ Hph Hset) as Hl.
    destruct Hset as (q & act2 & w2 & p2 & h3 & rs2 & ng2 & np2 & nr2 & nn2
        & tr2 & -> & _ & _ & _ & Hfr2 & _).
    rewrite exec_run.
    erewrite runCallbacks_nil with (df := rd2);
      [|autorewrite with flat|reflexivity|reflexivity].
    + eexists _, _. split; [reflexivity|]. split; [done|]. split; [done|].
      intros s' k' obj' Hs' Ho'. split; [done|].
      assert (s' = s) as ->
        by (by apply (render_unique _ _ _ _ _ _ _ _ _ _ HS s' s k' k r)).
      assert (obj' = obj) as -> by congruence.
      unfold handle_result_of. autorewrite with flat.
      rewrite Hfr2; [|split; [exact Hlt|done]].
      unfold h2. rewrite !lookup_insert_ne by done.
      by rewrite lookup_insert_eq.
    + rewrite Hfr2; [|split; [exact Hlt|done]].
      unfold h2. rewrite lookup_insert_ne by done.
      by rewrite lookup_insert_eq.
Qed.

(** ** Runs *)

Lemma Inv_flat ph st act w p h rs ng np nr nn tr :
  Inv ph (flat st act w p h rs ng np nr nn tr)
  <-> Good ph act w p h rs ng np nr tr.
Proof. reflexivity. Qed.

Lemma lands_Inv st n np nr F' :
  lands st n np nr F' ->
  exists ph', Inv ph' F' /\ length ph' = n
              /\ next_pool_d F' = np /\ nr <= next_render F'.
Proof.
  intros (ph' & act' & w' & p' & h' & rs' & ng' & np' & nr' & nn' & tr'
          & -> & HG & Hlen & Hnp & Hnr).
  exists ph'. by rewrite Inv_flat.
Qed.

Lemma Inv_pending ph st :
  Inv ph st ->
  next_pool_d st = next_render st + length (queue_pending st).
Proof. intros (HS & _). exact (sh_count _ _ _ _ _ _ _ _ _ _ HS). Qed.

(** The number of [render] calls among the inputs. *)
Definition submits (inputs : list input) : nat :=
  length (filter (fun i => is_submit i = true) inputs).

(** One input, with fuel for the jobs in the queue: the pool takes it and
    is at rest again. *)
Lemma step_inv f i st ph :
  Inv ph st -> length (queue_pending st) + 9 <= f ->
  exists res st' ph',
    step f i st = (res, st') /\ res <> OutOfFuel /\
    Inv ph' st' /\ length ph' = length ph /\
    next_pool_d st' = next_pool_d st + submits [i] /\
    next_render st <= next_render st'.
Proof.
  intros HI Hf.
  destruct i as [cls ro proxy kw|r o|up now].
  - destruct (submit_flat f st ph _ _ _ _ _ _ _ _ (next_network_manager st) _
                cls ro proxy kw HI ltac:(lia)) as (F' & E & HL).
    change (flat st _ _ _ _ _ _ _ _ _ _) with (same st) in E.
    rewrite same_eq in E.
    cbn [step]. erewrite bind_ok by exact E. unfold ret.
    destruct (lands_Inv _ _ _ _ _ HL) as (ph' & H1 & H2 & H3 & H4).
    exists (Ok tt), F', ph'. split_and!; try done.
    rewrite H3. unfold submits. simpl. lia.
  - destruct (complete_flat f st ph _ _ _ _ _ _ _ _ (next_network_manager st)
                _ r o HI Hf) as (res & F' & E & Hres & HL & _).
    change (flat st _ _ _ _ _ _ _ _ _ _) with (same st) in E.
    rewrite same_eq in E.
    rewrite E. destruct (lands_Inv _ _ _ _ _ HL) as (ph' & H1 & H2 & H3 & H4).
    exists res, F', ph'. split_and!; try done.
    rewrite H3. unfold submits. simpl. lia.
  - cbn [step]. unfold modify.
    exists (Ok tt). eexists. exists ph. split; [reflexivity|].
    split; [done|]. split; [exact HI|]. split; [done|].
    unfold submits. simpl. lia.
Qed.

Lemma submits_cons i inputs : submits (i :: inputs) = submits [i] + submits inputs.
Proof.
  unfold submits. rewrite !filter_cons. destruct (decide _); simpl; lia.
Qed.

(** Any run with fuel for its inputs and the jobs in the queue goes
    through, and leaves the pool at rest. *)
Lemma run_inv inputs : forall f st ph,
  Inv ph st ->
  length inputs + length (queue_pending st) + 9 <= f ->
  exists st' ph',
    run f inputs st = Some st' /\ Inv ph' st' /\ length ph' = length ph /\
    next_pool_d st' = next_pool_d st + submits inputs.
Proof.
  induction inputs as [|i inputs IH]; intros f st ph HI Hf.
  - exists st, ph. unfold submits. simpl. by split_and!.
  - simpl in Hf.
    destruct (step_inv f i st ph HI ltac:(lia))
      as (res & st1 & ph1 & E & Hres & HI1 & Hlen1 & Hnp1 & Hnr1).
    assert (Hp1 : length (queue_pending st1) <= S (length (queue_pending st))).
    { pose proof (Inv_pending _ _ HI). pose proof (Inv_pending _ _ HI1).
      assert (submits [i] <= 1).
      { unfold submits. rewrite filter_cons.
        destruct (decide _); simpl; lia. }
      lia. }
    destruct (IH f st1 ph1 HI1 ltac:(lia))
      as (st' & ph' & Hrun & HI' & Hlen' & Hnp').
    exists st', ph'. split; [|split; [done|split; [congruence|]]].
    + simpl. rewrite E. by destruct res.
    + rewrite Hnp', Hnp1, (submits_cons i inputs). lia.
Qed.

(** The constructor: the loop over [range(slots)]. *)
Lemma arm_slots rec st ns : forall ph act w h rs ng np nr nn tr,
  Shape ph act w [] h rs ng np nr tr ->
  (forall s, s ∈ ns -> ph !! s = Some Transit) ->
  NoDup ns ->
  exists ph' h',
    for_range ns (fun n => _wait_for_render rec VNone n false ;; ret tt)
      (flat st act w [] h rs ng np nr nn tr)
    = (Ok tt,
       flat st act (w ++ (DGet <$> seq ng (length ns))) [] h' rs
         (ng + length ns) np nr nn tr) /\
    Shape ph' act (w ++ (DGet <$> seq ng (length ns))) [] h' rs
      (ng + length ns) np nr tr /\
    length ph' = length ph /\
    (forall s, s ∈ ns -> exists q, ph' !! s = Some q /\ q <> Transit) /\
    (forall s, s ∉ ns -> ph' !! s = ph !! s) /\
    (forall i s, ns !! i = Some s -> ph' !! s = Some (Waiting (ng + i))).
Proof.
  induction ns as [|s ns IH]; intros ph act w h rs ng np nr nn tr HS Hns Hnd.
  - exists ph, h. simpl. rewrite app_nil_r, Nat.add_0_r.
    split_and!; try done. intros s Hs. by apply elem_of_nil in Hs.
  - apply NoDup_cons in Hnd as [Hs Hnd].
    assert (Hst : ph !! s = Some Transit) by (apply Hns; by left).
    assert (HS1 : Shape (<[s := Waiting ng]> ph) act (w ++ [DGet ng]) []
                    (<[DGet ng := waiter s]> h) rs (S ng) np nr tr).
    { eapply Shape_wait; [exact HS|exact Hst| |apply waiter_is_waiter| |done|done].
      - by rewrite lookup_insert_eq.
      - intros d Hd. by rewrite lookup_insert_ne. }
    destruct (IH _ _ _ _ _ _ _ _ nn _ HS1)
      as (ph' & h' & E & HS' & Hlen & Hin & Hout & Hidx).
    { intros s' Hs'. rewrite list_lookup_insert_ne; [|by intros ->].
      apply Hns. by right. }
    { done. }
    exists ph', h'. simpl for_range.
    erewrite bind_ok.
    2:{ erewrite bind_ok by apply wait_for_render_idle. reflexivity. }
    unfold ev_available. rewrite app_nil_r.
    simpl length. rewrite <- app_assoc in E, HS'. simpl in E, HS'.
    replace (ng + S (length ns)) with (S ng + length ns) by lia.
    split; [exact E|]. split; [exact HS'|].
    assert (Hhead : ph' !! s = Some (Waiting ng)).
    { rewrite Hout by done. apply list_lookup_insert_eq.
      by eapply lookup_lt_Some. }
    split; [by rewrite Hlen, length_insert|]. split; [|split].
    + intros s' [->|Hs']%elem_of_cons; [|by apply Hin].
      by exists (Waiting ng).
    + intros s' [Hne Hs']%not_elem_of_cons.
      rewrite Hout by done. by rewrite list_lookup_insert_ne.
    + intros [|i] s' Hi; simpl in Hi.
      * inversion Hi; subst s'. by rewrite Nat.add_0_r.
      * rewrite (Hidx i s' Hi). do 2 f_equal. lia.
Qed.

Lemma Shape_empty n :
  Shape (replicate n Transit) ∅ [] [] ∅ ∅ 0 0 0 [].
Proof.
  constructor; try done.
  - intros s q [-> _]%lookup_replicate. done.
  - apply NoDup_nil_2.
  - intros d Hd. by apply elem_of_nil in Hd.
  - intros j Hj Hj'. lia.
Qed.

Definition env_port (env : environ) : Z :=
  match REDIS_PORT env with Some (Returns p) => p | _ => 6379%Z end.

Definition env_host (env : environ) : string :=
  match REDIS_HOST env with Some h => h | None => "127.0.0.1" end.

(** The pool the constructor leaves: every slot waits on the queue. *)
Lemma init_inv f slots cls js v env :
  (forall e, REDIS_PORT env <> Some (Raises e)) ->
  exists st0 ph0,
    new_pool f slots cls js v env = (Ok tt, st0) /\
    Inv ph0 st0 /\ length ph0 = Z.to_nat slots /\
    queue_pending st0 = [] /\
    queue_waiting st0 = DGet <$> seq 0 (Z.to_nat slots) /\
    next_render st0 = 0 /\ next_pool_d st0 = 0 /\ active st0 = ∅ /\
    renders st0 = ∅ /\ verbosity st0 = v /\
    trace st0 = [ELog "debug-urls" (LogRedis (env_host env) (env_port env))]
    /\ (forall s, s < Z.to_nat slots -> ph0 !! s = Some (Waiting s)).
Proof.
  intros Hport. unfold new_pool, __init__.
  unfold bind at 1, modify at 1. cbv beta iota.
  set (c := match cls with Some c => c | None => fun _ => None end).
  set (st0 := with_config c js v blank).
  change st0 with (flat st0 ∅ [] [] ∅ ∅ 0 0 0 0 []).
  set (N := Z.to_nat slots).
  destruct (arm_slots (exec f) st0 (seq 0 N) (replicate N Transit)
              ∅ [] ∅ ∅ 0 0 0 0 [] (Shape_empty N))
    as (ph' & h' & E & HS & Hlen & Hin & _ & Hidx).
  { intros s Hs%elem_of_seq. apply lookup_replicate_2. lia. }
  { apply NoDup_seq. }
  rewrite length_seq in E, HS. simpl in E, HS.
  erewrite bind_ok by exact E.
  assert (Hph : Forall (fun q => q <> Transit) ph').
  { apply Forall_lookup. intros s q Hs.
    destruct (Hin s) as (q' & Hq' & Hne).
    - apply elem_of_seq. apply lookup_lt_Some in Hs.
      rewrite Hlen, length_replicate in Hs. lia.
    - congruence. }
  exists (with_debug
            ("splash-urls-" +:+
               match MESOS_TASK_ID env with
               | Some t => t | None => uuid4 env end)
            (env_host env) (env_port env)
            (emit (ELog "debug-urls" (LogRedis (env_host env) (env_port env)))
               (flat st0 ∅ (DGet <$> seq 0 N) [] h' ∅ N 0 0 0 []))), ph'.
  split.
  - unfold env_port, env_host.
    destruct (REDIS_PORT env) as [[p|e]|] eqn:Ep;
      [reflexivity|by destruct (Hport e)|reflexivity].
  - split; [|split; [by rewrite Hlen, length_replicate|]].
    + split; [|split; [done|done]].
      eapply (Shape_scratch ph' ∅ _ [] h' h' ∅ N N 0 0 []);
        [exact HS|by left|done|done|done].
    + split_and!; try done. intros s Hs.
      apply (Hidx s s). by apply lookup_seq_lt.
Qed.

(* ===================================================================== *)
(** ** What holds of every run *)
(* ===================================================================== *)

(** The environment gives a port the constructor can read. *)
Definition port_ok (env : environ) : Prop :=
  forall e, REDIS_PORT env <> Some (Raises e).

Lemma pool_inv f slots cls js v env inputs :
  port_ok env -> length inputs + 9 <= f ->
  exists st ph,
    pool_run f slots cls js v env inputs = Some st /\
    Inv ph st /\ length ph = Z.to_nat slots /\
    next_pool_d st = submits inputs.
Proof.
  intros Hport Hf.
  destruct (init_inv f slots cls js v env Hport)
    as (st0 & ph0 & E & HI & Hlen & Hp & _ & _ & Hnp & _).
  destruct (run_inv inputs f st0 ph0 HI ltac:(rewrite Hp; simpl; lia))
    as (st & ph & Hrun & HI' & Hlen' & Hnp').
  exists st, ph. unfold pool_run. rewrite E.
  split_and!; try done; [congruence|lia].
Qed.

(** The inputs used to show the theorems below at work: four jobs on two
    slots, one of them finishing. *)
Definition sample_inputs : list input :=
  [Submit cls_async (url_ok "a") None [];
   Submit cls_sync (url_ok "b") None [];
   Submit cls_raise (url_ok "c") None [];
   Submit cls_async (url_ok "d") None [];
   Submit cls_async (url_ok "e") None [];
   Complete 0 (Succeeds "A")].

(** X6: jobs leave the queue in the order of the [render] calls.  With
    [DPool j] the handle the [j]-th call returned: the handles of the jobs
    taken by the slots so far are [DPool 0 .. DPool (n-1)] in this order,
    the queue holds the jobs of the handles that follow, in order, and
    together they are the jobs submitted. *)
Theorem fifo_order f slots cls js v env inputs :
  port_ok env -> length inputs + 9 <= f ->
  exists st,
    pool_run f slots cls js v env inputs = Some st /\
    dequeued (trace st) = DPool <$> seq 0 (next_render st) /\
    sa_pool_d <$> queue_pending st =
      DPool <$> seq (next_render st) (length (queue_pending st)) /\
    next_render st + length (queue_pending st) = submits inputs.
Proof.
  intros Hport Hf.
  destruct (pool_inv f slots cls js v env inputs Hport Hf)
    as (st & ph & E & (HS & _) & _ & Hnp).
  exists st. split; [done|].
  split; [exact (sh_dequeued _ _ _ _ _ _ _ _ _ _ HS)|]. split.
  - apply list_eq. intros i. rewrite !list_lookup_fmap.
    destruct (queue_pending st !! i) as [a|] eqn:Ha; simpl.
    + rewrite (sh_pending _ _ _ _ _ _ _ _ _ _ HS i a Ha).
      rewrite lookup_seq_lt; [done|]. by eapply lookup_lt_Some.
    + rewrite lookup_seq_ge; [done|]. by apply lookup_ge_None.
  - rewrite <- Hnp. symmetry. exact (sh_count _ _ _ _ _ _ _ _ _ _ HS).
Qed.

Lemma fifo_order_witness :
  exists st,
    pool_run 20 2 None None 2 env0 sample_inputs = Some st /\
    dequeued (trace st) = DPool <$> seq 0 (next_render st) /\
    sa_pool_d <$> queue_pending st =
      DPool <$> seq (next_render st) (length (queue_pending st)) /\
    next_render st + length (queue_pending st) = submits sample_inputs.
Proof.
  apply (fifo_order 20 2 None None 2 env0 sample_inputs).
  - intros e. discriminate.
  - simpl. lia.
Defined.

(** X7: [start] is called on the renders in the order of the jobs, on
    each at most once: the renders started so far, in the order of the
    calls, are an increasing run of job numbers (a job is left out when
    [get_url()] raised before its [start]). *)
Theorem starts_in_order f slots cls js v env inputs :
  port_ok env -> length inputs + 9 <= f ->
  exists st,
    pool_run f slots cls js v env inputs = Some st /\
    starts (trace st) `sublist_of` seq 0 (next_render st) /\
    NoDup (starts (trace st)).
Proof.
  intros Hport Hf.
  destruct (pool_inv f slots cls js v env inputs Hport Hf)
    as (st & ph & E & (HS & _) & _ & _).
  exists st. split; [done|].
  pose proof (sh_starts _ _ _ _ _ _ _ _ _ _ HS) as H.
  split; [done|]. eapply sublist_NoDup; [apply NoDup_seq|exact H].
Qed.

Lemma starts_in_order_witness :
  exists st,
    pool_run 20 2 None None 2 env0 sample_inputs = Some st /\
    starts (trace st) `sublist_of` seq 0 (next_render st) /\
    NoDup (starts (trace st)).
Proof.
  apply (starts_in_order 20 2 None None 2 env0 sample_inputs).
  - intros e. discriminate.
  - simpl. lia.
Defined.

(** X8: while a job is in the queue its handle has not fired and the
    pool has attached nothing to it. *)
Theorem queued_handles_untouched f slots cls js v env inputs :
  port_ok env -> length inputs + 9 <= f ->
  exists st,
    pool_run f slots cls js v env inputs = Some st /\
    forall i a, queue_pending st !! i = Some a ->
      deferreds st !! sa_pool_d a = Some (new_deferred false).
Proof.
  intros Hport Hf.
  destruct (pool_inv f slots cls js v env inputs Hport Hf)
    as (st & ph & E & (HS & _) & _ & _).
  exists st. split; [done|]. intros i a Ha.
  rewrite (sh_pending _ _ _ _ _ _ _ _ _ _ HS i a Ha).
  apply (sh_fresh _ _ _ _ _ _ _ _ _ _ HS); [lia|].
  rewrite (sh_count _ _ _ _ _ _ _ _ _ _ HS).
  apply lookup_lt_Some in Ha. lia.
Qed.

Lemma queued_handles_untouched_witness :
  exists st,
    pool_run 20 2 None None 2 env0 sample_inputs = Some st /\
    forall i a, queue_pending st !! i = Some a ->
      deferreds st !! sa_pool_d a = Some (new_deferred false).
Proof.
  apply (queued_handles_untouched 20 2 None None 2 env0 sample_inputs).
  - intros e. discriminate.
  - simpl. lia.
Defined.

(** Counting slots. *)
Definition held (ph : list phase) (s : nat) : option (dref + nat) :=
  match ph !! s with
  | Some (Waiting k) => Some (inl (DGet k))
  | Some (Running _ r) => Some (inr r)
  | _ => None
  end.

Lemma held_length ph :
  Forall (fun q => q <> Transit) ph ->
  length (omap (held ph) (seq 0 (length ph))) = length ph.
Proof.
  intros Hph.
  assert (H : forall l, (forall s, s ∈ l -> is_Some (held ph s)) ->
                        length (omap (held ph) l) = length l).
  { induction l as [|s l IH]; intros Hl; [done|]. simpl.
    destruct (Hl s ltac:(by left)) as [x ->]. simpl. f_equal.
    apply IH. intros s' Hs'. apply Hl. by right. }
  rewrite H; [by rewrite length_seq|].
  intros s [_ Hs]%elem_of_seq. simpl in Hs. unfold held.
  destruct (lookup_lt_is_Some_2 ph s Hs) as [q Hq]. rewrite Hq.
  rewrite Forall_lookup in Hph. specialize (Hph s q Hq).
  by destruct q.
Qed.

Lemma NoDup_omap_inj {A B} (g : A -> option B) (l : list A) :
  NoDup l ->
  (forall x y z, x ∈ l -> y ∈ l -> g x = Some z -> g y = Some z -> x = y) ->
  NoDup (omap g l).
Proof.
  induction 1 as [|x l Hx Hnd IH]; intros Hg; [constructor|].
  simpl. destruct (g x) as [z|] eqn:Ez.
  - constructor.
    + intros (y & Hy & Ey)%list_elem_of_omap.
      assert (x = y) by (apply (Hg x y z); [by left|by right|done|done]).
      by subst.
    + apply IH. intros x' y' z' Hx' Hy'. apply Hg; by right.
  - apply IH. intros x' y' z' Hx' Hy'. apply Hg; by right.
Qed.

Lemma held_inj ph act w p h rs ng np nr tr s s' x :
  Shape ph act w p h rs ng np nr tr ->
  held ph s = Some x -> held ph s' = Some x -> s = s'.
Proof.
  intros HS. unfold held.
  destruct (ph !! s) as [[k|k r|]|] eqn:Hs; try done;
    destruct (ph !! s') as [[k'|k' r'|]|] eqn:Hs'; try done;
    intros E1 E2; rewrite <- E2 in E1; inversion E1; subst.
  - by apply (key_unique _ _ _ _ _ _ _ _ _ _ HS s s' _ _ k' Hs Hs').
  - by apply (render_unique _ _ _ _ _ _ _ _ _ _ HS s s' k k' r' Hs Hs').
Qed.

(** The renders in the active set whose [start] was called. *)
Definition started_active (st : state) : list nat :=
  filter (fun r => r ∈ starts (trace st)) (elements (active st)).

Lemma slots_count ph st :
  Inv ph st ->
  length (queue_waiting st) + length (started_active st) <= length ph
  /\ length ph <= length (queue_waiting st) + size (active st).
Proof.
  intros (HS & _ & Hph).
  set (G := omap (held ph) (seq 0 (length ph))).
  assert (HG : length G = length ph) by (by apply held_length).
  assert (HGnd : NoDup G).
  { apply NoDup_omap_inj; [apply NoDup_seq|].
    intros s s' x _ _. by apply (held_inj _ _ _ _ _ _ _ _ _ _ _ _ _ HS). }
  assert (Hin : forall s x, held ph s = Some x -> x ∈ G).
  { intros s x Hx. apply list_elem_of_omap. exists s. split; [|done].
    apply elem_of_seq. split; [lia|]. simpl. unfold held in Hx.
    destruct (ph !! s) eqn:Hs; [|done]. by eapply lookup_lt_Some. }
  split.
  - set (l := (inl <$> queue_waiting st) ++ (inr <$> started_active st)
         : list (dref + nat)).
    assert (Hl : length l = length (queue_waiting st)
                            + length (started_active st)).
    { unfold l. by rewrite length_app, !length_fmap. }
    rewrite <- Hl, <- HG. apply submseteq_length, NoDup_submseteq.
    + unfold l. apply NoDup_app. split; [|split].
      * apply NoDup_fmap; [by intros ?? [=]|].
        exact (sh_nodup _ _ _ _ _ _ _ _ _ _ HS).
      * intros x (d & -> & _)%list_elem_of_fmap (r & [=] & _)%list_elem_of_fmap.
      * apply NoDup_fmap; [by intros ?? [=]|].
        apply NoDup_filter, NoDup_elements.
    + intros x [(d & -> & Hd)%list_elem_of_fmap
               |(r & -> & Hr)%list_elem_of_fmap]%elem_of_app.
      * destruct (sh_waiting _ _ _ _ _ _ _ _ _ _ HS d Hd) as (s & k & -> & Hs).
        apply (Hin s). unfold held. by rewrite Hs.
      * apply list_elem_of_filter in Hr as [Hst Hr%elem_of_elements].
        destruct (sh_active _ _ _ _ _ _ _ _ _ _ HS r Hr)
          as [_ [(s & k & Hs)|Hn]]; [|done].
        apply (Hin s). unfold held. by rewrite Hs.
  - set (l := (inl <$> queue_waiting st) ++ (inr <$> elements (active st))
         : list (dref + nat)).
    assert (Hl : length l = length (queue_waiting st) + size (active st)).
    { unfold l. by rewrite length_app, !length_fmap. }
    rewrite <- Hl, <- HG. apply submseteq_length, NoDup_submseteq; [done|].
    intros x (s & _ & Hx)%list_elem_of_omap. unfold held in Hx.
    destruct (ph !! s) as [[k|k r|]|] eqn:Hs; try done;
      inversion Hx; subst x; unfold l; apply elem_of_app.
    + left. apply list_elem_of_fmap. exists (DGet k). split; [done|].
      by destruct (sh_slots _ _ _ _ _ _ _ _ _ _ HS s _ Hs) as (_ & H & _).
    + right. apply list_elem_of_fmap. exists r. split; [done|].
      apply elem_of_elements.
      by destruct (sh_slots _ _ _ _ _ _ _ _ _ _ HS s _ Hs) as (_ & _ & H & _).
Qed.

(** X9: each slot has one job at a time.  At the end of any run, the
    slots that wait on the queue and the renders that are in the active
    set and were started are no more than the slots, together: a render
    that is in the active set beyond that was never started (its
    [_start_render] was cut short by [get_url()] raising). *)
Theorem one_job_per_slot f slots cls js v env inputs :
  port_ok env -> length inputs + 9 <= f ->
  exists st,
    pool_run f slots cls js v env inputs = Some st /\
    length (queue_waiting st) + length (started_active st)
      <= Z.to_nat slots /\
    NoDup (queue_waiting st).
Proof.
  intros Hport Hf.
  destruct (pool_inv f slots cls js v env inputs Hport Hf)
    as (st & ph & E & HI & Hlen & _).
  exists st. split; [done|].
  destruct (slots_count ph st HI) as [H _]. rewrite Hlen in H.
  split; [done|]. destruct HI as (HS & _).
  exact (sh_nodup _ _ _ _ _ _ _ _ _ _ HS).
Qed.

Lemma one_job_per_slot_witness :
  exists st,
    pool_run 20 2 None None 2 env0 sample_inputs = Some st /\
    length (queue_waiting st) + length (started_active st)
      <= Z.to_nat 2 /\
    NoDup (queue_waiting st).
Proof.
  apply (one_job_per_slot 20 2 None None 2 env0 sample_inputs).
  - intros e. discriminate.
  - simpl. lia.
Defined.

(** Slot [s] is back on the queue: the deferred of one of its [get]
    calls is in [queue.waiting], unfired, with [_start_render] and then
    [_wait_for_render] of slot [s] as its callbacks. *)
Definition slot_waits (st : state) (s : nat) : Prop :=
  exists k df,
    DGet k ∈ queue_waiting st /\
    deferreds st !! DGet k = Some df /\ is_waiter s df.

(** Slot [s] holds render [r]: [r] is in the active set; its future is
    unsettled and, once it fires, fires the handle of job [r] and resumes
    the deferred of the slot's [get], which waits for it with
    [_wait_for_render] of slot [s] as its next callback; the handle is
    unfired and carries [_error] and [_close_render] of [r] and [s]. *)
Definition slot_holds (st : state) (s r : nat) : Prop :=
  r ∈ active st /\
  exists k dg dr dh obj,
    deferreds st !! DGet k = Some dg /\ is_parked s dg /\
    renders st !! r = Some obj /\ r_deferred obj = DRender r /\
    deferreds st !! DRender r = Some dr /\ is_future r k dr /\
    deferreds st !! DPool r = Some dh /\ is_handle r s dh.

(** X10: no slot is lost and none idles while a job waits.  At the end
    of any run, whatever raised in [start], in [close()] or in
    [get_url()], every slot is back on the queue or holds a render of the
    active set, no two slots hold the same render, and when a slot waits
    on the queue, the queue of jobs is empty. *)
Theorem no_slot_is_lost f slots cls js v env inputs :
  port_ok env -> length inputs + 9 <= f ->
  exists st,
    pool_run f slots cls js v env inputs = Some st /\
    (forall s, s < Z.to_nat slots ->
       slot_waits st s \/ exists r, slot_holds st s r) /\
    (forall s s' r, slot_holds st s r -> slot_holds st s' r -> s = s') /\
    Z.to_nat slots <= length (queue_waiting st) + size (active st) /\
    (queue_waiting st <> [] -> queue_pending st = []).
Proof.
  intros Hport Hf.
  destruct (pool_inv f slots cls js v env inputs Hport Hf)
    as (st & ph & E & HI & Hlen & _).
  exists st. split; [done|].
  pose proof HI as (HS & Hidle & Hph). split_and!.
  - intros s Hs. rewrite <- Hlen in Hs.
    destruct (lookup_lt_is_Some_2 ph s Hs) as [q Hq].
    pose proof (sh_slots _ _ _ _ _ _ _ _ _ _ HS s q Hq) as Hok.
    destruct q as [k|k r|].
    + left. destruct Hok as (_ & Hw & df & Hdf & Hwt). by exists k, df.
    + right. exists r.
      destruct Hok as (_ & _ & Hact & (dg & Hdg & Hpk) & (dr & Hdr & Hfu)
                         & (dh & Hdh & Hha) & (obj & Hobj & Hrd)).
      split; [done|]. by exists k, dg, dr, dh, obj.
    + rewrite Forall_forall in Hph. by destruct (Hph Transit (list_elem_of_lookup_2 _ _ _ Hq)).
  - intros s s' r (_ & k & dg & dr & dh & obj & _ & _ & _ & _ & _ & _ & Hdh & Hha)
      (_ & k' & dg' & dr' & dh' & obj' & _ & _ & _ & _ & _ & _ & Hdh' & Hha').
    rewrite Hdh in Hdh'. inversion Hdh'; subst dh'.
    destruct Hha as [_ Hc _ _], Hha' as [_ Hc' _ _].
    rewrite Hc in Hc'. unfold handle_cbs in Hc'. congruence.
  - destruct (slots_count ph st HI) as [_ H]. by rewrite Hlen in H.
  - done.
Qed.

Lemma no_slot_is_lost_witness :
  exists st,
    pool_run 20 2 None None 2 env0 sample_inputs = Some st /\
    (forall s, s < Z.to_nat 2 ->
       slot_waits st s \/ exists r, slot_holds st s r) /\
    (forall s s' r, slot_holds st s r -> slot_holds st s' r -> s = s') /\
    Z.to_nat 2 <= length (queue_waiting st) + size (active st) /\
    (queue_waiting st <> [] -> queue_pending st = []).
Proof.
  apply (no_slot_is_lost 20 2 None None 2 env0 sample_inputs).
  - intros e. discriminate.
  - simpl. lia.
Defined.

Lemma close_core_slot v key up now rs act obj r s s' :
  (close_core v key up now rs act obj r s).2
  = (close_core v key up now rs act obj r s').2.
Proof.
  unfold close_core. destruct (urls_of _ _); [|done].
  by destruct (on_close _).
Qed.

(** What the cleanup of render [r] raises in state [st], if anything:
    the exception of a [get_url()] of another active render, or the one
    of [close()]. *)
Definition cleanup_error (st : state) (obj : render_object) (r : nat)
    : option exn :=
  (close_summary st obj r 0).2.

(** X11: the handle of a job fires with what became of its render.  At
    the end of any run, let [r] be in the active set and started; when
    its future fires with [o], the step goes through and the handle
    [DPool r] has fired: with the result or failure [o] when the cleanup
    raises nothing, with the exception of the cleanup in place of [o]
    otherwise. *)
Theorem completion_reaches_handle f slots cls js v env inputs st r o :
  port_ok env -> length inputs + 9 <= f ->
  pool_run f slots cls js v env inputs = Some st ->
  r ∈ active st -> r ∈ starts (trace st) ->
  exists obj st',
    renders st !! r = Some obj /\
    step f (Complete r o) st = (Ok tt, st') /\
    handle_result_of r st' =
      Some (handle_result (value_of_outcome o) (cleanup_error st obj r)).
Proof.
  intros Hport Hf Hrun Hact Hst.
  destruct (pool_inv f slots cls js v env inputs Hport Hf)
    as (st1 & ph & E & HI & Hlen & Hnp).
  rewrite Hrun in E. inversion E; subst st1. clear E.
  pose proof HI as (HS & _).
  destruct (sh_active _ _ _ _ _ _ _ _ _ _ HS r Hact)
    as [_ [(s & k & Hs)|Hn]]; [|done].
  destruct (sh_slots _ _ _ _ _ _ _ _ _ _ HS s _ Hs)
    as (_ & _ & _ & _ & _ & _ & (obj & Hobj & _)).
  assert (Hfuel : length (queue_pending st) + 9 <= f).
  { pose proof (Inv_pending _ _ HI).
    assert (submits inputs <= length inputs) by apply length_filter.
    lia. }
  destruct (complete_flat f st ph _ _ _ _ _ _ _ _ (next_network_manager st)
              _ r o HI Hfuel) as (res & F' & E' & _ & _ & Hh).
  change (flat st _ _ _ _ _ _ _ _ _ _) with (same st) in E'.
  rewrite same_eq in E'.
  destruct (Hh s k obj Hs Hobj) as [-> Hres].
  exists obj, F'. split; [done|]. split; [done|].
  rewrite Hres. unfold cleanup_error, close_summary.
  by rewrite (close_core_slot _ _ _ _ _ _ _ _ s 0).
Qed.

(** The state the sample inputs lead to: renders 3 and 4 are running. *)
Definition st_sample : state :=
  default blank (pool_run 20 2 None None 2 env0 sample_inputs).

Lemma completion_reaches_handle_witness :
  exists obj st',
    renders st_sample !! 3 = Some obj /\
    step 20 (Complete 3 (Fails (UnitError 4))) st_sample = (Ok tt, st') /\
    handle_result_of 3 st' =
      Some (handle_result (value_of_outcome (Fails (UnitError 4)))
              (cleanup_error st_sample obj 3)).
Proof.
  apply (completion_reaches_handle 20 2 None None 2 env0 sample_inputs
           st_sample 3 (Fails (UnitError 4))).
  - intros e. discriminate.
  - simpl. lia.
  - vm_compute. reflexivity.
  - apply (bool_decide_unpack _). vm_compute. exact I.
  - apply (bool_decide_unpack _). vm_compute. exact I.
Defined.

(* ===================================================================== *)
(** ** The constructor *)
(* ===================================================================== *)

(** X12: the constructor, with a port it can read, starts [slots] slot
    loops and nothing else: slot [s] waits on the queue with the deferred
    of the [s]-th [get], which has [_start_render] and then
    [_wait_for_render] for slot [s] as its callbacks; the queue of jobs
    and the active set are empty; the one line logged is the address of
    the store (no 'SLOT is available' line: [log=False]).  It needs no
    fuel: nothing is called back. *)
Theorem constructor_arms_slots f slots cls js v env :
  port_ok env ->
  exists st,
    new_pool f slots cls js v env = (Ok tt, st) /\
    queue_waiting st = DGet <$> seq 0 (Z.to_nat slots) /\
    queue_pending st = [] /\ active st = ∅ /\ renders st = ∅ /\
    trace st = [ELog "debug-urls" (LogRedis (env_host env) (env_port env))]
    /\ (forall s, s < Z.to_nat slots ->
          exists df, deferreds st !! DGet s = Some df /\
                     called df = false /\ callbacks df = waiter_cbs s).
Proof.
  intros Hport.
  destruct (init_inv f slots cls js v env Hport)
    as (st & ph & E & (HS & _) & Hlen & Hp & Hw & _ & _ & Ha & Hr & _ & Ht
        & Hidx).
  exists st. split_and!; try done.
  intros s Hs.
  destruct (sh_slots _ _ _ _ _ _ _ _ _ _ HS s _ (Hidx s Hs))
    as (_ & _ & df & Hdf & [Hc Hcb _ _]).
  by exists df.
Qed.

Lemma constructor_arms_slots_witness :
  exists st,
    new_pool 0 3 None None 2 env0 = (Ok tt, st) /\
    queue_waiting st = DGet <$> seq 0 (Z.to_nat 3) /\
    queue_pending st = [] /\ active st = ∅ /\ renders st = ∅ /\
    trace st = [ELog "debug-urls" (LogRedis (env_host env0) (env_port env0))]
    /\ (forall s, s < Z.to_nat 3 ->
          exists df, deferreds st !! DGet s = Some df /\
                     called df = false /\ callbacks df = waiter_cbs s).
Proof.
  apply (constructor_arms_slots 0 3 None None 2 env0).
  intros e. discriminate.
Defined.

(** X13: when [REDIS_PORT] is set and [int] cannot read it, the
    constructor raises what [int] raises, after the slot loops were
    started: the slots wait on the queue of a pool that was never
    returned, and nothing was logged. *)
Theorem constructor_bad_port f slots cls js v env e :
  REDIS_PORT env = Some (Raises e) ->
  exists st,
    new_pool f slots cls js v env = (Raise e, st) /\
    queue_waiting st = DGet <$> seq 0 (Z.to_nat slots) /\
    trace st = [].
Proof.
  intros Hport. unfold new_pool, __init__.
  unfold bind at 1, modify at 1. cbv beta iota.
  set (c := match cls with Some c => c | None => fun _ => None end).
  set (st0 := with_config c js v blank).
  change st0 with (flat st0 ∅ [] [] ∅ ∅ 0 0 0 0 []).
  set (N := Z.to_nat slots).
  destruct (arm_slots (exec f) st0 (seq 0 N) (replicate N Transit)
              ∅ [] ∅ ∅ 0 0 0 0 [] (Shape_empty N))
    as (ph' & h' & E & _).
  { intros s Hs%elem_of_seq. apply lookup_replicate_2. lia. }
  { apply NoDup_seq. }
  rewrite length_seq in E. simpl in E.
  erewrite bind_ok by exact E. rewrite Hport.
  eexists. split; [reflexivity|]. done.
Qed.

Definition env_bad_port : environ :=
  {| MESOS_TASK_ID := None; REDIS_HOST := None;
     REDIS_PORT := Some (Raises ValueError); uuid4 := "uuid" |}.

Lemma constructor_bad_port_witness :
  exists st,
    new_pool 0 2 None None 2 env_bad_port = (Raise ValueError, st) /\
    queue_waiting st = DGet <$> seq 0 (Z.to_nat 2) /\
    trace st = [].
Proof.
  apply (constructor_bad_port 0 2 None None 2 env_bad_port ValueError).
  reflexivity.
Defined.

(* ===================================================================== *)
(** ** [_start_render], by what [start] does *)
(* ===================================================================== *)

(** X14: [_start_render] on a job whose [start] returns and leaves the
    future unsettled: it returns the future of the render; the render is
    in the active set; the handle of the job has [_error] as errback and
    then [_close_render] for both outcomes, and is not fired; the future
    of the render is chained to the handle; the trace grows by:
    'initializing', the build of the render, the snapshot, 'is starting',
    [start], 'is working'. *)
Theorem start_render_running fuel st act w p h rs ng np nr nn tr s a j hd us :
  sa_pool_d a = DPool j ->
  h !! DPool j = Some hd ->
  called hd = false -> callbacks hd = [] ->
  running hd = false -> paused hd = 0 ->
  job_urls st act rs nr nn a = Returns us ->
  on_start (sa_rendercls a) = StartAsync ->
  exists st',
    _start_render (exec (S (S (S (S fuel))))) (VArgs a) s
      (flat st act w p h rs ng np nr nn tr)
      = (Ok (VDeferred (DRender nr)), st') /\
    active st' = act ∪ {[nr]} /\
    renders st' !! nr = Some (mk_obj a nn (verbosity st) nr) /\
    deferreds st' !! DPool j = Some (hd_armed nr s hd) /\
    deferreds st' !! DRender nr = Some (rd_armed j) /\
    trace st' = tr ++ ev_started st nr nn s a us ++ ev_working st s a.
Proof.
  intros Hj Hhd Hc Hcb Hrun Hp Hu Hs. eexists. split.
  - apply (start_render_async st act w p h rs ng np nr nn tr s a j Hj hd
             Hhd Hc Hcb Hrun Hp fuel us Hu Hs).
  - autorewrite with flat. unfold heap_started.
    split; [done|]. split; [by rewrite lookup_insert_eq|].
    split; [by rewrite lookup_insert_eq|]. split; [|done].
    rewrite lookup_insert_ne by done. by rewrite lookup_insert_eq.
Qed.

(** A process with the handle of one job and nothing else. *)
Definition st_one_handle : state :=
  flat blank ∅ [] [] (<[DPool 0 := new_deferred false]> ∅) ∅ 0 1 0 0 [].

Lemma start_render_running_witness :
  exists st',
    _start_render (exec 4) (VArgs (plain_args cls_async (url_ok "c") [] 0)) 0
      st_one_handle
      = (Ok (VDeferred (DRender 0)), st') /\
    active st' = ∅ ∪ {[0]} /\
    renders st' !! 0 =
      Some (mk_obj (plain_args cls_async (url_ok "c") [] 0) 0
              (verbosity blank) 0) /\
    deferreds st' !! DPool 0 = Some (hd_armed 0 0 (new_deferred false)) /\
    deferreds st' !! DRender 0 = Some (rd_armed 0) /\
    trace st' =
      [] ++ ev_started blank 0 0 0 (plain_args cls_async (url_ok "c") [] 0)
              [UrlStr "c"]
         ++ ev_working blank 0 (plain_args cls_async (url_ok "c") [] 0).
Proof.
  apply (start_render_running 0 blank ∅ [] []
           (<[DPool 0 := new_deferred false]> ∅) ∅ 0 1 0 0 [] 0
           (plain_args cls_async (url_ok "c") [] 0) 0 (new_deferred false)
           [UrlStr "c"]).
  - reflexivity.
  - vm_compute. reflexivity.
  - reflexivity.
  - reflexivity.
  - reflexivity.
  - reflexivity.
  - vm_compute. reflexivity.
  - reflexivity.
Defined.

(** X15: [_start_render] on a job whose [start] settles the future
    before it returns: the whole job is over when [_start_render]
    returns.  The handle has fired, with what [start] settled the future
    with or, when the cleanup raised, with its exception; the render is
    out of the active set again; 'is working' is logged after the
    cleanup. *)
Theorem start_render_settled fuel st act w p h rs ng np nr nn tr s a j hd
    us o :
  sa_pool_d a = DPool j ->
  h !! DPool j = Some hd ->
  called hd = false -> callbacks hd = [] ->
  running hd = false -> paused hd = 0 ->
  job_urls st act rs nr nn a = Returns us ->
  on_start (sa_rendercls a) = StartSync o ->
  exists st',
    _start_render (exec (S (S (S (S fuel))))) (VArgs a) s
      (flat st act w p h rs ng np nr nn tr)
      = (Ok (VDeferred (DRender nr)), st') /\
    active st' = (act ∪ {[nr]}) ∖ {[nr]} /\
    handle_result_of j st' =
      Some (handle_result (value_of_outcome o)
              (job_close st act rs nr nn s a).2) /\
    trace st' =
      tr ++ ev_finished st act rs nr nn s a us (value_of_outcome o)
         ++ ev_working st s a.
Proof.
  intros Hj Hhd Hc Hcb Hrun Hp Hu Hs. eexists. split.
  - apply (start_render_sync st act w p h rs ng np nr nn tr s a j Hj hd
             Hhd Hc Hcb Hrun Hp fuel us o Hu Hs).
  - unfold handle_result_of. autorewrite with flat. unfold heap_finished.
    split; [done|]. split; [|done].
    rewrite lookup_insert_ne by done. by rewrite lookup_insert_eq.
Qed.

Lemma start_render_settled_witness :
  exists st',
    _start_render (exec 4) (VArgs (plain_args cls_sync (url_ok "c") [] 0)) 0
      st_one_handle
      = (Ok (VDeferred (DRender 0)), st') /\
    active st' = (∅ ∪ {[0]}) ∖ {[0]} /\
    handle_result_of 0 st' =
      Some (handle_result (value_of_outcome (Succeeds "ok"))
              (job_close blank ∅ ∅ 0 0 0
                 (plain_args cls_sync (url_ok "c") [] 0)).2) /\
    trace st' =
      [] ++ ev_finished blank ∅ ∅ 0 0 0
              (plain_args cls_sync (url_ok "c") [] 0) [UrlStr "c"]
              (value_of_outcome (Succeeds "ok"))
         ++ ev_working blank 0 (plain_args cls_sync (url_ok "c") [] 0).
Proof.
  apply (start_render_settled 0 blank ∅ [] []
           (<[DPool 0 := new_deferred false]> ∅) ∅ 0 1 0 0 [] 0
           (plain_args cls_sync (url_ok "c") [] 0) 0 (new_deferred false)
           [UrlStr "c"] (Succeeds "ok")).
  - reflexivity.
  - vm_compute. reflexivity.
  - reflexivity.
  - reflexivity.
  - reflexivity.
  - reflexivity.
  - vm_compute. reflexivity.
  - reflexivity.
Defined.

(** X16: [_start_render] on a job whose [start] raises: the exception
    is sent into the future of the render, so the handle fires with it as
    a failure (or with the exception of the cleanup, when that raised
    too), [_error] logs it and [_close_render] runs; then the exception of
    [start] is raised again out of [_start_render]; the render is out of
    the active set; 'is working' is not logged. *)
Theorem start_render_start_raises fuel st act w p h rs ng np nr nn tr s a j
    hd us e :
  sa_pool_d a = DPool j ->
  h !! DPool j = Some hd ->
  called hd = false -> callbacks hd = [] ->
  running hd = false -> paused hd = 0 ->
  job_urls st act rs nr nn a = Returns us ->
  on_start (sa_rendercls a) = StartRaises e ->
  exists st',
    _start_render (exec (S (S (S (S fuel))))) (VArgs a) s
      (flat st act w p h rs ng np nr nn tr)
      = (Raise e, st') /\
    active st' = (act ∪ {[nr]}) ∖ {[nr]} /\
    handle_result_of j st' =
      Some (handle_result (VFailure e) (job_close st act rs nr nn s a).2) /\
    trace st' = tr ++ ev_finished st act rs nr nn s a us (VFailure e).
Proof.
  intros Hj Hhd Hc Hcb Hrun Hp Hu Hs. eexists. split.
  - apply (start_render_raises st act w p h rs ng np nr nn tr s a j Hj hd
             Hhd Hc Hcb Hrun Hp fuel us e Hu Hs).
  - unfold handle_result_of. autorewrite with flat. unfold heap_finished.
    split; [done|]. split; [|done].
    rewrite lookup_insert_ne by done. by rewrite lookup_insert_eq.
Qed.

Lemma start_render_start_raises_witness :
  exists st',
    _start_render (exec 4) (VArgs (plain_args cls_raise (url_ok "c") [] 0)) 0
      st_one_handle
      = (Raise (UnitError 1), st') /\
    active st' = (∅ ∪ {[0]}) ∖ {[0]} /\
    handle_result_of 0 st' =
      Some (handle_result (VFailure (UnitError 1))
              (job_close blank ∅ ∅ 0 0 0
                 (plain_args cls_raise (url_ok "c") [] 0)).2) /\
    trace st' =
      [] ++ ev_finished blank ∅ ∅ 0 0 0
              (plain_args cls_raise (url_ok "c") [] 0) [UrlStr "c"]
              (VFailure (UnitError 1)).
Proof.
  apply (start_render_start_raises 0 blank ∅ [] []
           (<[DPool 0 := new_deferred false]> ∅) ∅ 0 1 0 0 [] 0
           (plain_args cls_raise (url_ok "c") [] 0) 0 (new_deferred false)
           [UrlStr "c"] (UnitError 1)).
  - reflexivity.
  - vm_compute. reflexivity.
  - reflexivity.
  - reflexivity.
  - reflexivity.
  - reflexivity.
  - vm_compute. reflexivity.
  - reflexivity.
Defined.

(* ===================================================================== *)
(** ** Logging and verbosity *)
(* ===================================================================== *)

(** Any event but a log line of the pool itself ([system='pool']). *)
Definition not_pool_log (e : event) : bool :=
  match e with
  | ELog sys _ => negb (String.eqb sys "pool")
  | _ => true
  end.

(** A pool that is told to keep quiet and has done so. *)
Definition quiet (s : state) : Prop :=
  (verbosity s < 2)%Z /\ forallb not_pool_log (trace s) = true.

Lemma quiet_emit e :
  not_pool_log e = true -> keeps quiet (modify (emit e)).
Proof.
  intros He s [Hv Ht]. split; [done|]. simpl.
  by rewrite forallb_app, Ht; simpl; rewrite He.
Qed.

Lemma quiet_log t : keeps quiet (log t).
Proof.
  intros s [Hv Ht]. unfold log, bind, gets.
  destruct (Z.leb_spec 2 (verbosity s)); [lia|]. by split.
Qed.

Lemma quiet_same (g : state -> state) :
  (forall s, verbosity (g s) = verbosity s) ->
  (forall s, trace (g s) = trace s) ->
  keeps quiet (modify g).
Proof.
  intros Hv Ht s [H1 H2]. unfold modify. simpl. split.
  - by rewrite Hv.
  - by rewrite Ht.
Qed.

Create HintDb quiet.
#[export] Hint Resolve keeps_ret keeps_raise keeps_out_of_fuel keeps_gets
  keeps_get_d keeps_get_render quiet_log : quiet.

Ltac quiet_step :=
  first
    [ solve [eauto 3 with quiet]
    | apply keeps_bind; [|intros ?]
    | apply keeps_try; [|intros ?]
    | apply keeps_attempt
    | apply keeps_when
    | apply quiet_emit; reflexivity
    | apply quiet_same; [intros ?; reflexivity|intros ?; reflexivity]
    | match goal with
      | |- keeps _ (match ?x with _ => _ end) => destruct x
      end ].

Ltac quiet := repeat quiet_step.

Lemma quiet_set_d d df : keeps quiet (set_d d df).
Proof. unfold set_d. quiet. Qed.
#[export] Hint Resolve quiet_set_d : quiet.

Lemma quiet_update_d d f : keeps quiet (update_d d f).
Proof. unfold update_d. quiet. Qed.

Lemma quiet_network_manager_factory : keeps quiet network_manager_factory.
Proof. unfold network_manager_factory. quiet. Qed.

Lemma quiet_construct cls nm spf ro v : keeps quiet (construct cls nm spf ro v).
Proof. unfold construct. quiet. Qed.

Lemma quiet_render_close s r : keeps quiet (render_close s r).
Proof. unfold render_close. quiet. Qed.

Lemma quiet_render_urls l : keeps quiet (render_urls l).
Proof. intros s H. by rewrite render_urls_eq. Qed.

Lemma quiet_debug_update : keeps quiet debug_update.
Proof.
  intros s [Hv Ht]. rewrite debug_update_eq.
  destruct (urls_of _ _) as [us|e]; [|done]. split; [done|]. simpl.
  rewrite forallb_app, Ht. unfold debug_events.
  by destruct (all_str us), (redis_up s).
Qed.
#[export] Hint Resolve quiet_update_d quiet_network_manager_factory
  quiet_construct quiet_render_close quiet_render_urls quiet_debug_update
  : quiet.

Section QuietMethods.

Context (rec : rec_call -> M unit).
Hypothesis Hrec : forall c, keeps quiet (rec c).
Hint Resolve Hrec : quiet.

Lemma quiet_startRunCallbacks d v : keeps quiet (_startRunCallbacks rec d v).
Proof using Hrec. unfold _startRunCallbacks. quiet. Qed.
Hint Resolve quiet_startRunCallbacks : quiet.

Lemma quiet_callback d v : keeps quiet (callback rec d v).
Proof using Hrec. unfold callback. quiet. Qed.

Lemma quiet_errback d e : keeps quiet (errback rec d e).
Proof using Hrec. unfold errback. quiet. Qed.

Lemma quiet_addCallbacks d cb eb : keeps quiet (addCallbacks rec d cb eb).
Proof using Hrec. unfold addCallbacks. quiet. Qed.
Hint Resolve quiet_callback quiet_errback quiet_addCallbacks : quiet.

Lemma quiet_cancelGet d : keeps quiet (_cancelGet d).
Proof using Type. unfold _cancelGet. quiet. Qed.

Lemma quiet_put a : keeps quiet (put rec a).
Proof using Hrec. unfold put. quiet. Qed.

Lemma quiet_get : keeps quiet get.
Proof using Type. unfold get. quiet. Qed.
Hint Resolve quiet_cancelGet quiet_put quiet_get : quiet.

Lemma quiet_cancel d : keeps quiet (cancel rec d).
Proof using Hrec. unfold cancel. quiet. Qed.

Lemma quiet_render cls ro proxy kw : keeps quiet (render rec cls ro proxy kw).
Proof using Hrec. unfold render. quiet. Qed.

Lemma quiet_wait_for_render v s lg : keeps quiet (_wait_for_render rec v s lg).
Proof using Hrec. unfold _wait_for_render, addCallback, addBoth. quiet. Qed.

Lemma quiet_render_start r kw : keeps quiet (render_start rec r kw).
Proof using Hrec. unfold render_start. quiet. Qed.
Hint Resolve quiet_cancel quiet_render quiet_wait_for_render
  quiet_render_start : quiet.

Lemma quiet_start_render v s : keeps quiet (_start_render rec v s).
Proof using Hrec.
  unfold _start_render, chainDeferred, addErrback, addBoth. quiet.
Qed.

Lemma quiet_error v r s : keeps quiet (_error v r s).
Proof using Type. unfold _error. quiet. Qed.

Lemma quiet_close_render v r s : keeps quiet (_close_render rec v r s).
Proof using Hrec. unfold _close_render. quiet. Qed.
Hint Resolve quiet_start_render quiet_error quiet_close_render : quiet.

Lemma quiet_call f v : keeps quiet (call rec f v).
Proof using Hrec. unfold call. quiet. Qed.
Hint Resolve quiet_call : quiet.

Lemma quiet_runCallbacks d : keeps quiet (_runCallbacks rec d).
Proof using Hrec. unfold _runCallbacks. quiet. Qed.

End QuietMethods.

Lemma quiet_exec fuel c : keeps quiet (exec fuel c).
Proof.
  revert c. induction fuel as [|fuel IH]; intros c.
  - apply keeps_out_of_fuel.
  - destruct c.
    + rewrite exec_run. by apply quiet_runCallbacks.
    + rewrite exec_cancel. by apply quiet_cancel.
Qed.

Lemma quiet_step_input fuel i : keeps quiet (step fuel i).
Proof.
  assert (Hx := quiet_exec fuel).
  destruct i as [cls ro proxy kw|r o|up now]; simpl.
  - apply keeps_bind; [by apply quiet_render|intros _; apply keeps_ret].
  - apply keeps_bind; [apply keeps_gets|intros rs].
    destruct (rs !! r); [|apply keeps_ret].
    destruct o; [by apply quiet_callback|by apply quiet_errback].
  - by apply quiet_same.
Qed.

Lemma quiet_init fuel slots cls js v env :
  (v < 2)%Z -> quiet (new_pool fuel slots cls js v env).2.
Proof.
  intros Hv. unfold new_pool, __init__.
  unfold bind at 1, modify at 1. cbv beta iota.
  assert (H0 : quiet (with_config
                        match cls with Some c => c | None => fun _ => None end
                        js v blank)) by done.
  revert H0. generalize (with_config
                        match cls with Some c => c | None => fun _ => None end
                        js v blank).
  assert (Hx := quiet_exec fuel).
  apply keeps_bind.
  { apply keeps_for_range. intros n.
    apply keeps_bind; [by apply quiet_wait_for_render|intros _; apply keeps_ret]. }
  intros _. apply keeps_bind.
  { destruct (REDIS_PORT env) as [[]|]; (apply keeps_ret || apply keeps_raise). }
  intros port. apply keeps_bind.
  - unfold log_msg. by apply quiet_emit.
  - intros _. by apply quiet_same.
Qed.

(** X17: a pool built with [verbosity] below 2 never logs a line of its
    own: whatever is submitted and however the jobs end, the trace of any
    run has no log line under the system 'pool' (the lines that remain
    are the address of the store and the failures of [debug_update],
    logged under 'debug-urls'). *)
Theorem quiet_below_two fuel slots cls js v env inputs :
  (v < 2)%Z ->
  forallb not_pool_log (trace (new_pool fuel slots cls js v env).2) = true /\
  match run fuel inputs (new_pool fuel slots cls js v env).2 with
  | Some st => forallb not_pool_log (trace st) = true
  | None => True
  end.
Proof.
  intros Hv. pose proof (quiet_init fuel slots cls js v env Hv) as H0.
  split; [by destruct H0|].
  destruct (run fuel inputs _) as [st|] eqn:E; [|done].
  eapply (keeps_run quiet) in E; [by destruct E| |exact H0].
  intros i. apply quiet_step_input.
Qed.

Lemma quiet_below_two_witness :
  forallb not_pool_log (trace (new_pool 20 2 None None 1 env0).2) = true /\
  match run 20
          [Submit cls_raise (url_ok "a") None [];
           Submit cls_close_raises (url_bad "b") None []]
          (new_pool 20 2 None None 1 env0).2 with
  | Some st => forallb not_pool_log (trace st) = true
  | None => True
  end.
Proof.
  apply (quiet_below_two 20 2 None None 1 env0
           [Submit cls_raise (url_ok "a") None [];
            Submit cls_close_raises (url_bad "b") None []]).
  lia.
Defined.
